(** * Crossword generation as constraint satisfaction: [generate.py]

    A shallow embedding of the class [CrosswordCreator] of [generate.py]
    (node consistency, AC-3, backtracking search with its heuristics) and
    the properties of its solving path.

    Conventions of the embedding.
    - A Python [set] of words is a [gset string]; iterating over it is
      iterating over [elements].  A [set] of the crossword structure
      ([crossword.variables], the result of [crossword.neighbors]) is a
      list: the set in its iteration order.
    - [self.domains] is a [gmap] from variables to sets of words; the
      methods that mutate it thread it explicitly.
    - An assignment is a Python [dict]: an association list in insertion
      order.  [backtrack] handles dict objects by reference, so the search
      runs over a heap of dict objects.
    - A Python exception is the outcome [Raise]; loops that Python runs to
      completion and Rocq cannot see terminating take fuel, and running
      out of it is the outcome [OutOfFuel]. *)

From Stdlib Require Import Ascii.
From stdpp Require Import gmap strings list fin_maps sorting.

Local Open Scope string_scope.
Local Open Scope list_scope.
Local Open Scope nat_scope.

(** ** Outcomes of Python code *)

Inductive exn := KeyError | TypeError | IndexError | ValueError.

Inductive outcome (A : Type) : Type :=
| Ok (a : A)
| Raise (e : exn)
| OutOfFuel.
Arguments Ok {A} a.
Arguments Raise {A} e.
Arguments OutOfFuel {A}.

Global Instance exn_eq_dec : EqDecision exn.
Proof. solve_decision. Defined.

Global Instance outcome_eq_dec {A} `{EqDecision A} : EqDecision (outcome A).
Proof. solve_decision. Defined.

Definition obind {A B} (m : outcome A) (k : A → outcome B) : outcome B :=
  match m with
  | Ok a => k a
  | Raise e => Raise e
  | OutOfFuel => OutOfFuel
  end.

Notation "'let*' x ':=' m 'in' k" := (obind m (λ x, k))
  (at level 10, x name, m at level 100, k at level 200, only parsing).

(** Code that mutates a store of type [S]: the store comes back with the
    outcome, also when the code raises. *)
Definition M (S A : Type) : Type := S → outcome A * S.

Definition ret {S A} (a : A) : M S A := λ s, (Ok a, s).

Definition sbind {S A B} (m : M S A) (k : A → M S B) : M S B :=
  λ s, match m s with
       | (Ok a, s') => k a s'
       | (Raise e, s') => (Raise e, s')
       | (OutOfFuel, s') => (OutOfFuel, s')
       end.
Definition reading {S A} (f : S → outcome A) : M S A := λ s, (f s, s).

Notation "'let!' x ':=' m 'in' k" := (sbind m (λ x, k))
  (at level 10, x name, m at level 100, k at level 200, only parsing).

(** ** The crossword structure (module [crossword], imported by the file) *)

Inductive Direction := ACROSS | DOWN.

(** [crossword.Variable]: a slot of the grid; hashable, compared by value. *)
Record variable := mkVariable {
  var_i : nat;
  var_j : nat;
  var_direction : Direction;
  var_length : nat
}.

Global Instance Direction_eq_dec : EqDecision Direction.
Proof. solve_decision. Defined.

Global Instance variable_eq_dec : EqDecision variable.
Proof. solve_decision. Defined.

Global Instance Direction_countable : Countable Direction.
Proof.
  refine (inj_countable' (λ d, match d with ACROSS => false | DOWN => true end)
                         (λ b : bool, if b then DOWN else ACROSS) _).
  by intros [].
Defined.

Global Instance variable_countable : Countable variable.
Proof.
  refine (inj_countable'
            (λ v, (var_i v, var_j v, var_direction v, var_length v))
            (λ t, match t with (a, b, c, n) => mkVariable a b c n end) _).
  by intros [].
Defined.

(** The object [self.crossword], as far as [CrosswordCreator] reads it.
    [overlaps x y] is the dict lookup [crossword.overlaps[x, y]]: [None]
    when the key is absent, [Some None] when the stored value is [None],
    [Some (Some (a, b))] for the index pair [(a, b)]. *)
Record Crossword := mkCrossword {
  variables : list variable;
  words : gset string;
  overlaps : variable → variable → option (option (nat * nat));
  neighbors : variable → list variable
}.

Abbreviation Domains := (gmap variable (gset string)).
Abbreviation arc := (variable * variable)%type.

(** ** Strings, sets and dicts as Python reads them *)

(** [s[n]] for a non-negative index. *)
Definition str_index (s : string) (n : nat) : outcome ascii :=
  match String.get n s with
  | Some c => Ok c
  | None => Raise IndexError
  end.

(** [d[k]] on a dict held as a finite map. *)
Definition getitem {K V} `{Countable K} (d : gmap K V) (k : K) : outcome V :=
  match d !! k with
  | Some v => Ok v
  | None => Raise KeyError
  end.

(** [s.remove(w)]. *)
Definition set_remove (w : string) (s : gset string) : outcome (gset string) :=
  if decide (w ∈ s) then Ok (s ∖ {[w]}) else Raise KeyError.

(** [overlap[0]] and [overlap[1]] and the two characters they select:
    subscripting [None] is a [TypeError]. *)
Definition overlap_chars (overlap : option (nat * nat)) (w1 w2 : string)
  : outcome (ascii * ascii) :=
  match overlap with
  | None => Raise TypeError
  | Some (a, b) =>
      let* c1 := str_index w1 a in
      let* c2 := str_index w2 b in
      Ok (c1, c2)
  end.

Fixpoint for_each {S A} (body : A → M S unit) (l : list A) : M S unit :=
  match l with
  | [] => ret tt
  | a :: rest => let! _ := body a in for_each body rest
  end.

(** [list.sort(key=...)] is a stable sort, and the result of a stable sort
    is determined by the list and the key: insertion from the right,
    placing an element before the ones with an equal key. *)
Fixpoint sort_insert {A} (key : A → nat) (a : A) (l : list A) : list A :=
  match l with
  | [] => [a]
  | b :: rest =>
      if decide (key a ≤ key b) then a :: b :: rest
      else b :: sort_insert key a rest
  end.

Definition list_sort {A} (key : A → nat) (l : list A) : list A :=
  foldr (sort_insert key) [] l.

(** [min(l, key=...)]: the first element with the least key; a
    [ValueError] on the empty list. *)
Fixpoint min_from {A} (key : A → nat) (best : A) (l : list A) : A :=
  match l with
  | [] => best
  | a :: rest =>
      min_from key (if decide (key a < key best) then a else best) rest
  end.

Definition py_min {A} (key : A → nat) (l : list A) : outcome A :=
  match l with
  | [] => Raise ValueError
  | a :: rest => Ok (min_from key a rest)
  end.

Section CrosswordCreator.

Context (cw : Crossword).

(** [self.crossword.overlaps[x, y]] *)
Definition overlaps_get (x y : variable) : outcome (option (nat * nat)) :=
  match overlaps cw x y with
  | Some o => Ok o
  | None => Raise KeyError
  end.

(** [__init__]: every variable starts from its own copy of the word set. *)
Definition init_domains : Domains :=
  list_to_map ((λ var, (var, words cw)) <$> variables cw).

(** [self.domains[x].remove(w)]: the set object stored under [x] is
    mutated in place. *)
Definition domain_remove (x : variable) (w : string) : M Domains unit :=
  λ d, match getitem d x with
       | Ok s =>
           match set_remove w s with
           | Ok s' => (Ok tt, <[x := s']> d)
           | Raise e => (Raise e, d)
           | OutOfFuel => (OutOfFuel, d)
           end
       | Raise e => (Raise e, d)
       | OutOfFuel => (OutOfFuel, d)
       end.

(** *** [enforce_node_consistency] *)

Definition enforce_var (var : variable) : M Domains unit :=
  let! s := reading (λ d, getitem d var) in
  let remove_words :=
    filter (λ w, String.length w ≠ var_length var) (elements s) in
  for_each (domain_remove var) remove_words.

Definition enforce_node_consistency : M Domains unit :=
  for_each enforce_var (variables cw).

(** *** [revise] *)

(** The inner loop of [revise]: the value of [remove] after [x_word] has
    been compared with every word of [domains[y]] (the loop has no
    [break]). *)
Fixpoint revise_scan_y (overlap : option (nat * nat)) (x_word : string)
    (y_words : list string) (remove : bool) : outcome bool :=
  match y_words with
  | [] => Ok remove
  | y_word :: rest =>
      let* cs := overlap_chars overlap x_word y_word in
      revise_scan_y overlap x_word rest
        (if decide (cs.1 = cs.2) then false else remove)
  end.

(** The outer loop of [revise]: the list [remove_words]. *)
Fixpoint revise_scan_x (overlap : option (nat * nat)) (d : Domains)
    (y : variable) (x_words : list string) : outcome (list string) :=
  match x_words with
  | [] => Ok []
  | x_word :: rest =>
      let* ys := getitem d y in
      let* remove := revise_scan_y overlap x_word (elements ys) true in
      let* more := revise_scan_x overlap d y rest in
      Ok (if remove : bool then x_word :: more else more)
  end.

Definition revise (x y : variable) : M Domains bool :=
  let! remove_words := reading (λ d,
      let* overlap_coordinate := overlaps_get x y in
      let* xs := getitem d x in
      revise_scan_x overlap_coordinate d y (elements xs)) in
  let! _ := for_each (domain_remove x) remove_words in
  ret (match remove_words with [] => false | _ => true end).

(** *** [ac3] *)

Definition initial_queue (arcs : option (list arc)) : list arc :=
  match arcs with
  | None =>
      var ← variables cw; linked_var ← neighbors cw var; [(var, linked_var)]
  | Some l => l
  end.

(** [for var in queue: ...], where the body appends to [queue]: the list
    iterator reaches the appended arcs after the ones already there.
    [queue] is the part of the list not visited yet. *)
Fixpoint ac3_loop (fuel : nat) (queue : list arc) : M Domains bool :=
  match queue with
  | [] => ret true
  | (x, y) :: rest =>
      match fuel with
      | 0 => λ d, (OutOfFuel, d)
      | S fuel' =>
          let! revised := revise x y in
          if revised : bool then
            let! s := reading (λ d, getitem d x) in
            if decide (size s = 0) then ret false
            else ac3_loop fuel'
                   (rest ++ ((λ linked_var, (linked_var, x)) <$>
                             filter (λ z, z ≠ y) (neighbors cw x)))
          else ac3_loop fuel' rest
      end
  end.

Definition ac3 (fuel : nat) (arcs : option (list arc)) : M Domains bool :=
  ac3_loop fuel (initial_queue arcs).

(** *** Assignments

    A dict from variables to words, in insertion order. *)

Definition dict_in (var : variable) (assignment : list (variable * string))
  : bool :=
  bool_decide (var ∈ assignment.*1).

Fixpoint dict_get (assignment : list (variable * string)) (var : variable)
  : option string :=
  match assignment with
  | [] => None
  | (k, w) :: rest => if decide (k = var) then Some w else dict_get rest var
  end.

(** [assignment[var]] *)
Definition dict_getitem (assignment : list (variable * string))
    (var : variable) : outcome string :=
  match dict_get assignment var with
  | Some w => Ok w
  | None => Raise KeyError
  end.

(** [assignment[var] = value]: a present key keeps its place, a new key
    goes last. *)
Fixpoint dict_setitem (var : variable) (value : string)
    (assignment : list (variable * string)) : list (variable * string) :=
  match assignment with
  | [] => [(var, value)]
  | (k, w) :: rest =>
      if decide (k = var) then (k, value) :: rest
      else (k, w) :: dict_setitem var value rest
  end.

(** *** [assignment_complete]

    The [else] branch compares an [int] with [None], which is never
    equal: it never returns. *)
Definition assignment_complete (assignment : list (variable * string))
  : bool :=
  forallb (λ var, dict_in var assignment) (variables cw).

(** *** [consistent] *)

(** The loop over [self.crossword.neighbors(var)]; [Ok false] is the
    [return False] of the method, [Ok true] the end of the loop. *)
Fixpoint consistent_links (assignment : list (variable * string))
    (var : variable) (links : list variable) : outcome bool :=
  match links with
  | [] => Ok true
  | l :: rest =>
      let* overlap := overlaps_get var l in
      if dict_in l assignment then
        let* w1 := dict_getitem assignment var in
        let* w2 := dict_getitem assignment l in
        let* cs := overlap_chars overlap w1 w2 in
        if decide (cs.1 ≠ cs.2) then Ok false
        else consistent_links assignment var rest
      else consistent_links assignment var rest
  end.

(** The loop [for var in assignment]. *)
Fixpoint consistent_vars (assignment : list (variable * string))
    (vars : list variable) : outcome bool :=
  match vars with
  | [] => Ok true
  | var :: rest =>
      let* w := dict_getitem assignment var in
      if decide (String.length w ≠ var_length var) then Ok false
      else
        let* ok := consistent_links assignment var (neighbors cw var) in
        if ok : bool then consistent_vars assignment rest else Ok false
  end.

Definition consistent (assignment : list (variable * string))
  : outcome bool :=
  let values := assignment.*2 in
  if decide (length values ≠ size (list_to_set values : gset string))
  then Ok false
  else consistent_vars assignment assignment.*1.

(** *** [order_domain_values] *)

(** The loop over [self.domains[links]]. *)
Fixpoint count_conflicts (overlap : option (nat * nat)) (values : string)
    (link_values : list string) (removed : nat) : outcome nat :=
  match link_values with
  | [] => Ok removed
  | lv :: rest =>
      let* cs := overlap_chars overlap values lv in
      count_conflicts overlap values rest
        (if decide (cs.1 ≠ cs.2) then S removed else removed)
  end.

(** The loop over [self.crossword.neighbors(var)]. *)
Fixpoint count_removed (d : Domains) (var : variable) (values : string)
    (links : list variable) (removed : nat) : outcome nat :=
  match links with
  | [] => Ok removed
  | l :: rest =>
      let* overlap := overlaps_get var l in
      let* ls := getitem d l in
      let* removed' := count_conflicts overlap values (elements ls) removed in
      count_removed d var values rest removed'
  end.

(** The loop over [self.domains[var]]: the list [sort_list]. *)
Fixpoint build_sort_list (d : Domains) (var : variable)
    (domain : list string) : outcome (list (string * nat)) :=
  match domain with
  | [] => Ok []
  | values :: rest =>
      let* removed := count_removed d var values (neighbors cw var) 0 in
      let* more := build_sort_list d var rest in
      Ok ((values, removed) :: more)
  end.

Definition order_domain_values (d : Domains) (var : variable)
    (assignment : list (variable * string)) : outcome (list string) :=
  let* s := getitem d var in
  let* sort_list := build_sort_list d var (elements s) in
  Ok (list_sort snd sort_list).*1.

(** *** [select_unassigned_variable] *)

(** The loop over [self.crossword.variables]: the list [temp_list]. *)
Fixpoint build_temp_list (d : Domains)
    (assignment : list (variable * string)) (vars : list variable)
  : outcome (list (variable * nat)) :=
  match vars with
  | [] => Ok []
  | var :: rest =>
      if dict_in var assignment then build_temp_list d assignment rest
      else
        let* s := getitem d var in
        let* more := build_temp_list d assignment rest in
        Ok ((var, size s) :: more)
  end.

Definition select_unassigned_variable (d : Domains)
    (assignment : list (variable * string)) : outcome variable :=
  let* temp_list := build_temp_list d assignment (variables cw) in
  let* best := py_min snd temp_list in
  Ok best.1.

(** *** [backtrack]

    The dict objects of a run live in a store and are named by their
    address; [assignment.copy()] allocates, [new_assignment[var] = values]
    writes.  A reference always names an object of the store; the total
    lookup [!!!] only makes the three operations total.  [calls] is ghost
    state: the number of activations of [backtrack] so far; the program
    never reads it. *)
Record Store := mkStore {
  dicts : list (list (variable * string));
  calls : nat
}.

Definition dict_read (a : nat) : M Store (list (variable * string)) :=
  λ σ, (Ok (dicts σ !!! a), σ).

Definition dict_copy (a : nat) : M Store nat :=
  λ σ, (Ok (length (dicts σ)),
        mkStore (dicts σ ++ [dicts σ !!! a]) (calls σ)).

Definition dict_store (a : nat) (var : variable) (value : string)
  : M Store unit :=
  λ σ, (Ok tt,
        mkStore (<[a := dict_setitem var value (dicts σ !!! a)]> (dicts σ))
                (calls σ)).

Definition enter_backtrack : M Store unit :=
  λ σ, (Ok tt, mkStore (dicts σ) (S (calls σ))).

(** The loop over the ordered values; [rec] is the recursive call. *)
Fixpoint try_values (rec : nat → M Store (option nat)) (assignment : nat)
    (var : variable) (candidates : list string) : M Store (option nat) :=
  match candidates with
  | [] => ret None
  | values :: rest =>
      let! new_assignment := dict_copy assignment in
      let! _ := dict_store new_assignment var values in
      let! na := dict_read new_assignment in
      let! ok := reading (λ _, consistent na) in
      if ok : bool then
        let! result := rec new_assignment in
        match result with
        | Some r => ret (Some r)
        | None => try_values rec assignment var rest
        end
      else try_values rec assignment var rest
  end.

Fixpoint backtrack (fuel : nat) (d : Domains) (assignment : nat)
  : M Store (option nat) :=
  match fuel with
  | 0 => λ σ, (OutOfFuel, σ)
  | S fuel' =>
      let! _ := enter_backtrack in
      let! a := dict_read assignment in
      if assignment_complete a then ret (Some assignment)
      else
        let! var := reading (λ _, select_unassigned_variable d a) in
        let! candidates := reading (λ _, order_domain_values d var a) in
        try_values (backtrack fuel' d) assignment var candidates
  end.

(** *** [solve] *)

(** Fuel for the AC-3 loop: every revision that changes a domain removes a
    word and appends at most one arc per neighbour. *)
Definition ac3_fuel (d : Domains) (queue : list arc) : nat :=
  S (length queue
     + sum_list_with (λ v, size (d !!! v)) (variables cw)
       * max_list_with (λ v, length (neighbors cw v)) (variables cw)).

(** The run of [solve]: its outcome, with the domains and the store it
    leaves.  [dict()] is the object at address 0; the value of
    [self.ac3()] is dropped. *)
Definition solve_run : outcome (option nat) * (Domains * Store) :=
  let σ0 := mkStore [] 0 in
  match enforce_node_consistency init_domains with
  | (Ok _, d1) =>
      match ac3 (ac3_fuel d1 (initial_queue None)) None d1 with
      | (Ok _, d2) =>
          let (out, σ) :=
            backtrack (S (length (variables cw))) d2 0 (mkStore [[]] 0) in
          (out, (d2, σ))
      | (Raise e, d2) => (Raise e, (d2, σ0))
      | (OutOfFuel, d2) => (OutOfFuel, (d2, σ0))
      end
  | (Raise e, d1) => (Raise e, (d1, σ0))
  | (OutOfFuel, d1) => (OutOfFuel, (d1, σ0))
  end.

(** What [solve] returns: the assignment, or [None]. *)
Definition solve : outcome (option (list (variable * string))) :=
  let* r := solve_run.1 in
  Ok ((λ a, dicts solve_run.2.2 !!! a) <$> r).

End CrosswordCreator.

(** ** Vocabulary of the properties *)

(** Every domain of [d'] is a subset of the same variable's domain in
    [d], and the two stores have the same keys. *)
Definition domains_le (d' d : Domains) : Prop :=
  ∀ v, option_Forall2 (⊆) (d' !! v) (d !! v).

(** The calls that filter the domains. *)
Inductive filter_call :=
| CallEnforceNodeConsistency
| CallRevise (x y : variable).

Definition run_call (cw : Crossword) (c : filter_call) (d : Domains)
  : Domains :=
  match c with
  | CallEnforceNodeConsistency => (enforce_node_consistency cw d).2
  | CallRevise x y => (revise cw x y d).2
  end.

Definition run_calls (cw : Crossword) (cs : list filter_call) (d : Domains)
  : Domains :=
  foldl (λ d c, run_call cw c d) d cs.

(** [w] and [w'] carry the same character at the overlap indices (and the
    indexing raises nothing). *)
Definition agree (overlap : option (nat * nat)) (w w' : string) : Prop :=
  ∃ c, overlap_chars overlap w w' = Ok (c, c).

(** Well-formedness of the structure, which [CrosswordCreator] takes for
    granted of the [crossword] object it is given.  For a variable [x]
    and a neighbour [y] of it: [y] is another variable, [x] is a
    neighbour of [y], the overlap of the pair is an index pair within the
    two lengths, and the overlap of [(y, x)] is the same pair swapped. *)
Definition wf_arc (cw : Crossword) (x y : variable) : bool :=
  bool_decide (y ∈ variables cw) && bool_decide (y ≠ x)
  && bool_decide (x ∈ neighbors cw y)
  && match overlaps cw x y with
     | Some (Some (a, b)) =>
         bool_decide (overlaps cw y x = Some (Some (b, a)))
         && bool_decide (a < var_length x) && bool_decide (b < var_length y)
     | _ => false
     end.

Definition wf_crossword (cw : Crossword) : bool :=
  forallb (λ x, forallb (wf_arc cw x) (neighbors cw x)) (variables cw).

(** [x] is arc consistent with [y]: every word of [x]'s domain has a word
    of [y]'s domain that agrees with it at the overlap. *)
Definition arc_consistent (cw : Crossword) (d : Domains) (x y : variable)
  : Prop :=
  ∀ overlap xs ys,
    overlaps cw x y = Some overlap → d !! x = Some xs → d !! y = Some ys →
    ∀ w, w ∈ xs → ∃ w', w' ∈ ys ∧ agree overlap w w'.

(** The invariant of the AC-3 loop: the arcs that are not in the queue
    are consistent. *)
Definition ac3_inv (cw : Crossword) (queue : list arc) (d : Domains)
  : Prop :=
  ∀ x y, x ∈ variables cw → y ∈ neighbors cw x →
         (x, y) ∈ queue ∨ arc_consistent cw d x y.

(** The measure of the AC-3 loop: the number of words left in the
    domains of the variables. *)
Definition words_left (cw : Crossword) (d : Domains) : nat :=
  sum_list_with (λ v, size (d !!! v)) (variables cw).

Definition max_degree (cw : Crossword) : nat :=
  max_list_with (λ v, length (neighbors cw v)) (variables cw).

(** The domain store is keyed by variables of the crossword. *)
Definition keyed (cw : Crossword) (d : Domains) : Prop :=
  ∀ v, is_Some (d !! v) → v ∈ variables cw.

(** *** The search on immutable assignments

    The search as the specification words it: every candidate is the
    caller's assignment extended with [var] alone, and the caller's
    assignment is what the next candidate starts from. *)
Section SearchOnValues.

Context (cw : Crossword).

Fixpoint try_values_pure
    (rec : list (variable * string)
           → outcome (option (list (variable * string))))
    (assignment : list (variable * string)) (var : variable)
    (candidates : list string)
  : outcome (option (list (variable * string))) :=
  match candidates with
  | [] => Ok None
  | values :: rest =>
      let new_assignment := dict_setitem var values assignment in
      let* ok := consistent cw new_assignment in
      if ok : bool then
        let* result := rec new_assignment in
        match result with
        | Some r => Ok (Some r)
        | None => try_values_pure rec assignment var rest
        end
      else try_values_pure rec assignment var rest
  end.

Fixpoint backtrack_pure (fuel : nat) (d : Domains)
    (assignment : list (variable * string))
  : outcome (option (list (variable * string))) :=
  match fuel with
  | 0 => OutOfFuel
  | S fuel' =>
      if assignment_complete cw assignment then Ok (Some assignment)
      else
        let* var := select_unassigned_variable cw d assignment in
        let* candidates := order_domain_values cw d var assignment in
        try_values_pure (backtrack_pure fuel' d) assignment var candidates
  end.

End SearchOnValues.

(** The outcome [o] of a search over the store [σ'] is the outcome [p] of
    the search on immutable assignments: the same failure, or a reference
    to a dict object that holds the assignment found. *)
Definition result_matches (σ' : Store) (o : outcome (option nat))
    (p : outcome (option (list (variable * string)))) : Prop :=
  match o, p with
  | Ok (Some r), Ok (Some R) => dicts σ' !! r = Some R
  | Ok None, Ok None => True
  | Raise e, Raise e' => e = e'
  | OutOfFuel, OutOfFuel => True
  | _, _ => False
  end.

(** What a search does to the store: the dict objects that exist keep
    their contents, the count of activations does not go down, and the
    outcome is that of the search on immutable assignments. *)
Definition refines (run : nat → M Store (option nat))
    (pure : list (variable * string)
            → outcome (option (list (variable * string)))) : Prop :=
  ∀ σ a A, dicts σ !! a = Some A →
    dicts σ `prefix_of` dicts (run a σ).2
    ∧ calls σ ≤ calls (run a σ).2
    ∧ result_matches (run a σ).2 (run a σ).1 (pure A).

(** A solution of the crossword: every variable has a word, the words
    of different variables differ, neighbours agree at their overlap, and
    every word has the length of its variable. *)
Record solution (cw : Crossword) (a : list (variable * string)) : Prop := {
  solution_complete :
    ∀ v, v ∈ variables cw → is_Some (dict_get a v);
  solution_distinct :
    ∀ v1 v2 w1 w2, v1 ≠ v2 →
      dict_get a v1 = Some w1 → dict_get a v2 = Some w2 → w1 ≠ w2;
  solution_overlaps :
    ∀ x y wx wy, y ∈ neighbors cw x →
      dict_get a x = Some wx → dict_get a y = Some wy →
      ∃ ix iy c, overlaps cw x y = Some (Some (ix, iy))
               ∧ str_index wx ix = Ok c ∧ str_index wy iy = Ok c;
  solution_lengths :
    ∀ v w, dict_get a v = Some w → String.length w = var_length v
}.

(** A check that [a] is a solution with words of the word list. *)
Definition is_solution (cw : Crossword) (a : list (variable * string))
  : bool :=
  forallb (λ v, bool_decide (is_Some (dict_get a v))) (variables cw)
  && bool_decide (NoDup a.*1) && bool_decide (NoDup a.*2)
  && forallb
       (λ '(x, wx),
          bool_decide (String.length wx = var_length x)
          && bool_decide (wx ∈ words cw)
          && forallb
               (λ y, match dict_get a y with
                     | None => true
                     | Some wy =>
                         match overlaps cw x y with
                         | Some (Some (ix, iy)) =>
                             match String.get ix wx, String.get iy wy with
                             | Some c1, Some c2 => bool_decide (c1 = c2)
                             | _, _ => false
                             end
                         | _ => false
                         end
                     end)
               (neighbors cw x))
       a.

(** The words of the assignment come from the word list. *)
Definition from_word_list (cw : Crossword) (a : list (variable * string))
  : Prop :=
  ∀ v w, dict_get a v = Some w → w ∈ words cw.

(** [w] and [w'] carry different characters at the overlap indices: [w]
    rules [w'] out. *)
Definition disagree (overlap : option (nat * nat)) (w w' : string) : Prop :=
  ∃ c1 c2, overlap_chars overlap w w' = Ok (c1, c2) ∧ c1 ≠ c2.

Global Instance disagree_dec overlap w w' : Decision (disagree overlap w w').
Proof.
  unfold disagree.
  destruct (overlap_chars overlap w w') as [[c1 c2]|e|] eqn:Hcs.
  - destruct (decide (c1 = c2)) as [Heq|Hne].
    + right. intros (? & ? & [= <- <-] & ?). done.
    + left. eauto.
  - right. intros (? & ? & ? & ?). done.
  - right. intros (? & ? & ? & ?). done.
Defined.

(** The index pair stored for [(x, y)], if any. *)
Definition overlap_of (cw : Crossword) (x y : variable)
  : option (nat * nat) :=
  mjoin (overlaps cw x y).

(** The number of words that [value], put in [var], rules out of the
    domains of the variables [links]. *)
Definition eliminated (cw : Crossword) (d : Domains) (var : variable)
    (links : list variable) (value : string) : nat :=
  sum_list_with
    (λ l, length (filter (disagree (overlap_of cw var l) value)
                         (elements (d !!! l))))
    links.

(** The neighbours of [var] that [assignment] leaves without a word. *)
Definition unassigned_neighbors (cw : Crossword)
    (assignment : list (variable * string)) (var : variable)
  : list variable :=
  filter (λ l, dict_get assignment l = None) (neighbors cw var).

(** Every variable has a domain. *)
Definition covers (cw : Crossword) (d : Domains) : Prop :=
  ∀ v, v ∈ variables cw → is_Some (d !! v).

(** Every word of a domain has the length of the variable. *)
Definition node_consistent (d : Domains) : Prop :=
  ∀ v xs w, d !! v = Some xs → w ∈ xs → String.length w = var_length v.

(** The domains hold the words that [s] gives to the variables. *)
Definition contains (cw : Crossword) (d : Domains)
    (s : list (variable * string)) : Prop :=
  ∀ v w, v ∈ variables cw → dict_get s v = Some w →
         ∃ xs, d !! v = Some xs ∧ w ∈ xs.

(** The assignment gives words to variables only, each from the domain
    of the variable, and no key occurs twice. *)
Definition domain_valued (cw : Crossword) (d : Domains)
    (a : list (variable * string)) : Prop :=
  NoDup a.*1
  ∧ ∀ v w, dict_get a v = Some w →
           v ∈ variables cw ∧ ∃ xs, d !! v = Some xs ∧ w ∈ xs.

(** The variables without a word in [a]. *)
Definition unassigned (cw : Crossword) (a : list (variable * string))
  : list variable :=
  filter (λ v, dict_get a v = None) (variables cw).

(** [s] gives the words that [a] gives. *)
Definition extends_to (a s : list (variable * string)) : Prop :=
  ∀ v w, dict_get a v = Some w → dict_get s v = Some w.

(** The arcs of the queue join a variable to a neighbour of it. *)
Definition arcs_ok (cw : Crossword) (queue : list arc) : Prop :=
  ∀ x y, (x, y) ∈ queue → x ∈ variables cw ∧ y ∈ neighbors cw x.

(** What [self.ac3()] returns inside [solve()]. *)
Definition ac3_phase (cw : Crossword) : outcome bool :=
  match enforce_node_consistency cw (init_domains cw) with
  | (Ok _, d1) => (ac3 cw (ac3_fuel cw d1 (initial_queue cw None)) None d1).1
  | (Raise e, _) => Raise e
  | (OutOfFuel, _) => OutOfFuel
  end.

(** The number of activations of [backtrack] in a run of [solve()]. *)
Definition backtrack_calls (cw : Crossword) : nat :=
  calls (solve_run cw).2.2.

(** ** Sample crosswords *)

Module Samples.

(** The neighbours of a variable: the variables other than it whose
    overlap with it is an index pair. *)
Definition neighbors_of (vars : list variable)
    (ov : variable → variable → option (option (nat * nat)))
    (var : variable) : list variable :=
  filter (λ v, v ≠ var ∧ is_Some (mjoin (ov v var))) vars.

(** A 3x2 grid with open cells (0,0), (0,1), (1,0), (2,0): one slot across
    of length 2 and one down of length 3, crossing in their first cells. *)
Definition x2 := mkVariable 0 0 ACROSS 2.
Definition y3 := mkVariable 0 0 DOWN 3.

Definition ov_cross (v1 v2 : variable) : option (option (nat * nat)) :=
  if decide (v1 = x2 ∧ v2 = y3) then Some (Some (0, 0))
  else if decide (v1 = y3 ∧ v2 = x2) then Some (Some (0, 0))
  else None.

Definition cross (ws : gset string) : Crossword :=
  mkCrossword [x2; y3] ws ov_cross (neighbors_of [x2; y3] ov_cross).

(** A 3x5 grid whose middle row is open, with the cells (0,1), (0,3) and
    (2,3) open above and below it: one slot across of length 5, crossed
    by a slot down of length 2 and a slot down of length 3.  [vars] is the
    set of the three variables in its iteration order. *)
Definition h5 := mkVariable 1 0 ACROSS 5.
Definition u2 := mkVariable 0 1 DOWN 2.
Definition u3 := mkVariable 0 3 DOWN 3.

Definition ov_comb (v1 v2 : variable) : option (option (nat * nat)) :=
  if decide (v1 = v2) then None
  else if decide (v1 = h5 ∧ v2 = u2) then Some (Some (1, 1))
  else if decide (v1 = u2 ∧ v2 = h5) then Some (Some (1, 1))
  else if decide (v1 = h5 ∧ v2 = u3) then Some (Some (3, 1))
  else if decide (v1 = u3 ∧ v2 = h5) then Some (Some (1, 3))
  else if decide (v1 ∈ [h5; u2; u3] ∧ v2 ∈ [h5; u2; u3]) then Some None
  else None.

Definition comb (vars : list variable) (ws : gset string) : Crossword :=
  mkCrossword vars ws ov_comb (neighbors_of vars ov_comb).

Definition comb_words : gset string :=
  {[ "AP"; "BP"; "CP"; "DQ"; "AEA"; "AFA"; "BFB"; "AGA";
     "APAEA"; "AQAFA"; "APAGA"; "AQAGA" ]}.

(** The domains of that crossword once node and arc consistency are
    enforced: the words of each length, all of them supported. *)
Definition comb_domains : Domains :=
  {[ u2 := {[ "AP"; "BP"; "CP"; "DQ" ]};
     h5 := {[ "APAEA"; "AQAFA"; "APAGA"; "AQAGA" ]};
     u3 := {[ "AEA"; "AFA"; "BFB"; "AGA" ]} ]}.

End Samples.

(** A crossword with one slot, of length 3, and no crossing. *)
Module Lonely.
Definition v3 := mkVariable 0 0 ACROSS 3.
Definition cw (ws : gset string) : Crossword :=
  mkCrossword [v3] ws (λ _ _, None) (λ _, []).
End Lonely.

(** ** Rendering: [letter_grid] and [print]

    The grid side of [self.crossword], as far as the two methods read it:
    [crossword.height], [crossword.width] and the nested list
    [crossword.structure] ([True] for an open cell). *)
Record Board := mkBoard {
  height : nat;
  width : nat;
  structure : list (list bool)
}.

(** A grid of letters: a list of rows, [None] where nothing is written. *)
Abbreviation Letters := (list (list (option ascii))).

(** [l[i]] on a list, for a non-negative index. *)
Definition list_index {A} (l : list A) (i : nat) : outcome A :=
  match l !! i with
  | Some a => Ok a
  | None => Raise IndexError
  end.

(** [letters[i][j] = c]: the row object [letters[i]] is updated in place;
    the rows are distinct objects. *)
Definition letters_set (i j : nat) (c : ascii) (letters : Letters)
  : outcome Letters :=
  let* row := list_index letters i in
  if decide (j < length row)
  then Ok (<[i := <[j := Some c]> row]> letters)
  else Raise IndexError.

(** The cell of the [k]-th letter of a variable. *)
Definition cell_of (variable : variable) (k : nat) : nat * nat :=
  let direction := var_direction variable in
  (var_i variable + (if decide (direction = DOWN) then k else 0),
   var_j variable + (if decide (direction = ACROSS) then k else 0)).

(** The loop [for k in range(len(word))]. *)
Fixpoint letter_grid_word (variable : variable) (word : string)
    (ks : list nat) (letters : Letters) : outcome Letters :=
  match ks with
  | [] => Ok letters
  | k :: rest =>
      let '(i, j) := cell_of variable k in
      let* c := str_index word k in
      let* letters' := letters_set i j c letters in
      letter_grid_word variable word rest letters'
  end.

(** The loop [for variable, word in assignment.items()]. *)
Fixpoint letter_grid_items (items : list (variable * string))
    (letters : Letters) : outcome Letters :=
  match items with
  | [] => Ok letters
  | (variable, word) :: rest =>
      let* letters' :=
        letter_grid_word variable word (seq 0 (String.length word)) letters in
      letter_grid_items rest letters'
  end.

Definition letter_grid (board : Board)
    (assignment : list (variable * string)) : outcome Letters :=
  letter_grid_items assignment
    (replicate (height board) (replicate (width board) None)).

(** A character written to the terminal: a character of a word, a space
    or a newline, or the full block that [print] draws for a blocked
    cell. *)
Inductive pychar := Chr (c : ascii) | FullBlock.

(** [print(s, end="")]: the terminal is the list of characters written so
    far. *)
Definition stdout_write (s : list pychar) : M (list pychar) unit :=
  λ out, (Ok tt, out ++ s).

Definition print_cell (board : Board) (letters : Letters) (i j : nat)
  : M (list pychar) unit :=
  let! open := reading (λ _,
      let* row := list_index (structure board) i in
      list_index row j) in
  if open : bool then
    let! letter := reading (λ _,
        let* row := list_index letters i in
        list_index row j) in
    stdout_write [match letter with
                  | Some c => Chr c
                  | None => Chr " "%char
                  end]
  else stdout_write [FullBlock].

Definition print_row (board : Board) (letters : Letters) (i : nat)
  : M (list pychar) unit :=
  let! _ := for_each (print_cell board letters i) (seq 0 (width board)) in
  stdout_write [Chr "010"%char].

Definition print (board : Board) (assignment : list (variable * string))
  : M (list pychar) unit :=
  let! letters := reading (λ _, letter_grid board assignment) in
  for_each (print_row board letters) (seq 0 (height board)).

(** *** Vocabulary for the rendering *)

(** The letter that the entry [(variable, word)] puts in the cell
    [(i, j)], if it covers the cell. *)
Definition entry_letter (e : variable * string) (i j : nat) : option ascii :=
  let '(variable, word) := e in
  match var_direction variable with
  | ACROSS =>
      if decide (i = var_i variable ∧ var_j variable ≤ j)
      then String.get (j - var_j variable) word else None
  | DOWN =>
      if decide (j = var_j variable ∧ var_i variable ≤ i)
      then String.get (i - var_i variable) word else None
  end.

(** The letter of the last entry of the assignment that covers the cell. *)
Definition painted (assignment : list (variable * string)) (i j : nat)
  : option ascii :=
  foldl (λ acc e, match entry_letter e i j with
                  | Some c => Some c
                  | None => acc
                  end) None assignment.

(** The word of the entry lies within the grid. *)
Definition fits (board : Board) (e : variable * string) : Prop :=
  let '(variable, word) := e in
  word = "" ∨
  match var_direction variable with
  | ACROSS => var_i variable < height board
              ∧ var_j variable + String.length word ≤ width board
  | DOWN => var_i variable + String.length word ≤ height board
            ∧ var_j variable < width board
  end.

Global Instance fits_dec board e : Decision (fits board e).
Proof. destruct e as [v w]. unfold fits. destruct (var_direction v); apply _. Defined.

(** What [print] writes for the cell [(i, j)]. *)
Definition glyph (board : Board) (assignment : list (variable * string))
    (i j : nat) : pychar :=
  match structure board !! i ≫= (.!! j) with
  | Some true =>
      match painted assignment i j with
      | Some c => Chr c
      | None => Chr " "%char
      end
  | _ => FullBlock
  end.

(** [letters[i][j]] when both indices are in range. *)
Definition letter_at (letters : Letters) (i j : nat)
  : option (option ascii) :=
  letters !! i ≫= (.!! j).

(** The index of the letter that a variable puts in the cell [(i, j)]. *)
Definition index_of (variable : variable) (i j : nat) : option nat :=
  match var_direction variable with
  | ACROSS =>
      if decide (i = var_i variable ∧ var_j variable ≤ j)
      then Some (j - var_j variable) else None
  | DOWN =>
      if decide (j = var_j variable ∧ var_i variable ≤ i)
      then Some (i - var_i variable) else None
  end.

(** A grid of [h] rows of [w] cells. *)
Definition dims (h w : nat) (letters : Letters) : Prop :=
  length letters = h ∧ Forall (λ row, length row = w) letters.

(** [crossword.structure] has a cell for every position of the grid. *)
Definition well_shaped (board : Board) : Prop :=
  Forall (λ i, Forall (λ j, is_Some (structure board !! i ≫= (.!! j)))
                      (seq 0 (width board)))
         (seq 0 (height board)).

Global Instance well_shaped_dec board : Decision (well_shaped board).
Proof. unfold well_shaped. apply _. Defined.

(** What [print] writes for an assignment: the rows from the top, each
    followed by a newline. *)
Definition rendering (board : Board) (assignment : list (variable * string))
  : list pychar :=
  i ← seq 0 (height board);
  (glyph board assignment i <$> seq 0 (width board)) ++ [Chr "010"%char].

(** A small board for the crossing of [Samples.x2] and [Samples.y3]. *)
Module Boards.
Definition cross_board : Board :=
  mkBoard 3 2 [[true; true]; [true; false]; [true; false]].
End Boards.

(** ** Checks of the conditions on a domain store *)

Global Instance covers_dec cw (d : Domains) : Decision (covers cw d).
Proof.
  refine (cast_if (decide (Forall (λ v, is_Some (d !! v)) (variables cw))));
    unfold covers; by rewrite Forall_forall in *.
Defined.

Global Instance keyed_dec cw (d : Domains) : Decision (keyed cw d).
Proof.
  refine (cast_if (decide (map_Forall (λ v _, v ∈ variables cw) d)));
    unfold keyed.
  - intros v [xs Hxs]. exact (m v xs Hxs).
  - intros Hk. apply n. intros v xs Hxs. apply Hk. by exists xs.
Defined.

Global Instance node_consistent_dec (d : Domains)
  : Decision (node_consistent d).
Proof.
  refine (cast_if (decide (map_Forall
            (λ v xs, set_Forall (λ w, String.length w = var_length v) xs)
            d)));
    unfold node_consistent.
  - intros v xs w Hxs Hw. exact (m v xs Hxs w Hw).
  - intros Hn. apply n. intros v xs Hxs w Hw. by eapply Hn.
Defined.

Global Instance contains_dec cw (d : Domains) s : Decision (contains cw d s).
Proof.
  refine (cast_if (decide (Forall
            (λ v, default true
                    ((λ w, bool_decide (w ∈ d !!! v)) <$> dict_get s v)
                  = true)
            (variables cw))));
    unfold contains.
  - intros v w Hv Hw. rewrite Forall_forall in f.
    specialize (f v Hv). rewrite Hw in f. simpl in f.
    apply bool_decide_eq_true in f. rewrite lookup_total_alt in f.
    destruct (d !! v) as [xs|]; [eauto|]. by apply elem_of_empty in f.
  - intros Hc. apply n, Forall_forall. intros v Hv.
    destruct (dict_get s v) as [w|] eqn:Hw; [|done]. simpl.
    destruct (Hc v w Hv Hw) as (xs & Hxs & Hin).
    apply bool_decide_eq_true. by rewrite lookup_total_alt, Hxs.
Defined.

Global Instance arcs_ok_dec cw queue : Decision (arcs_ok cw queue).
Proof.
  refine (cast_if (decide (Forall
            (λ a : arc, a.1 ∈ variables cw ∧ a.2 ∈ neighbors cw a.1) queue)));
    unfold arcs_ok.
  - intros x y Hin. rewrite Forall_forall in f. exact (f (x, y) Hin).
  - intros Hq. apply n, Forall_forall. intros [x y] Hin. by apply Hq.
Defined.

(** Sample runs on the crossing of [Samples.x2] and [Samples.y3]. *)
Module Runs.
Import Samples.
Definition cross3 : Crossword := cross {["AB"; "AXE"; "CAT"]}.
Definition cross3_domains : Domains :=
  {[x2 := {["AB"]}; y3 := {["AXE"; "CAT"]}]}.
Definition cross3_revised : Domains :=
  {[x2 := {["AB"]}; y3 := {["AXE"]}]}.
Definition cross3_solution : list (variable * string) :=
  [(x2, "AB"); (y3, "AXE")].
(** A crossword without slots. *)
Definition no_slots : Crossword :=
  mkCrossword [] {["AB"]} (λ _ _, None) (λ _, []).
End Runs.

(** * Properties *)

(** ** Monadic plumbing *)

Lemma obind_Ok {A B} (m : outcome A) (k : A → outcome B) b :
  obind m k = Ok b → ∃ a, m = Ok a ∧ k a = Ok b.
Proof. destruct m; simpl; intros; eauto; discriminate. Qed.

(** Closed decidable statements are settled by evaluation. *)
Ltac evaluate := apply (bool_decide_unpack _); vm_compute; exact I.

Lemma getitem_Ok {K V} `{Countable K} (d : gmap K V) k v :
  getitem d k = Ok v ↔ d !! k = Some v.
Proof. unfold getitem. destruct (d !! k); split; congruence. Qed.

(** ** Removing words from a domain *)

Section Removal.

Context (cw : Crossword).

(** The loop [for w in remove_words: self.domains[x].remove(w)] never
    raises when the words were collected, without repetition, from the
    set itself. *)
Lemma for_each_domain_remove x (ws : list string) (d : Domains) s :
  d !! x = Some s → NoDup ws → (∀ w, w ∈ ws → w ∈ s) →
  for_each (domain_remove x) ws d
  = (Ok tt, <[x := s ∖ list_to_set ws]> d).
Proof.
  revert d s. induction ws as [|w ws IH]; intros d s Hx Hnd Hin; simpl.
  - unfold ret. f_equal. rewrite difference_empty_L. by rewrite insert_id.
  - apply NoDup_cons in Hnd as [Hw Hnd].
    unfold sbind, domain_remove at 1, getitem, set_remove. rewrite Hx.
    rewrite decide_True by (apply Hin; left).
    rewrite (IH _ (s ∖ {[w]})).
    + rewrite insert_insert_eq. do 2 f_equal. set_solver.
    + by rewrite lookup_insert_eq.
    + done.
    + intros w' Hw'. apply elem_of_difference. split.
      * apply Hin. by right.
      * intros ->%elem_of_singleton. done.
Qed.

Lemma for_each_domain_remove_shrinks x (ws : list string) (d : Domains) :
  ∀ v, option_Forall2 (⊆) ((for_each (domain_remove x) ws d).2 !! v) (d !! v).
Proof.
  revert d. induction ws as [|w ws IH]; intros d v; simpl.
  - destruct (d !! v); by constructor.
  - unfold sbind, domain_remove at 1, getitem, set_remove.
    destruct (d !! x) as [s|] eqn:Hx; simpl.
    2:{ destruct (d !! v); by constructor. }
    case_decide; simpl.
    2:{ destruct (d !! v); by constructor. }
    specialize (IH (<[x := s ∖ {[w]}]> d) v).
    destruct (for_each _ ws _) as [[[]|e|] d']; simpl in *.
    all: destruct (decide (x = v)) as [->|Hne];
      [rewrite lookup_insert_eq in IH; rewrite Hx;
       inversion IH; subst; constructor; set_solver
      |by rewrite lookup_insert_ne in IH].
Qed.

Lemma enforce_var_Some var (d : Domains) s :
  d !! var = Some s →
  enforce_var var d
  = (Ok tt, <[var := filter (λ w, String.length w = var_length var) s]> d).
Proof.
  intros Hx. unfold enforce_var, sbind, reading, getitem. rewrite Hx.
  rewrite (for_each_domain_remove _ _ _ s); [|done|..].
  - do 2 f_equal. apply set_eq. intros w.
    rewrite elem_of_difference, elem_of_list_to_set, list_elem_of_filter,
      elem_of_elements, elem_of_filter.
    destruct (decide (String.length w = var_length var)); naive_solver.
  - apply NoDup_filter, NoDup_elements.
  - intros w [_ Hw]%list_elem_of_filter. by apply elem_of_elements.
Qed.

Lemma enforce_var_None var (d : Domains) :
  d !! var = None → enforce_var var d = (Raise KeyError, d).
Proof.
  intros Hx. unfold enforce_var, sbind, reading, getitem. by rewrite Hx.
Qed.

End Removal.

(** ** Domains only shrink *)

Lemma domains_le_refl (d : Domains) : domains_le d d.
Proof. intros v. destruct (d !! v); by constructor. Qed.

Lemma domains_le_trans (d1 d2 d3 : Domains) :
  domains_le d1 d2 → domains_le d2 d3 → domains_le d1 d3.
Proof.
  intros H12 H23 v. specialize (H12 v). specialize (H23 v).
  destruct H12; inversion H23; subst; constructor. set_solver.
Qed.

Lemma domains_le_lookup (d' d : Domains) v s' :
  domains_le d' d → d' !! v = Some s' → ∃ s, d !! v = Some s ∧ s' ⊆ s.
Proof. intros Hle Hv. specialize (Hle v). rewrite Hv in Hle. inversion Hle; eauto. Qed.

Lemma domains_le_lookup_r (d' d : Domains) v s :
  domains_le d' d → d !! v = Some s → ∃ s', d' !! v = Some s' ∧ s' ⊆ s.
Proof. intros Hle Hv. specialize (Hle v). rewrite Hv in Hle. inversion Hle; eauto. Qed.

Lemma domains_le_insert (d : Domains) x s s' :
  d !! x = Some s → s' ⊆ s → domains_le (<[x := s']> d) d.
Proof.
  intros Hx Hs v. destruct (decide (x = v)) as [->|Hne].
  - rewrite lookup_insert_eq, Hx. by constructor.
  - rewrite lookup_insert_ne by done. apply domains_le_refl.
Qed.

Section Shrinking.

Context (cw : Crossword).

Lemma for_each_enforce_var_shrinks vars (d : Domains) :
  domains_le (for_each enforce_var vars d).2 d.
Proof.
  revert d. induction vars as [|var vars IH]; intros d; simpl.
  - apply domains_le_refl.
  - unfold sbind. destruct (d !! var) as [s|] eqn:Hx.
    + rewrite (enforce_var_Some _ _ s Hx).
      eapply domains_le_trans; [apply IH|].
      apply (domains_le_insert _ _ s); [done|]. set_solver.
    + rewrite (enforce_var_None _ _ Hx). apply domains_le_refl.
Qed.

Lemma enforce_node_consistency_shrinks (d : Domains) :
  domains_le (enforce_node_consistency cw d).2 d.
Proof. apply for_each_enforce_var_shrinks. Qed.

Lemma revise_shrinks x y (d : Domains) :
  domains_le (revise cw x y d).2 d.
Proof.
  unfold revise, sbind, reading.
  destruct (obind _ _) as [rw|e|]; simpl; [|apply domains_le_refl..].
  pose proof (for_each_domain_remove_shrinks x rw d) as Hs.
  destruct (for_each _ rw d) as [[[]|e|] d']; exact Hs.
Qed.

Lemma run_call_shrinks c (d : Domains) : domains_le (run_call cw c d) d.
Proof.
  destruct c; [apply enforce_node_consistency_shrinks|apply revise_shrinks].
Qed.

Lemma run_calls_shrinks cs (d : Domains) : domains_le (run_calls cw cs d) d.
Proof.
  revert d. induction cs as [|c cs IH]; intros d; simpl.
  - apply domains_le_refl.
  - eapply domains_le_trans; [apply IH|apply run_call_shrinks].
Qed.

Lemma init_domains_lookup v :
  init_domains cw !! v
  = if decide (v ∈ variables cw) then Some (words cw) else None.
Proof.
  unfold init_domains. case_decide as Hv.
  - apply elem_of_list_to_map_1'.
    + intros s (v' & [= -> ->] & _)%list_elem_of_fmap. done.
    + apply list_elem_of_fmap. eauto.
  - apply not_elem_of_list_to_map_1. rewrite <- list_fmap_compose.
    intros (v' & -> & Hv')%list_elem_of_fmap. done.
Qed.

End Shrinking.

(** C7 — domains only shrink: after [enforce_node_consistency()] and after
    [revise(x, y)], for any [x] and [y], every variable's domain is a
    subset of what it was before the call and no key is gained or lost;
    along any sequence of such calls started from the domains of
    [__init__], the domains after a longer prefix are subsets of the
    domains after a shorter one, and every domain is a subset of the word
    list. *)
Theorem domains_only_shrink (cw : Crossword) :
  (∀ d : Domains, domains_le (enforce_node_consistency cw d).2 d)
  ∧ (∀ x y (d : Domains), domains_le (revise cw x y d).2 d)
  ∧ (∀ cs cs' : list filter_call,
       domains_le (run_calls cw (cs ++ cs') (init_domains cw))
                  (run_calls cw cs (init_domains cw)))
  ∧ (∀ (cs : list filter_call) v s,
       run_calls cw cs (init_domains cw) !! v = Some s →
       v ∈ variables cw ∧ s ⊆ words cw).
Proof.
  split; [apply enforce_node_consistency_shrinks|].
  split; [apply revise_shrinks|]. split.
  - intros cs cs'. unfold run_calls. rewrite foldl_app. apply run_calls_shrinks.
  - intros cs v s Hv.
    destruct (domains_le_lookup _ _ _ _ (run_calls_shrinks cw cs _) Hv)
      as (s0 & Hs0 & Hsub).
    rewrite init_domains_lookup in Hs0. case_decide; [|done].
    by injection Hs0 as <-.
Qed.

(** ** What [revise] computes *)

Lemma revise_scan_y_Ok overlap w ys rem r :
  revise_scan_y overlap w ys rem = Ok r →
  (∀ w', w' ∈ ys → ∃ cs, overlap_chars overlap w w' = Ok cs)
  ∧ (r = false ↔ rem = false ∨ ∃ w', w' ∈ ys ∧ agree overlap w w').
Proof.
  revert rem. induction ys as [|w0 ys IH]; intros rem H; simpl in H.
  - injection H as ->. split; [by intros ? ?%elem_of_nil|].
    split; [by left|]. intros [?|(? & ?%elem_of_nil & _)]; done.
  - apply obind_Ok in H as ([c1 c2] & Hcs & H). simpl in H.
    apply IH in H as [Hall Hr]. split.
    + intros w' [->|Hw']%elem_of_cons; eauto.
    + rewrite Hr. split.
      * intros [Hrem|(w' & Hw' & Hag)].
        -- case_decide as Hc; [|by left]. subst c2.
           right. exists w0. split; [left|]. by exists c1.
        -- right. exists w'. split; [by right|done].
      * intros [->|(w' & [->|Hw']%elem_of_cons & Hag)].
        -- left. by case_decide.
        -- left. destruct Hag as [c Hc]. rewrite Hc in Hcs.
           injection Hcs as -> ->. by rewrite decide_True.
        -- right. eauto.
Qed.

Lemma revise_scan_x_Ok overlap (d : Domains) y l rw :
  revise_scan_x overlap d y l = Ok rw →
  sublist rw l
  ∧ ∀ w, w ∈ l →
      ∃ ys, d !! y = Some ys
        ∧ (∀ w', w' ∈ ys → ∃ cs, overlap_chars overlap w w' = Ok cs)
        ∧ (w ∉ rw ↔ ∃ w', w' ∈ ys ∧ agree overlap w w').
Proof.
  revert rw. induction l as [|w0 l IH]; intros rw H; simpl in H.
  - injection H as <-. split; [done|]. by intros ? ?%elem_of_nil.
  - apply obind_Ok in H as (ys & Hys%getitem_Ok & H).
    apply obind_Ok in H as (r & Hscan & H).
    apply obind_Ok in H as (more & Hmore & H). injection H as <-.
    destruct (IH _ Hmore) as [Hsub Hrest].
    apply revise_scan_y_Ok in Hscan as [Hidx Hr].
    setoid_rewrite elem_of_elements in Hidx.
    setoid_rewrite elem_of_elements in Hr.
    assert (Hhead : ∀ w', w' ∈ more → w' ∈ l)
      by (intros w' Hw'; by eapply elem_of_sublist).
    split.
    + destruct r; [by constructor|by apply sublist_cons].
    + intros w Hw. exists ys. split; [done|].
      destruct (decide (w = w0)) as [->|Hne].
      * split; [done|]. destruct r.
        -- split; [intros Hn; exfalso; apply Hn; left|].
           intros Hex. assert (true = false); [|done].
           apply Hr. by right.
        -- split; [intros _|].
           ++ destruct Hr as [Hr _]. by destruct Hr as [|?].
           ++ intros Hex Hin.
              destruct (decide (w0 ∈ l)) as [Hl|Hl]; [|by apply Hl, Hhead].
              destruct (Hrest _ Hl) as (ys' & Hys' & _ & Hiff).
              rewrite Hys in Hys'. injection Hys' as <-.
              by apply Hiff in Hex.
      * apply elem_of_cons in Hw as [?|Hw]; [done|].
        destruct (Hrest _ Hw) as (ys' & Hys' & Hidx' & Hiff).
        rewrite Hys in Hys'. injection Hys' as <-.
        split; [done|]. rewrite <- Hiff.
        destruct r; [|done]. rewrite not_elem_of_cons. naive_solver.
Qed.

Lemma overlap_chars_fuel overlap w w' :
  overlap_chars overlap w w' ≠ OutOfFuel.
Proof.
  unfold overlap_chars, str_index. destruct overlap as [[a b]|]; [|done].
  destruct (String.get a w); [|done]. simpl. by destruct (String.get b w').
Qed.

Lemma revise_scan_y_fuel overlap w ys rem :
  revise_scan_y overlap w ys rem ≠ OutOfFuel.
Proof.
  revert rem. induction ys as [|w' ys IH]; intros rem; simpl; [done|].
  pose proof (overlap_chars_fuel overlap w w').
  destruct (overlap_chars overlap w w'); simpl; [apply IH|done..].
Qed.

Lemma revise_scan_x_fuel overlap (d : Domains) y l :
  revise_scan_x overlap d y l ≠ OutOfFuel.
Proof.
  induction l as [|w l IH]; simpl; [done|].
  unfold getitem. destruct (d !! y) as [ys|]; simpl; [|done].
  pose proof (revise_scan_y_fuel overlap w (elements ys) true).
  destruct (revise_scan_y _ _ _ _); simpl; [|done..].
  by destruct (revise_scan_x _ _ _ _).
Qed.

(** [revise] reads [d] only at [y] while scanning. *)
Lemma revise_scan_x_ext overlap (d d' : Domains) y l :
  d' !! y = d !! y →
  revise_scan_x overlap d' y l = revise_scan_x overlap d y l.
Proof.
  intros Hy. induction l as [|w l IH]; simpl; [done|].
  unfold getitem. by rewrite Hy, IH.
Qed.

Lemma revise_scan_x_nil overlap (d : Domains) y l ys :
  d !! y = Some ys →
  (∀ w, w ∈ l → revise_scan_y overlap w (elements ys) true = Ok false) →
  revise_scan_x overlap d y l = Ok [].
Proof.
  intros Hy. induction l as [|w l IH]; intros Hall; simpl; [done|].
  unfold getitem. rewrite Hy. simpl.
  rewrite Hall by left. simpl. rewrite IH; [done|].
  intros w' Hw'. apply Hall. by right.
Qed.

Section Revise.

Context (cw : Crossword).

Lemma revise_Ok x y (d d' : Domains) b :
  revise cw x y d = (Ok b, d') →
  ∃ overlap xs rw,
    overlaps cw x y = Some overlap ∧ d !! x = Some xs
    ∧ revise_scan_x overlap d y (elements xs) = Ok rw
    ∧ d' = <[x := xs ∖ list_to_set rw]> d
    ∧ b = (match rw with [] => false | _ => true end).
Proof.
  unfold revise, sbind, reading, overlaps_get. intros H.
  destruct (overlaps cw x y) as [overlap|] eqn:Hov; [|done]. simpl in H.
  destruct (getitem d x) as [xs| |] eqn:Hx; [|done..]. simpl in H.
  apply getitem_Ok in Hx.
  destruct (revise_scan_x overlap d y (elements xs)) as [rw| |] eqn:Hscan;
    [|done..].
  exists overlap, xs, rw.
  destruct (revise_scan_x_Ok _ _ _ _ _ Hscan) as [Hsub _].
  rewrite (for_each_domain_remove _ _ _ xs) in H; [|done|..].
  - unfold ret in H. injection H as <- <-. by repeat split.
  - apply (sublist_NoDup _ (elements xs)); [apply NoDup_elements|done].
  - intros w Hw. apply elem_of_elements. by eapply elem_of_sublist.
Qed.

Lemma revise_not_Ok x y (d d' : Domains) o :
  revise cw x y d = (o, d') → (∀ b, o ≠ Ok b) →
  d' = d ∧ ∃ e, o = Raise e.
Proof.
  unfold revise, sbind, reading. intros H Hno.
  destruct (obind _ _) as [rw|e|] eqn:Hscan; simpl in H.
  - apply obind_Ok in Hscan as (overlap & Hov & Hscan).
    apply obind_Ok in Hscan as (xs & Hx%getitem_Ok & Hscan).
    destruct (revise_scan_x_Ok _ _ _ _ _ Hscan) as [Hsub _].
    rewrite (for_each_domain_remove _ _ _ xs) in H; [|done|..].
    + unfold ret in H. injection H as <- <-. exfalso. by eapply Hno.
    + apply (sublist_NoDup _ (elements xs)); [apply NoDup_elements|done].
    + intros w Hw. apply elem_of_elements. by eapply elem_of_sublist.
  - injection H as <- <-. eauto.
  - exfalso. unfold overlaps_get in Hscan.
    destruct (overlaps cw x y); simpl in Hscan; [|done].
    destruct (d !! x) eqn:Hx; unfold getitem in Hscan; rewrite Hx in Hscan;
      simpl in Hscan; [|done].
    by apply revise_scan_x_fuel in Hscan.
Qed.

End Revise.

Lemma revise_scan_y_total overlap w ys rem :
  (∀ w', w' ∈ ys → ∃ cs, overlap_chars overlap w w' = Ok cs) →
  ∃ r, revise_scan_y overlap w ys rem = Ok r.
Proof.
  revert rem. induction ys as [|w0 ys IH]; intros rem Hall; simpl; [eauto|].
  destruct (Hall w0) as [cs ->]; [left|]. simpl. apply IH.
  intros w' Hw'. apply Hall. by right.
Qed.

(** ** Idempotence of the filters *)

Section Idempotence.

Context (cw : Crossword).

Lemma enforce_var_fix var (d : Domains) s :
  d !! var = Some s →
  (∀ w, w ∈ s → String.length w = var_length var) →
  enforce_var var d = (Ok tt, d).
Proof.
  intros Hv Hok. rewrite (enforce_var_Some _ _ s Hv). f_equal.
  apply insert_id. rewrite Hv. f_equal. apply set_eq. intros w.
  rewrite elem_of_filter. naive_solver.
Qed.

Lemma for_each_enforce_var_idem vars (d : Domains) :
  for_each enforce_var vars (for_each enforce_var vars d).2
  = for_each enforce_var vars d.
Proof.
  revert d. induction vars as [|var vars IH]; intros d; simpl; [done|].
  unfold sbind at 2 3. destruct (d !! var) as [s|] eqn:Hx.
  - rewrite (enforce_var_Some _ _ s Hx).
    set (d1 := <[var := _]> d).
    pose proof (for_each_enforce_var_shrinks vars d1) as Hle.
    specialize (IH d1).
    destruct (for_each enforce_var vars d1) as [o d2] eqn:Hrun.
    simpl in IH, Hle.
    assert (∃ s2, d2 !! var = Some s2
              ∧ ∀ w, w ∈ s2 → String.length w = var_length var)
      as (s2 & Hs2 & Hok).
    { destruct (domains_le_lookup_r _ _ var _ Hle (lookup_insert_eq _ _ _))
        as (s2 & Hs2 & Hsub).
      exists s2. split; [done|]. intros w Hw%Hsub.
      by apply elem_of_filter in Hw as [? _]. }
    destruct o as [[]|e|]; simpl; unfold sbind;
      rewrite (enforce_var_fix _ _ _ Hs2 Hok), IH; done.
  - rewrite (enforce_var_None _ _ Hx). simpl. unfold sbind.
    by rewrite (enforce_var_None _ _ Hx).
Qed.

Lemma revise_twice x y (d d' : Domains) b :
  x ≠ y → revise cw x y d = (Ok b, d') →
  revise cw x y d' = (Ok false, d').
Proof.
  intros Hne H.
  apply revise_Ok in H as (overlap & xs & rw & Hov & Hx & Hscan & -> & _).
  destruct (revise_scan_x_Ok _ _ _ _ _ Hscan) as [Hsub Hall].
  unfold revise, sbind, reading, overlaps_get. rewrite Hov. simpl.
  unfold getitem at 1. rewrite lookup_insert_eq. simpl.
  set (xs' := xs ∖ list_to_set rw).
  rewrite (revise_scan_x_ext _ d) by (by rewrite lookup_insert_ne).
  assert (revise_scan_x overlap d y (elements xs') = Ok []) as ->; [|done].
  destruct (elements xs') as [|w0 l0] eqn:Hel; [done|]. rewrite <- Hel.
  assert (w0 ∈ xs') as Hw0 by (apply elem_of_elements; rewrite Hel; left).
  assert (∀ w, w ∈ xs' → w ∈ elements xs ∧ w ∉ rw) as Hxs'.
  { intros w [Hw Hn]%elem_of_difference.
    rewrite elem_of_list_to_set in Hn. by rewrite elem_of_elements. }
  destruct (Hall w0) as (ys & Hy & _); [by apply Hxs'|].
  apply (revise_scan_x_nil _ _ _ _ ys Hy).
  intros w [Hw Hn]%elem_of_elements%Hxs'.
  destruct (Hall w Hw) as (ys' & Hy' & Hidx & Hiff).
  rewrite Hy in Hy'. injection Hy' as <-.
  setoid_rewrite <- elem_of_elements in Hidx.
  destruct (revise_scan_y_total overlap w (elements ys) true Hidx) as [r Hr].
  rewrite Hr. f_equal. apply (revise_scan_y_Ok _ _ _ _ _ Hr). right.
  apply Hiff in Hn as (w' & Hw' & Hag). exists w'.
  by rewrite elem_of_elements.
Qed.

End Idempotence.

(** C8 — filtering is idempotent: a second [enforce_node_consistency()]
    right after a first one changes no domain (it ends as the first one
    did), and for neighbouring [x] and [y] — a variable is not among its
    own neighbours — a second [revise(x, y)] right after one that returned
    removes no word and returns [False]. *)
Theorem filtering_idempotent (cw : Crossword) :
  (∀ d : Domains,
     enforce_node_consistency cw (enforce_node_consistency cw d).2
     = enforce_node_consistency cw d)
  ∧ (∀ x y (d d' : Domains) b,
       y ∈ neighbors cw x → x ∉ neighbors cw x →
       revise cw x y d = (Ok b, d') →
       revise cw x y d' = (Ok false, d')).
Proof.
  split.
  - intros d. apply for_each_enforce_var_idem.
  - intros x y d d' b Hy Hx. apply revise_twice. by intros ->.
Qed.

(** ** Well-formed crosswords *)

Lemma wf_crossword_arc cw x y :
  wf_crossword cw = true → x ∈ variables cw → y ∈ neighbors cw x →
  y ∈ variables cw ∧ y ≠ x ∧ x ∈ neighbors cw y
  ∧ ∃ a b, overlaps cw x y = Some (Some (a, b))
         ∧ overlaps cw y x = Some (Some (b, a))
         ∧ a < var_length x ∧ b < var_length y.
Proof.
  unfold wf_crossword. intros Hwf%Is_true_true Hx Hy.
  rewrite forallb_True, Forall_forall in Hwf. specialize (Hwf x Hx).
  rewrite forallb_True, Forall_forall in Hwf. specialize (Hwf y Hy).
  unfold wf_arc in Hwf.
  destruct (overlaps cw x y) as [[[a b]|]|];
    rewrite ?andb_True, ?bool_decide_spec in Hwf; [|naive_solver..].
  destruct Hwf as [[[? ?] ?] [[? ?] ?]]. eauto 10.
Qed.

Lemma agree_swap a b w w' :
  agree (Some (a, b)) w w' ↔ agree (Some (b, a)) w' w.
Proof.
  unfold agree, overlap_chars.
  split; intros [c Hc]; exists c;
    destruct (str_index w a), (str_index w' b); simpl in *; congruence.
Qed.

Lemma agree_chars a b w w' :
  agree (Some (a, b)) w w' ↔
  ∃ c, str_index w a = Ok c ∧ str_index w' b = Ok c.
Proof.
  unfold agree, overlap_chars. split.
  - intros [c Hc]. exists c.
    destruct (str_index w a), (str_index w' b); simpl in *;
      split; congruence.
  - intros (c & -> & ->). by exists c.
Qed.

(** ** AC-3 *)

Section AC3.

Context (cw : Crossword).

(** What one [revise(x, y)] leaves. *)
Lemma revise_result x y (d d' : Domains) b :
  revise cw x y d = (Ok b, d') →
  ∃ overlap xs xs',
    overlaps cw x y = Some overlap ∧ d !! x = Some xs
    ∧ d' = <[x := xs']> d ∧ xs' ⊆ xs
    ∧ (b = false → xs' = xs) ∧ (b = true → xs' ≠ xs)
    ∧ ∀ w, w ∈ xs →
        ∃ ys, d !! y = Some ys
          ∧ (w ∈ xs' ↔ ∃ w', w' ∈ ys ∧ agree overlap w w').
Proof.
  intros H.
  apply revise_Ok in H as (overlap & xs & rw & Hov & Hx & Hscan & -> & ->).
  destruct (revise_scan_x_Ok _ _ _ _ _ Hscan) as [Hsub Hall].
  exists overlap, xs, (xs ∖ list_to_set rw).
  split_and!; [done|done|done|set_solver|..].
  - destruct rw; [|done]. intros _. set_solver.
  - destruct rw as [|w rw]; [done|]. intros _ Heq.
    assert (w ∈ xs) as Hw.
    { apply elem_of_elements. eapply elem_of_sublist; [|done]. left. }
    rewrite <- Heq in Hw. set_solver.
  - intros w Hw. destruct (Hall w) as (ys & Hy & _ & Hiff).
    { by apply elem_of_elements. }
    exists ys. split; [done|]. rewrite <- Hiff.
    rewrite elem_of_difference, elem_of_list_to_set. tauto.
Qed.

Lemma revise_false_id x y (d d' : Domains) :
  revise cw x y d = (Ok false, d') → d' = d.
Proof.
  intros H. apply revise_result in H
    as (overlap & xs & xs' & _ & Hx & -> & _ & Heq & _).
  rewrite Heq by done. by apply insert_id.
Qed.

Lemma revise_makes_consistent x y (d d' : Domains) b :
  x ≠ y → revise cw x y d = (Ok b, d') → arc_consistent cw d' x y.
Proof.
  intros Hne H. apply revise_result in H
    as (overlap & xs & xs' & Hov & Hx & -> & Hsub & _ & _ & Hall).
  intros overlap' xs0 ys0. rewrite Hov, lookup_insert_eq.
  rewrite lookup_insert_ne by done.
  intros [= <-] [= <-] Hy w Hw.
  destruct (Hall w) as (ys & Hy' & Hiff); [by apply Hsub|].
  rewrite Hy in Hy'. injection Hy' as <-. by apply Hiff.
Qed.

Lemma ac3_inv_step x y rest (d d' : Domains) b :
  wf_crossword cw = true →
  ac3_inv cw ((x, y) :: rest) d → revise cw x y d = (Ok b, d') →
  ac3_inv cw (rest ++ ((λ linked_var, (linked_var, x)) <$>
                    filter (λ z, z ≠ y) (neighbors cw x))) d'.
Proof.
  intros Hwf Hinv Hrev u v Hu Hv.
  destruct (wf_crossword_arc _ _ _ Hwf Hu Hv)
    as (Hvv & Hvu & Huv & a & b' & Hov & Hov' & _).
  destruct (decide ((u, v) = (x, y))) as [[= -> ->]|Hxy].
  { right. by eapply revise_makes_consistent. }
  destruct (Hinv u v Hu Hv) as [Hq|Hac].
  { left. apply elem_of_app. left.
    apply elem_of_cons in Hq as [?|?]; done. }
  destruct (decide (v = x)) as [->|Hvx].
  - destruct (decide (u = y)) as [->|Huy].
    + (* the arc (y, x): the words removed from x supported nothing *)
      right. apply revise_result in Hrev
        as (overlap & xs & xs' & Hovx & Hx & -> & Hsub & _ & _ & Hall).
      intros o ys0 xs0. rewrite Hov, lookup_insert_eq.
      rewrite lookup_insert_ne by done.
      intros [= <-] Hy [= <-] w Hw.
      destruct (Hac _ _ _ Hov Hy Hx w Hw) as (w' & Hw' & Hag).
      exists w'. split; [|done].
      destruct (Hall w' Hw') as (ys & Hy' & Hiff).
      rewrite Hy in Hy'. injection Hy' as <-. apply Hiff.
      exists w. split; [done|]. rewrite Hov' in Hovx.
      injection Hovx as <-. by apply agree_swap.
    + left. apply elem_of_app. right. apply list_elem_of_fmap.
      exists u. split; [done|]. by apply list_elem_of_filter.
  - right. apply revise_result in Hrev
      as (overlap & xs & xs' & Hovx & Hx & -> & Hsub & _ & _ & Hall).
    intros o us vs Ho. rewrite (lookup_insert_ne _ x v) by done.
    destruct (decide (u = x)) as [->|Hux].
    + rewrite lookup_insert_eq. intros [= <-] Hvs w Hw.
      apply (Hac _ _ _ Ho Hx Hvs). by apply Hsub.
    + rewrite lookup_insert_ne by done. by apply Hac.
Qed.

Lemma ac3_loop_consistent fuel queue (d d' : Domains) :
  wf_crossword cw = true → ac3_inv cw queue d →
  ac3_loop cw fuel queue d = (Ok true, d') → ac3_inv cw [] d'.
Proof.
  intros Hwf. revert queue d.
  induction fuel as [|fuel IH]; intros [|[x y] rest] d Hinv H; simpl in H.
  - unfold ret in H. by injection H as <-.
  - done.
  - unfold ret in H. by injection H as <-.
  - unfold sbind at 1 in H.
    destruct (revise cw x y d) as [[[|]|e|] d1] eqn:Hrev; [| |done..].
    + pose proof (ac3_inv_step _ _ _ _ _ _ Hwf Hinv Hrev) as Hinv1.
      unfold sbind, reading in H.
      destruct (getitem d1 x); [|done..].
      case_decide; [done|]. by eapply IH.
    + apply (IH rest d1); [|done].
      apply revise_false_id in Hrev as Heq. subst d1.
      intros u v Hu Hv.
      destruct (wf_crossword_arc _ _ _ Hwf Hu Hv) as (_ & Hvu & _).
      destruct (Hinv u v Hu Hv) as [[[= -> ->]|Hq]%elem_of_cons|Hac];
        [right|by left|by right].
      by eapply revise_makes_consistent.
Qed.

Lemma initial_queue_all x y :
  x ∈ variables cw → y ∈ neighbors cw x → (x, y) ∈ initial_queue cw None.
Proof.
  intros Hx Hy. simpl. apply list_elem_of_bind. exists x. split; [|done].
  apply list_elem_of_bind. exists y. split; [left|done].
Qed.

End AC3.

(** C4 — arc consistency after AC-3: on a well-formed crossword, when
    [ac3()] (no arcs given) returns [True], for every variable [x], every
    neighbour [y] of it with overlap [(ix, iy)] and every word [w] left in
    [x]'s domain, some word [w'] of [y]'s domain has [w[ix] == w'[iy]]. *)
Theorem ac3_arc_consistent (cw : Crossword) fuel (d d' : Domains) :
  wf_crossword cw = true →
  ac3 cw fuel None d = (Ok true, d') →
  ∀ x y ix iy xs ys,
    x ∈ variables cw → y ∈ neighbors cw x →
    overlaps cw x y = Some (Some (ix, iy)) →
    d' !! x = Some xs → d' !! y = Some ys →
    ∀ w, w ∈ xs →
      ∃ w' c, w' ∈ ys ∧ str_index w ix = Ok c ∧ str_index w' iy = Ok c.
Proof.
  intros Hwf Hrun x y ix iy xs ys Hx Hy Hov Hxs Hys w Hw.
  assert (ac3_inv cw [] d') as Hinv.
  { eapply ac3_loop_consistent; [done| |exact Hrun].
    intros u v Hu Hv. left. by apply initial_queue_all. }
  destruct (Hinv x y Hx Hy) as [?%elem_of_nil|Hac]; [done|].
  destruct (Hac _ _ _ Hov Hxs Hys w Hw) as (w' & Hw' & Hag).
  apply agree_chars in Hag as (c & ? & ?). eauto.
Qed.

Section AC3Run.

Context (cw : Crossword).

Lemma ac3_loop_shrinks fuel queue (d : Domains) :
  domains_le (ac3_loop cw fuel queue d).2 d.
Proof.
  revert queue d.
  induction fuel as [|fuel IH]; intros [|[x y] rest] d; simpl;
    try apply domains_le_refl.
  unfold sbind at 1. pose proof (revise_shrinks cw x y d) as Hle.
  destruct (revise cw x y d) as [[[|]|e|] d1]; simpl in *; try done.
  - unfold sbind, reading. destruct (getitem d1 x); simpl; try done.
    case_decide; simpl; [done|].
    eapply domains_le_trans; [apply IH|done].
  - eapply domains_le_trans; [apply IH|done].
Qed.

(** [ac3] returns [False] only for a domain that a revision of this run
    emptied. *)
Lemma ac3_loop_false fuel queue (d d' : Domains) :
  ac3_loop cw fuel queue d = (Ok false, d') →
  ∃ x xs, d !! x = Some xs ∧ xs ≠ ∅ ∧ d' !! x = Some ∅.
Proof.
  revert queue d.
  induction fuel as [|fuel IH]; intros [|[x y] rest] d H; simpl in H;
    try done.
  unfold sbind at 1 in H.
  pose proof (revise_shrinks cw x y d) as Hle.
  destruct (revise cw x y d) as [[[|]|e|] d1] eqn:Hrev; simpl in *;
    try done.
  - unfold sbind, reading in H.
    destruct (getitem d1 x) as [s| |] eqn:Hs; try done.
    apply getitem_Ok in Hs. case_decide as Hsize.
    + unfold ret in H. injection H as <-.
      apply size_empty_inv, leibniz_equiv in Hsize. subst s.
      apply revise_result in Hrev
        as (overlap & xs & xs' & _ & Hx & -> & _ & _ & Hne & _).
      rewrite lookup_insert_eq in Hs. injection Hs as ->.
      exists x, xs. split_and!; [done| |by rewrite lookup_insert_eq].
      intros ->. by apply Hne.
    + apply IH in H as (x' & xs' & Hx' & Hne & Hd').
      destruct (domains_le_lookup _ _ _ _ Hle Hx') as (xs & Hx & Hsub).
      exists x', xs. split_and!; [done| |done]. set_solver.
  - apply IH in H as (x' & xs' & Hx' & Hne & Hd').
    destruct (domains_le_lookup _ _ _ _ Hle Hx') as (xs & Hx & Hsub).
    exists x', xs. split_and!; [done| |done]. set_solver.
Qed.

Lemma sum_list_with_le {A} (f g : A → nat) l :
  (∀ a, f a ≤ g a) → sum_list_with f l ≤ sum_list_with g l.
Proof.
  intros Hle. induction l as [|a l IH]; simpl; [done|].
  specialize (Hle a). lia.
Qed.

Lemma sum_list_with_lt {A} (f g : A → nat) l x :
  (∀ a, f a ≤ g a) → x ∈ l → f x < g x →
  sum_list_with f l < sum_list_with g l.
Proof.
  intros Hle Hx Hlt. induction Hx as [x l|x a l Hx IH]; simpl.
  - pose proof (sum_list_with_le f g l Hle). lia.
  - specialize (Hle a). lia.
Qed.

Lemma max_list_with_ge {A} (f : A → nat) l x :
  x ∈ l → f x ≤ max_list_with f l.
Proof. intros Hx. induction Hx; simpl; lia. Qed.

Lemma words_left_revise x y (d d' : Domains) :
  x ∈ variables cw → revise cw x y d = (Ok true, d') →
  words_left cw d' < words_left cw d.
Proof.
  intros Hx H. apply revise_result in H
    as (overlap & xs & xs' & _ & Hxs & -> & Hsub & _ & Hne & _).
  apply (sum_list_with_lt _ _ _ x); [|done|].
  - intros v. rewrite !lookup_total_alt.
    destruct (decide (x = v)) as [->|Hv].
    + rewrite lookup_insert_eq, Hxs. simpl. by apply subseteq_size.
    + by rewrite lookup_insert_ne.
  - rewrite !lookup_total_alt, lookup_insert_eq, Hxs. simpl.
    apply subset_size. split; [done|]. intros Hsup. apply Hne; [done|].
    set_solver.
Qed.

Lemma keyed_le (d' d : Domains) : domains_le d' d → keyed cw d → keyed cw d'.
Proof.
  intros Hle Hk v [s Hs]. apply Hk.
  destruct (domains_le_lookup _ _ _ _ Hle Hs) as (s0 & -> & _). eauto.
Qed.

Lemma ac3_loop_terminates fuel queue (d : Domains) :
  keyed cw d →
  length queue + words_left cw d * max_degree cw < fuel →
  (ac3_loop cw fuel queue d).1 ≠ OutOfFuel.
Proof.
  revert queue d.
  induction fuel as [|fuel IH]; intros [|[x y] rest] d Hk Hfuel; simpl;
    try done.
  { simpl in Hfuel. lia. }
  unfold sbind at 1.
  pose proof (revise_shrinks cw x y d) as Hle.
  destruct (revise cw x y d) as [[[|]|e|] d1] eqn:Hrev; simpl in *;
    try done.
  - unfold sbind, reading.
    destruct (getitem d1 x) as [s| |] eqn:Hs; simpl; try done.
    { case_decide; simpl; [done|]. apply IH; [by eapply keyed_le|].
      assert (x ∈ variables cw) as Hx.
      { apply revise_result in Hrev as (? & xs & ? & _ & Hxs & _).
        apply Hk. eauto. }
      pose proof (words_left_revise _ _ _ _ Hx Hrev) as Hlt.
      rewrite length_app, length_fmap.
      pose proof (length_filter (λ z, z ≠ y) (neighbors cw x)) as Hf.
      pose proof (max_list_with_ge (λ v, length (neighbors cw v)) _ _ Hx)
        as Hmax.
      fold (max_degree cw) in Hmax. simpl in Hmax. nia. }
    unfold getitem in Hs. by destruct (d1 !! x).
  - apply IH; [by eapply keyed_le|].
    apply revise_false_id in Hrev. subst d1. lia.
  - apply (revise_not_Ok cw) in Hrev as [_ [e ?]]; done.
Qed.

Lemma ac3_fuel_enough arcs (d : Domains) :
  keyed cw d →
  (ac3 cw (ac3_fuel cw d (initial_queue cw arcs)) arcs d).1 ≠ OutOfFuel.
Proof.
  intros Hk. apply ac3_loop_terminates; [done|].
  unfold ac3_fuel, words_left, max_degree. lia.
Qed.

End AC3Run.

(** C10 — [ac3()] returning [True] does not mean that no domain is empty:
    it returns [False] only for a domain that was not empty when it
    started and that it emptied; for a variable without neighbours whose
    domain is empty after node consistency, [ac3()] returns [True] and
    leaves that domain empty. *)
Theorem ac3_true_with_empty_domain :
  (∀ cw fuel arcs (d d' : Domains),
     ac3 cw fuel arcs d = (Ok false, d') →
     ∃ x xs, d !! x = Some xs ∧ xs ≠ ∅ ∧ d' !! x = Some ∅)
  ∧ (∃ cw v (d : Domains),
       d = (enforce_node_consistency cw (init_domains cw)).2
       ∧ v ∈ variables cw ∧ neighbors cw v = []
       ∧ d !! v = Some ∅
       ∧ ∀ fuel, ac3 cw fuel None d = (Ok true, d)).
Proof.
  split.
  - intros cw fuel arcs d d'. apply ac3_loop_false.
  - exists (Lonely.cw {["A"]}), Lonely.v3, {[Lonely.v3 := ∅]}.
    split_and!.
    + evaluate.
    + by left.
    + done.
    + evaluate.
    + by intros [|fuel].
Qed.

(** ** The search over the store of dict objects *)

Section Refinement.

Context (cw : Crossword).

Lemma list_snoc_lookup_total {A} `{Inhabited A} (l : list A) x :
  (l ++ [x]) !!! length l = x.
Proof.
  apply list_lookup_total_correct. by rewrite lookup_app_r, Nat.sub_diag.
Qed.

Lemma list_snoc_insert {A} (l : list A) x y :
  <[length l := y]> (l ++ [x]) = l ++ [y].
Proof. rewrite insert_app_r_alt by lia. by rewrite Nat.sub_diag. Qed.

(** One turn of the loop of [backtrack]: the candidate is a new dict
    object holding the contents of [assignment] extended with [var]. *)
Lemma try_values_cons run a var values rest σ A :
  dicts σ !! a = Some A →
  try_values cw run a var (values :: rest) σ
  = let σ2 := mkStore (dicts σ ++ [dict_setitem var values A]) (calls σ) in
    match consistent cw (dict_setitem var values A) with
    | Ok true =>
        match run (length (dicts σ)) σ2 with
        | (Ok (Some r), σ3) => (Ok (Some r), σ3)
        | (Ok None, σ3) => try_values cw run a var rest σ3
        | (Raise e, σ3) => (Raise e, σ3)
        | (OutOfFuel, σ3) => (OutOfFuel, σ3)
        end
    | Ok false => try_values cw run a var rest σ2
    | Raise e => (Raise e, σ2)
    | OutOfFuel => (OutOfFuel, σ2)
    end.
Proof.
  intros Ha. cbn [try_values].
  unfold sbind at 1. unfold dict_copy at 1.
  unfold sbind at 1. unfold dict_store at 1. cbn [dicts calls].
  unfold sbind at 1. unfold dict_read at 1. cbn [dicts calls].
  rewrite (list_lookup_total_correct _ _ _ Ha).
  rewrite list_snoc_lookup_total, list_snoc_insert, list_snoc_lookup_total.
  unfold sbind at 1, reading.
  destruct (consistent cw (dict_setitem var values A)) as [[|]|e|]; try done.
  unfold sbind at 1.
  destruct (run _ _) as [[[r|]|e|] σ3]; done.
Qed.

Lemma try_values_refines run pure var candidates :
  refines run pure →
  refines (λ a, try_values cw run a var candidates)
          (λ A, try_values_pure cw pure A var candidates).
Proof.
  intros Hrec. induction candidates as [|values rest IH]; intros σ a A Ha.
  { simpl. split_and!; [done|done|done]. }
  rewrite (try_values_cons _ _ _ _ _ _ A Ha). cbn [try_values_pure].
  set (σ2 := mkStore (dicts σ ++ [dict_setitem var values A]) (calls σ)).
  cbv zeta.
  assert (dicts σ `prefix_of` dicts σ2) as Hpre by (by eexists).
  assert (dicts σ2 !! length (dicts σ) = Some (dict_setitem var values A))
    as Hnew by (simpl; by rewrite lookup_app_r, Nat.sub_diag).
  assert (dicts σ2 !! a = Some A) as Ha2 by (by eapply prefix_lookup_Some).
  assert (calls σ2 = calls σ) as Hc2 by done.
  clearbody σ2.
  destruct (consistent cw (dict_setitem var values A)) as [[|]|e|];
    simpl; [| |split_and!; [done|lia|done]..].
  - destruct (Hrec σ2 _ _ Hnew) as (Hpre3 & Hcalls3 & Hres).
    destruct (run (length (dicts σ)) σ2) as [o σ3]. simpl in *.
    assert (dicts σ `prefix_of` dicts σ3) as Hpre' by (by etrans).
    destruct o as [[r|]|e|], (pure (dict_setitem var values A))
      as [[R|]|e'|]; simpl in *; try done;
      try (split_and!; [done|lia|done]).
    assert (dicts σ3 !! a = Some A) as Ha3
      by (by eapply prefix_lookup_Some).
    destruct (IH σ3 a A Ha3) as (Hpre4 & Hcalls4 & Hres4).
    split_and!; [by etrans|lia|done].
  - destruct (IH σ2 a A Ha2) as (Hpre4 & Hcalls4 & Hres4).
    split_and!; [by etrans|lia|done].
Qed.

Lemma backtrack_S fuel (d : Domains) a σ A :
  dicts σ !! a = Some A →
  backtrack cw (S fuel) d a σ
  = let σ1 := mkStore (dicts σ) (S (calls σ)) in
    if assignment_complete cw A then (Ok (Some a), σ1)
    else
      match select_unassigned_variable cw d A with
      | Ok var =>
          match order_domain_values cw d var A with
          | Ok candidates =>
              try_values cw (backtrack cw fuel d) a var candidates σ1
          | Raise e => (Raise e, σ1)
          | OutOfFuel => (OutOfFuel, σ1)
          end
      | Raise e => (Raise e, σ1)
      | OutOfFuel => (OutOfFuel, σ1)
      end.
Proof.
  intros Ha. cbn [backtrack].
  unfold sbind at 1, enter_backtrack. unfold sbind at 1, dict_read.
  cbn [dicts calls]. rewrite (list_lookup_total_correct _ _ _ Ha).
  destruct (assignment_complete cw A); [done|].
  unfold sbind at 1, reading.
  destruct (select_unassigned_variable cw d A) as [var|e|]; done.
Qed.

Lemma backtrack_refines fuel (d : Domains) :
  refines (backtrack cw fuel d) (backtrack_pure cw fuel d).
Proof.
  induction fuel as [|fuel IH]; intros σ a A Ha.
  { simpl. split_and!; [done|lia|done]. }
  rewrite (backtrack_S _ _ _ _ A Ha). cbn [backtrack_pure]. cbv zeta.
  set (σ1 := mkStore (dicts σ) (S (calls σ))).
  assert (calls σ ≤ calls σ1) as Hc by (simpl; lia).
  assert (dicts σ1 = dicts σ) as Hd by done.
  destruct (assignment_complete cw A).
  { simpl. by rewrite Ha. }
  destruct (select_unassigned_variable cw d A) as [var|e|]; simpl;
    [|split_and!; [done|lia|done]..].
  destruct (order_domain_values cw d var A) as [candidates|e|]; simpl;
    [|split_and!; [done|lia|done]..].
  destruct (try_values_refines _ _ var candidates IH σ1 a A Ha)
    as (Hpre & Hcalls & Hres).
  split_and!; [done|lia|done].
Qed.

End Refinement.

(** C9 — [backtrack] leaves no trace of a failed candidate: whatever the
    outcome of [backtrack(a)], every dict object that existed at the call,
    the caller's [a] among them, holds afterwards what it held before, and
    the outcome is that of the search in which each candidate is the
    contents of [a] extended with [var] alone and the next candidate
    starts again from the contents of [a]. *)
Theorem backtrack_restores_state (cw : Crossword) fuel (d : Domains)
    (σ : Store) (a : nat) (A : list (variable * string)) :
  dicts σ !! a = Some A →
  (∀ l B, dicts σ !! l = Some B →
          dicts (backtrack cw fuel d a σ).2 !! l = Some B)
  ∧ result_matches (backtrack cw fuel d a σ).2 (backtrack cw fuel d a σ).1
                   (backtrack_pure cw fuel d A).
Proof.
  intros Ha. destruct (backtrack_refines cw fuel d σ a A Ha) as (Hpre & _ & Hres).
  split; [|done]. intros l B Hl. by eapply prefix_lookup_Some.
Qed.

(** ** Dicts *)

Lemma dict_in_get var (a : list (variable * string)) :
  dict_in var a = true ↔ is_Some (dict_get a var).
Proof.
  unfold dict_in. rewrite bool_decide_eq_true.
  induction a as [|[k w] a IH]; simpl.
  - rewrite elem_of_nil. split; [done|]. by intros [? ?].
  - rewrite elem_of_cons. case_decide as Hk; subst.
    + split; [eauto|by left].
    + rewrite IH. naive_solver.
Qed.

Lemma dict_in_false var (a : list (variable * string)) :
  dict_in var a = false ↔ dict_get a var = None.
Proof.
  rewrite <- not_true_iff_false, dict_in_get, <- eq_None_not_Some. done.
Qed.

Lemma dict_get_elem_of (a : list (variable * string)) var w :
  dict_get a var = Some w → (var, w) ∈ a.
Proof.
  induction a as [|[k w'] a IH]; simpl; [done|].
  case_decide; subst.
  - intros [= ->]. left.
  - intros Hg. right. auto.
Qed.

Lemma dict_get_setitem var value (a : list (variable * string)) v :
  dict_get (dict_setitem var value a) v
  = if decide (v = var) then Some value else dict_get a v.
Proof.
  induction a as [|[k w] a IH]; simpl.
  - repeat case_decide; congruence.
  - repeat (case_decide; simpl); try congruence.
Qed.

Lemma dict_getitem_Ok (a : list (variable * string)) var w :
  dict_getitem a var = Ok w ↔ dict_get a var = Some w.
Proof. unfold dict_getitem. destruct (dict_get a var); split; congruence. Qed.

(** [len(values) != len(set(values))] tells whether a word occurs twice. *)
Lemma size_list_to_set_le (l : list string) :
  size (list_to_set l : gset string) ≤ length l.
Proof.
  induction l as [|w l IH].
  - by rewrite list_to_set_nil, size_empty.
  - rewrite list_to_set_cons, size_union_alt, size_singleton. simpl.
    assert (size (list_to_set l ∖ {[w]} : gset string)
            ≤ size (list_to_set l : gset string))
      by (apply subseteq_size; set_solver).
    lia.
Qed.

Lemma length_list_to_set_NoDup (l : list string) :
  length l = size (list_to_set l : gset string) ↔ NoDup l.
Proof.
  split; [|intros H; by rewrite size_list_to_set].
  induction l as [|w l IH]; [constructor|].
  rewrite list_to_set_cons. simpl. intros Hlen.
  pose proof (size_list_to_set_le l) as Hle.
  destruct (decide (w ∈ l)) as [Hin|Hin].
  - exfalso.
    assert ({[w]} ∪ list_to_set l = (list_to_set l : gset string)) as Heq
      by set_solver.
    rewrite Heq in Hlen. lia.
  - constructor; [done|]. apply IH.
    rewrite size_union, size_singleton in Hlen by set_solver. lia.
Qed.

(** ** What [consistent] accepts *)

Section Consistent.

Context (cw : Crossword).

Lemma consistent_links_true (a : list (variable * string)) var links :
  consistent_links cw a var links = Ok true →
  ∀ l wx wl, l ∈ links →
    dict_get a var = Some wx → dict_get a l = Some wl →
    ∃ ix iy c, overlaps cw var l = Some (Some (ix, iy))
             ∧ str_index wx ix = Ok c ∧ str_index wl iy = Ok c.
Proof.
  induction links as [|l0 links IH]; simpl; intros H l wx wl Hl Hx Hwl.
  { by apply elem_of_nil in Hl. }
  apply obind_Ok in H as (overlap & Hov & H).
  unfold overlaps_get in Hov.
  destruct (overlaps cw var l0) as [o|] eqn:Hovl; [|done].
  injection Hov as ->.
  apply elem_of_cons in Hl as [->|Hl].
  - assert (dict_in l0 a = true) as Hin by (apply dict_in_get; eauto).
    rewrite Hin in H.
    apply obind_Ok in H as (w1 & Hw1%dict_getitem_Ok & H).
    apply obind_Ok in H as (w2 & Hw2%dict_getitem_Ok & H).
    apply obind_Ok in H as ([c1 c2] & Hcs & H). simpl in H.
    case_decide as Hc; [done|]. simpl in Hc. subst c2.
    rewrite Hx in Hw1. rewrite Hwl in Hw2. simplify_eq.
    unfold overlap_chars in Hcs. destruct overlap as [[ix iy]|]; [|done].
    apply obind_Ok in Hcs as (c & Hc1 & Hcs).
    apply obind_Ok in Hcs as (c' & Hc2 & Hcs). simplify_eq.
    rewrite Hovl. eauto 10.
  - destruct (dict_in l0 a); [|by eapply IH].
    apply obind_Ok in H as (w1 & _ & H).
    apply obind_Ok in H as (w2 & _ & H).
    apply obind_Ok in H as (cs & _ & H).
    case_decide; [done|]. by eapply IH.
Qed.

Lemma consistent_vars_true (a : list (variable * string)) vars :
  consistent_vars cw a vars = Ok true →
  ∀ var w, var ∈ vars → dict_get a var = Some w →
    String.length w = var_length var
    ∧ consistent_links cw a var (neighbors cw var) = Ok true.
Proof.
  induction vars as [|v vars IH]; simpl; intros H var w Hvar Hw.
  { by apply elem_of_nil in Hvar. }
  apply obind_Ok in H as (w0 & Hw0%dict_getitem_Ok & H).
  case_decide as Hlen; [done|].
  apply obind_Ok in H as (ok & Hlinks & H).
  destruct ok; [|done].
  apply elem_of_cons in Hvar as [->|Hvar]; [|by eapply IH].
  rewrite Hw in Hw0. by simplify_eq.
Qed.

Lemma consistent_true (a : list (variable * string)) :
  consistent cw a = Ok true →
  NoDup a.*2
  ∧ (∀ v w, dict_get a v = Some w → String.length w = var_length v)
  ∧ (∀ x y wx wy, y ∈ neighbors cw x →
       dict_get a x = Some wx → dict_get a y = Some wy →
       ∃ ix iy c, overlaps cw x y = Some (Some (ix, iy))
                ∧ str_index wx ix = Ok c ∧ str_index wy iy = Ok c).
Proof.
  unfold consistent. case_decide as Hlen; [done|].
  apply length_list_to_set_NoDup in Hlen. intros H.
  assert (∀ v w, dict_get a v = Some w → v ∈ a.*1) as Hkey.
  { intros v w Hv%dict_get_elem_of. apply list_elem_of_fmap. by exists (v, w). }
  split_and!; [done|..].
  - intros v w Hv.
    by destruct (consistent_vars_true _ _ H v w (Hkey _ _ Hv) Hv).
  - intros x y wx wy Hy Hx Hwy.
    destruct (consistent_vars_true _ _ H x wx (Hkey _ _ Hx) Hx) as [_ Hl].
    by eapply consistent_links_true.
Qed.

Lemma NoDup_values_distinct (a : list (variable * string)) v1 v2 w1 w2 :
  NoDup a.*2 → v1 ≠ v2 →
  dict_get a v1 = Some w1 → dict_get a v2 = Some w2 → w1 ≠ w2.
Proof.
  intros Hnd Hne H1%dict_get_elem_of H2%dict_get_elem_of ->.
  apply list_elem_of_lookup in H1 as [i Hi]. apply list_elem_of_lookup in H2 as [j Hj].
  assert (i = j); [|by simplify_eq].
  eapply (NoDup_lookup _ _ _ w2 Hnd); rewrite list_lookup_fmap.
  - by rewrite Hi.
  - by rewrite Hj.
Qed.

Lemma assignment_complete_true (a : list (variable * string)) :
  assignment_complete cw a = true ↔
  ∀ v, v ∈ variables cw → is_Some (dict_get a v).
Proof.
  unfold assignment_complete.
  rewrite <- Is_true_true, forallb_True, Forall_forall.
  setoid_rewrite Is_true_true. by setoid_rewrite dict_in_get.
Qed.

(** ** Soundness of the search *)

Lemma try_values_pure_sound rec (a : list (variable * string)) var
    candidates r :
  try_values_pure cw rec a var candidates = Ok (Some r) →
  ∃ values, values ∈ candidates
    ∧ consistent cw (dict_setitem var values a) = Ok true
    ∧ rec (dict_setitem var values a) = Ok (Some r).
Proof.
  induction candidates as [|values rest IH]; simpl; [done|]. intros H.
  apply obind_Ok in H as ([|] & Hok & H).
  - apply obind_Ok in H as ([r'|] & Hrec & H).
    + injection H as ->. exists values. split_and!; [left|done..].
    + destruct (IH H) as (v & ? & ? & ?). exists v. split_and!; [by right|done..].
  - destruct (IH H) as (v & ? & ? & ?). exists v. split_and!; [by right|done..].
Qed.

Lemma backtrack_pure_sound fuel (d : Domains) a r :
  backtrack_pure cw fuel d a = Ok (Some r) →
  assignment_complete cw r = true ∧ (r = a ∨ consistent cw r = Ok true).
Proof.
  revert a. induction fuel as [|fuel IH]; intros a; simpl; [done|].
  destruct (assignment_complete cw a) eqn:Hc.
  { intros [= <-]. auto. }
  intros H. apply obind_Ok in H as (var & _ & H).
  apply obind_Ok in H as (candidates & _ & H).
  apply try_values_pure_sound in H as (values & _ & Hok & H).
  apply IH in H as [? [->|?]]; auto.
Qed.

(** [solve] in terms of the search on immutable assignments. *)
Lemma solve_pure :
  solve cw
  = match enforce_node_consistency cw (init_domains cw) with
    | (Ok _, d1) =>
        match ac3 cw (ac3_fuel cw d1 (initial_queue cw None)) None d1 with
        | (Ok _, d2) => backtrack_pure cw (S (length (variables cw))) d2 []
        | (Raise e, _) => Raise e
        | (OutOfFuel, _) => OutOfFuel
        end
    | (Raise e, _) => Raise e
    | (OutOfFuel, _) => OutOfFuel
    end.
Proof.
  unfold solve, solve_run.
  destruct (enforce_node_consistency cw (init_domains cw)) as [[?|?|] d1];
    [|done..].
  destruct (ac3 cw _ None d1) as [[?|?|] d2]; [|done..].
  destruct (backtrack_refines cw (S (length (variables cw))) d2
              (mkStore [[]] 0) 0 [] eq_refl) as (_ & _ & Hres).
  destruct (backtrack cw _ d2 0 _) as [o σ].
  destruct (backtrack_pure cw _ d2 []) as [[R|]|e'|];
    destruct o as [[r|]|e|]; cbn in *; try done.
  - by rewrite (list_lookup_total_correct _ _ _ Hres).
  - by subst.
Qed.

(** What [solve] returns is a solution. *)
Lemma solve_sound (a : list (variable * string)) :
  solve cw = Ok (Some a) → solution cw a ∧ NoDup a.*2.
Proof.
  rewrite solve_pure.
  destruct (enforce_node_consistency cw (init_domains cw)) as [[?|?|] d1];
    [|done..].
  destruct (ac3 cw _ None d1) as [[?|?|] d2]; [|done..].
  intros [Hc [->|Hok]]%backtrack_pure_sound;
    rewrite assignment_complete_true in Hc.
  - split; [|constructor]. by split.
  - apply consistent_true in Hok as (Hnd & Hlen & Hov).
    split; [|done]. split; [done| |done|done].
    intros ????. by apply NoDup_values_distinct.
Qed.

End Consistent.

(** C1 — validity of what [solve()] returns: when it returns an
    assignment, every variable of the crossword has a word in it, the
    words of different variables differ (the list of assigned words has no
    repetition), the words of an assigned variable and an assigned
    neighbour carry the same character at the indices of their overlap,
    and every word has the length of its variable. *)
Theorem solve_returns_solution (cw : Crossword)
    (a : list (variable * string)) :
  solve cw = Ok (Some a) →
  (∀ v, v ∈ variables cw → is_Some (dict_get a v))
  ∧ NoDup a.*2
  ∧ (∀ v1 v2 w1 w2, v1 ≠ v2 →
       dict_get a v1 = Some w1 → dict_get a v2 = Some w2 → w1 ≠ w2)
  ∧ (∀ x y wx wy, y ∈ neighbors cw x →
       dict_get a x = Some wx → dict_get a y = Some wy →
       ∃ ix iy c, overlaps cw x y = Some (Some (ix, iy))
                ∧ str_index wx ix = Ok c ∧ str_index wy iy = Ok c)
  ∧ (∀ v w, dict_get a v = Some w → String.length w = var_length v).
Proof.
  intros [[Hc Hd Ho Hl] Hnd]%solve_sound. done.
Qed.

(** ** Sorting and minimum *)

Section Sorting.

Context {A : Type} (key : A → nat).

Lemma sort_insert_perm a l : sort_insert key a l ≡ₚ a :: l.
Proof.
  induction l as [|b l IH]; simpl; [done|].
  case_decide; [done|]. rewrite IH. apply Permutation_swap.
Qed.

Lemma list_sort_perm l : list_sort key l ≡ₚ l.
Proof.
  induction l as [|a l IH]; simpl; [done|].
  rewrite sort_insert_perm. by constructor.
Qed.

Lemma sort_insert_sorted a l :
  Sorted (λ x y, key x ≤ key y) l →
  Sorted (λ x y, key x ≤ key y) (sort_insert key a l).
Proof.
  induction 1 as [|b l Hl IH Hb]; simpl.
  - repeat constructor.
  - case_decide as Hab.
    + repeat constructor; done.
    + constructor; [done|].
      destruct Hb as [|c l' Hbc]; simpl in *.
      * constructor. lia.
      * case_decide; constructor; lia.
Qed.

Lemma list_sort_sorted l : Sorted (λ x y, key x ≤ key y) (list_sort key l).
Proof.
  induction l as [|a l IH]; simpl; [constructor|].
  by apply sort_insert_sorted.
Qed.

Lemma min_from_spec best l :
  min_from key best l ∈ best :: l
  ∧ ∀ a, a ∈ best :: l → key (min_from key best l) ≤ key a.
Proof.
  revert best. induction l as [|b l IH]; intros best; simpl.
  - split; [left|]. by intros a ->%list_elem_of_singleton.
  - destruct (IH (if decide (key b < key best) then b else best))
      as [Hin Hmin].
    split.
    + apply elem_of_cons in Hin as [->|Hin].
      * case_decide; [right; left|left].
      * by do 2 right.
    + intros a Ha.
      assert (key (min_from key (if decide (key b < key best) then b else best) l)
              ≤ key (if decide (key b < key best) then b else best)) as Hle
        by (apply Hmin; left).
      apply elem_of_cons in Ha as [->|[->|Ha]%elem_of_cons].
      * case_decide; lia.
      * case_decide; lia.
      * apply Hmin. by right.
Qed.

Lemma py_min_spec l best :
  py_min key l = Ok best →
  best ∈ l ∧ ∀ a, a ∈ l → key best ≤ key a.
Proof.
  destruct l as [|a l]; simpl; [done|]. intros [= <-]. apply min_from_spec.
Qed.

End Sorting.

Lemma Sorted_fmap {A B} (R : B → B → Prop) (f : A → B) l :
  Sorted (λ x y, R (f x) (f y)) l → Sorted R (f <$> l).
Proof.
  induction 1 as [|a l Hl IH Ha]; simpl; constructor; [done|].
  destruct Ha; simpl; by constructor.
Qed.

(** ** What [order_domain_values] counts *)

Section Ordering.

Context (cw : Crossword).

Lemma count_conflicts_Ok overlap values link_values removed n :
  count_conflicts overlap values link_values removed = Ok n →
  n = removed + length (filter (disagree overlap values) link_values).
Proof.
  revert removed.
  induction link_values as [|lv rest IH]; intros removed; simpl.
  - intros [= <-]. lia.
  - intros H. apply obind_Ok in H as ([c1 c2] & Hcs & H). simpl in H.
    apply IH in H. rewrite filter_cons.
    destruct (decide (disagree overlap values lv)) as [Hd|Hd].
    + destruct Hd as (c1' & c2' & Hcs' & Hne).
      rewrite Hcs in Hcs'. injection Hcs' as <- <-.
      rewrite decide_True in H by done. simpl. lia.
    + destruct (decide (c1 = c2)) as [->|Hne].
      * rewrite decide_False in H by (by intros ?). lia.
      * destruct Hd. by exists c1, c2.
Qed.

Lemma count_removed_Ok (d : Domains) var values links removed n :
  count_removed cw d var values links removed = Ok n →
  n = removed + eliminated cw d var links values.
Proof.
  revert removed. induction links as [|l links IH]; intros removed; simpl.
  - intros [= <-]. unfold eliminated. simpl. lia.
  - intros H. apply obind_Ok in H as (overlap & Hov & H).
    apply obind_Ok in H as (ls & Hls%getitem_Ok & H).
    apply obind_Ok in H as (n' & Hn' & H).
    apply count_conflicts_Ok in Hn'. apply IH in H.
    assert (overlap_of cw var l = overlap) as Hof.
    { unfold overlap_of. unfold overlaps_get in Hov.
      destruct (overlaps cw var l); [|done]. by injection Hov as ->. }
    unfold eliminated in *. simpl.
    rewrite lookup_total_alt, Hls, Hof. simpl. lia.
Qed.

Lemma build_sort_list_Ok (d : Domains) var domain sort_list :
  build_sort_list cw d var domain = Ok sort_list →
  sort_list
  = (λ w, (w, eliminated cw d var (neighbors cw var) w)) <$> domain.
Proof.
  revert sort_list. induction domain as [|w rest IH]; intros sl; simpl.
  - by intros [= <-].
  - intros H. apply obind_Ok in H as (n & Hn%count_removed_Ok & H).
    apply obind_Ok in H as (more & Hmore%IH & H). injection H as <-.
    by subst.
Qed.

Lemma order_domain_values_Ok (d : Domains) var assignment l :
  order_domain_values cw d var assignment = Ok l →
  ∃ s, d !! var = Some s
     ∧ l = (list_sort snd
              ((λ w, (w, eliminated cw d var (neighbors cw var) w))
                 <$> elements s)).*1.
Proof.
  unfold order_domain_values. intros H.
  apply obind_Ok in H as (s & Hs%getitem_Ok & H).
  apply obind_Ok in H as (sl & Hsl%build_sort_list_Ok & H).
  injection H as <-. subst sl. eauto.
Qed.

End Ordering.

Lemma order_domain_values_perm (cw : Crossword)
    (d : Domains) var assignment l :
  order_domain_values cw d var assignment = Ok l →
  ∃ s, d !! var = Some s ∧ l ≡ₚ elements s.
Proof.
  intros (s & Hs & ->)%order_domain_values_Ok. exists s. split; [done|].
  rewrite (list_sort_perm snd). rewrite <- list_fmap_compose. simpl.
  by rewrite list_fmap_id.
Qed.

(** C6, as amended — [order_domain_values(var, assignment)] returns
    exactly the words of [var]'s domain, in ascending order of the number
    of words they rule out of the domains of all the neighbours of [var],
    whether [assignment] gives them a word or not; a word rules out a
    neighbour's word when the two carry different characters at the
    overlap of the pair. *)
Theorem order_domain_values_counts_all_neighbors (cw : Crossword)
    (d : Domains) var assignment l :
  order_domain_values cw d var assignment = Ok l →
  ∃ s, d !! var = Some s
     ∧ l ≡ₚ elements s
     ∧ Sorted (≤) (eliminated cw d var (neighbors cw var) <$> l).
Proof.
  intros Hrun.
  destruct (order_domain_values_perm _ _ _ _ _ Hrun)
    as (s & Hs & Hperm).
  exists s. split_and!; [done..|].
  apply order_domain_values_Ok in Hrun as (s' & Hs' & ->).
  set (sl := (λ w, (w, eliminated cw d var (neighbors cw var) w))
               <$> elements s').
  assert (∀ p, p ∈ list_sort snd sl →
               p.2 = eliminated cw d var (neighbors cw var) p.1) as Hkey.
  { intros p Hp. rewrite list_sort_perm in Hp.
    apply list_elem_of_fmap in Hp as (w & -> & _). done. }
  rewrite <- list_fmap_compose.
  assert (eliminated cw d var (neighbors cw var) ∘ fst <$> list_sort snd sl
          = snd <$> list_sort snd sl) as ->.
  { apply list_fmap_ext. intros i p Hp. simpl. symmetry. apply Hkey.
    apply list_elem_of_lookup. eauto. }
  apply Sorted_fmap, list_sort_sorted.
Qed.

(** ** What [select_unassigned_variable] returns *)

Section Selecting.

Context (cw : Crossword).

Lemma build_temp_list_Ok (d : Domains) assignment vars temp_list :
  build_temp_list d assignment vars = Ok temp_list →
  temp_list
  = (λ v, (v, size (d !!! v)))
      <$> filter (λ v, dict_get assignment v = None) vars.
Proof.
  revert temp_list. induction vars as [|v vars IH]; intros tl; simpl.
  - by intros [= <-].
  - rewrite filter_cons. destruct (dict_in v assignment) eqn:Hin.
    + intros H%IH. rewrite decide_False; [done|].
      apply dict_in_get in Hin as [w Hw]. by rewrite Hw.
    + apply dict_in_false in Hin. rewrite decide_True by done.
      intros H. apply obind_Ok in H as (s & Hs%getitem_Ok & H).
      apply obind_Ok in H as (more & Hmore%IH & H). injection H as <-.
      subst more. simpl. by rewrite lookup_total_alt, Hs.
Qed.

Lemma build_temp_list_total (d : Domains) assignment vars :
  (∀ v, v ∈ vars → is_Some (d !! v)) →
  ∃ temp_list, build_temp_list d assignment vars = Ok temp_list.
Proof.
  induction vars as [|v vars IH]; intros Hk; simpl; [eauto|].
  destruct IH as [tl Htl]; [intros; apply Hk; by right|].
  destruct (dict_in v assignment); [eauto|].
  destruct (Hk v) as [s Hs]; [left|].
  unfold getitem. rewrite Hs. simpl. rewrite Htl. simpl. eauto.
Qed.

(** The variable returned has no word yet and no unassigned variable has
    a smaller domain. *)
Lemma select_unassigned_variable_Ok (d : Domains) assignment var :
  select_unassigned_variable cw d assignment = Ok var →
  var ∈ variables cw ∧ dict_get assignment var = None
  ∧ ∀ v, v ∈ variables cw → dict_get assignment v = None →
         size (d !!! var) ≤ size (d !!! v).
Proof.
  unfold select_unassigned_variable. intros H.
  apply obind_Ok in H as (tl & Htl%build_temp_list_Ok & H).
  apply obind_Ok in H as (best & [Hin Hmin]%py_min_spec & H).
  injection H as <-. subst tl.
  apply list_elem_of_fmap in Hin as (v0 & -> & [Hv0 Hin]%list_elem_of_filter).
  simpl. split_and!; [done..|].
  intros v Hv Hnone.
  change (size (d !!! v0)) with ((v0, size (d !!! v0)).2).
  change (size (d !!! v)) with ((v, size (d !!! v)).2).
  apply Hmin. apply list_elem_of_fmap.
  exists v. split; [done|]. by apply list_elem_of_filter.
Qed.

Lemma select_unassigned_variable_total (d : Domains) assignment :
  (∀ v, v ∈ variables cw → is_Some (d !! v)) →
  assignment_complete cw assignment = false →
  ∃ var, select_unassigned_variable cw d assignment = Ok var.
Proof.
  intros Hk Hc. unfold select_unassigned_variable.
  destruct (build_temp_list_total d assignment _ Hk) as [tl Htl].
  rewrite Htl. simpl. apply build_temp_list_Ok in Htl.
  destruct tl as [|p tl]; simpl; [|eauto].
  exfalso. apply not_true_iff_false in Hc. apply Hc.
  apply assignment_complete_true. intros v Hv.
  destruct (dict_get assignment v) eqn:Hg; [eauto|].
  symmetry in Htl. apply fmap_nil_inv in Htl.
  assert (v ∈ filter (λ v, dict_get assignment v = None) (variables cw))
    as Hin by (by apply list_elem_of_filter).
  rewrite Htl in Hin. by apply elem_of_nil in Hin.
Qed.

End Selecting.

Import Samples.

(** The domains [comb_domains] are the ones [solve()] searches, and its
    first activation of [backtrack] gives ["CP"] to the slot of length 2. *)
Lemma comb_domains_reached :
  let cw := comb [u2; h5; u3] comb_words in
  let d1 := (enforce_node_consistency cw (init_domains cw)).2 in
  ac3 cw (ac3_fuel cw d1 (initial_queue cw None)) None d1
  = (Ok true, comb_domains)
  ∧ select_unassigned_variable cw comb_domains [] = Ok u2
  ∧ order_domain_values cw comb_domains u2 [] = Ok ["CP"; "AP"; "BP"; "DQ"]
  ∧ select_unassigned_variable cw comb_domains [(u2, "CP")] = Ok h5.
Proof. cbv zeta. evaluate. Qed.

(** C6, as stated, fails: with the slot of length 2 assigned, the order
    returned for the slot of length 5 is not ascending in the number of
    words ruled out of the domains of its unassigned neighbours (that
    number is 3, 3, 2, 3 along the list returned). *)
Lemma order_domain_values_counts_assigned_neighbors :
  let cw := comb [u2; h5; u3] comb_words in
  let a := [(u2, "CP")] in
  order_domain_values cw comb_domains h5 a
  = Ok ["APAGA"; "APAEA"; "AQAFA"; "AQAGA"]
  ∧ eliminated cw comb_domains h5 (unassigned_neighbors cw a h5)
      <$> ["APAGA"; "APAEA"; "AQAFA"; "AQAGA"] = [3; 3; 2; 3]
  ∧ ¬ Sorted (≤)
        (eliminated cw comb_domains h5 (unassigned_neighbors cw a h5)
           <$> ["APAGA"; "APAEA"; "AQAFA"; "AQAGA"]).
Proof.
  assert (eliminated (comb [u2; h5; u3] comb_words) comb_domains h5
            (unassigned_neighbors (comb [u2; h5; u3] comb_words)
               [(u2, "CP")] h5)
            <$> ["APAGA"; "APAEA"; "AQAFA"; "AQAGA"] = [3; 3; 2; 3]) as Hk
    by (vm_compute; reflexivity).
  cbv zeta. split_and!; [vm_compute; reflexivity|exact Hk|].
  rewrite Hk. intros Hs.
  apply Sorted_inv in Hs as [Hs _]. apply Sorted_inv in Hs as [_ Hs].
  apply HdRel_inv in Hs. lia.
Qed.

(** C5 at a failing input: the three variables have domains of the same
    size, the slot of length 5 has two neighbours and the others one, and
    [select_unassigned_variable] returns the slot of length 2, the first
    in the iteration order; so it does in each of the four iteration
    orders that do not start with the slot of length 5. *)
Lemma select_unassigned_variable_ignores_degree :
  let cw := comb [u2; h5; u3] comb_words in
  select_unassigned_variable cw comb_domains [] = Ok u2
  ∧ size (comb_domains !!! u2) = size (comb_domains !!! h5)
  ∧ length (neighbors cw u2) = 1 ∧ length (neighbors cw h5) = 2
  ∧ Forall (λ vars,
       ∃ var, head vars = Some var ∧ var ≠ h5
         ∧ select_unassigned_variable (comb vars comb_words) comb_domains []
           = Ok var)
      [[u2; h5; u3]; [u2; u3; h5]; [u3; h5; u2]; [u3; u2; h5]].
Proof.
  cbv zeta. split_and!; [by vm_compute..|].
  repeat constructor.
  - exists u2. split_and!; [done|done|by vm_compute].
  - exists u2. split_and!; [done|done|by vm_compute].
  - exists u3. split_and!; [done|done|by vm_compute].
  - exists u3. split_and!; [done|done|by vm_compute].
Qed.

(** ** Nothing raises on a well-formed crossword *)

Lemma str_index_lt s n :
  n < String.length s → ∃ c, str_index s n = Ok c.
Proof.
  unfold str_index. revert n.
  induction s as [|c s IH]; intros n; simpl; [lia|].
  destruct n as [|n]; [eauto|]. intros Hn. apply IH. lia.
Qed.

Lemma overlap_chars_total a b w w' :
  a < String.length w → b < String.length w' →
  ∃ cs, overlap_chars (Some (a, b)) w w' = Ok cs.
Proof.
  intros [c1 H1]%str_index_lt [c2 H2]%str_index_lt.
  unfold overlap_chars. rewrite H1, H2. simpl. eauto.
Qed.

Lemma covers_le cw (d' d : Domains) :
  domains_le d' d → covers cw d → covers cw d'.
Proof.
  intros Hle Hc v Hv. destruct (Hc v Hv) as [xs Hxs].
  destruct (domains_le_lookup_r _ _ _ _ Hle Hxs) as (xs' & -> & _). eauto.
Qed.

Lemma node_consistent_le (d' d : Domains) :
  domains_le d' d → node_consistent d → node_consistent d'.
Proof.
  intros Hle Hn v xs' w Hxs' Hw.
  destruct (domains_le_lookup _ _ _ _ Hle Hxs') as (xs & Hxs & Hsub).
  eapply Hn; [done|]. by apply Hsub.
Qed.

Section NoRaise.

Context (cw : Crossword).
Context (Hwf : wf_crossword cw = true).

Lemma for_each_enforce_var_lookup vars (d : Domains) :
  (∀ v, v ∈ vars → is_Some (d !! v)) →
  ∃ d', for_each enforce_var vars d = (Ok tt, d')
    ∧ ∀ v, d' !! v
           = if decide (v ∈ vars)
             then filter (λ w, String.length w = var_length v) <$> d !! v
             else d !! v.
Proof.
  revert d. induction vars as [|var vars IH]; intros d Hk; simpl.
  { exists d. split; [done|]. intros v.
    destruct (decide (v ∈ [])) as [?%elem_of_nil|]; done. }
  destruct (Hk var) as [s Hs]; [left|].
  unfold sbind. rewrite (enforce_var_Some _ _ s Hs).
  set (d1 := <[var := filter (λ w, String.length w = var_length var) s]> d).
  destruct (IH d1) as (d' & Hrun & Hd').
  { intros v Hv. unfold d1. destruct (decide (var = v)) as [->|Hne].
    - rewrite lookup_insert_eq. eauto.
    - rewrite lookup_insert_ne by done. apply Hk. by right. }
  exists d'. split; [done|]. intros v. rewrite Hd'. unfold d1.
  destruct (decide (v = var)) as [->|Hne].
  - rewrite lookup_insert_eq, Hs.
    rewrite (decide_True (P := var ∈ var :: vars)) by left. simpl.
    case_decide; [|done]. simpl. f_equal. apply set_eq. intros w.
    rewrite !elem_of_filter. naive_solver.
  - rewrite lookup_insert_ne by done.
    destruct (decide (v ∈ vars)) as [Hin|Hin].
    + by rewrite (decide_True (P := v ∈ var :: vars)) by (by right).
    + rewrite (decide_False (P := v ∈ var :: vars)); [done|].
      by intros [?|?]%elem_of_cons.
Qed.

Lemma enforce_node_consistency_init :
  ∃ d1, enforce_node_consistency cw (init_domains cw) = (Ok tt, d1)
    ∧ covers cw d1 ∧ keyed cw d1 ∧ node_consistent d1
    ∧ (∀ v xs, d1 !! v = Some xs → xs ⊆ words cw)
    ∧ ∀ v w, v ∈ variables cw → w ∈ words cw →
             String.length w = var_length v →
             ∃ xs, d1 !! v = Some xs ∧ w ∈ xs.
Proof.
  destruct (for_each_enforce_var_lookup (variables cw) (init_domains cw))
    as (d1 & Hrun & Hd1).
  { intros v Hv. rewrite init_domains_lookup, decide_True by done. eauto. }
  exists d1. split; [done|].
  assert (∀ v, d1 !! v
               = if decide (v ∈ variables cw)
                 then Some (filter (λ w, String.length w = var_length v)
                                   (words cw))
                 else None) as Hl.
  { intros v. rewrite Hd1, init_domains_lookup. by case_decide. }
  split_and!.
  - intros v Hv. rewrite Hl, decide_True by done. eauto.
  - intros v [xs Hxs]. rewrite Hl in Hxs. by case_decide.
  - intros v xs w Hxs Hw. rewrite Hl in Hxs. case_decide; [|done].
    injection Hxs as <-. by apply elem_of_filter in Hw as [? _].
  - intros v xs Hxs. rewrite Hl in Hxs. case_decide; [|done].
    injection Hxs as <-. intros w Hw. by apply elem_of_filter in Hw as [_ ?].
  - intros v w Hv Hw Hlen. rewrite Hl, decide_True by done.
    eexists. split; [done|]. by apply elem_of_filter.
Qed.

Lemma revise_scan_x_total overlap (d : Domains) y ys l :
  d !! y = Some ys →
  (∀ w w', w ∈ l → w' ∈ ys → ∃ cs, overlap_chars overlap w w' = Ok cs) →
  ∃ rw, revise_scan_x overlap d y l = Ok rw.
Proof.
  intros Hy. induction l as [|w l IH]; intros Hall; simpl; [eauto|].
  unfold getitem. rewrite Hy. simpl.
  destruct (revise_scan_y_total overlap w (elements ys) true) as [r ->].
  { intros w' Hw'%elem_of_elements. apply Hall; [left|done]. }
  simpl. destruct IH as [rw ->].
  { intros w0 w' Hw0 Hw'. apply Hall; [by right|done]. }
  simpl. eauto.
Qed.

Lemma revise_total x y (d : Domains) :
  x ∈ variables cw → y ∈ neighbors cw x →
  covers cw d → node_consistent d →
  ∃ b d', revise cw x y d = (Ok b, d').
Proof.
  intros Hx Hy Hc Hn.
  destruct (wf_crossword_arc _ _ _ Hwf Hx Hy)
    as (Hyv & _ & _ & a & b & Hov & _ & Ha & Hb).
  destruct (Hc x Hx) as [xs Hxs]. destruct (Hc y Hyv) as [ys Hys].
  destruct (revise_scan_x_total (Some (a, b)) d y ys (elements xs) Hys)
    as [rw Hrw].
  { intros w w' Hw%elem_of_elements Hw'. apply overlap_chars_total.
    - by rewrite (Hn _ _ _ Hxs Hw).
    - by rewrite (Hn _ _ _ Hys Hw'). }
  destruct (revise_scan_x_Ok _ _ _ _ _ Hrw) as [Hsub _].
  unfold revise, sbind, reading, overlaps_get. rewrite Hov. simpl.
  unfold getitem. rewrite Hxs. simpl. rewrite Hrw.
  rewrite (for_each_domain_remove _ _ _ xs); [unfold ret; eauto|done|..].
  - apply (sublist_NoDup _ (elements xs)); [apply NoDup_elements|done].
  - intros w Hw. apply elem_of_elements. by eapply elem_of_sublist.
Qed.

End NoRaise.

Section AC3Total.

Context (cw : Crossword).
Context (Hwf : wf_crossword cw = true).

Lemma arcs_ok_initial : arcs_ok cw (initial_queue cw None).
Proof.
  intros x y Hin. simpl in Hin.
  apply list_elem_of_bind in Hin as (x' & Hin & Hx').
  apply list_elem_of_bind in Hin as (y' & Hin & Hy').
  apply list_elem_of_singleton in Hin as [= -> ->]. done.
Qed.

Lemma arcs_ok_step x y rest :
  arcs_ok cw ((x, y) :: rest) →
  arcs_ok cw (rest ++ ((λ linked_var, (linked_var, x)) <$>
                       filter (λ z, z ≠ y) (neighbors cw x))).
Proof.
  intros Hq u v [Hin|Hin]%elem_of_app.
  - apply Hq. by right.
  - apply list_elem_of_fmap in Hin as (z & [= -> ->] & [_ Hz]%list_elem_of_filter).
    destruct (Hq x y) as [Hx _]; [left|].
    destruct (wf_crossword_arc _ _ _ Hwf Hx Hz) as (? & _ & ? & _). done.
Qed.

Lemma ac3_loop_no_raise fuel queue (d : Domains) e :
  covers cw d → node_consistent d → arcs_ok cw queue →
  (ac3_loop cw fuel queue d).1 ≠ Raise e.
Proof.
  revert queue d.
  induction fuel as [|fuel IH]; intros [|[x y] rest] d Hc Hn Hq; simpl;
    try done.
  destruct (Hq x y) as [Hx Hy]; [left|].
  destruct (revise_total cw Hwf x y d Hx Hy Hc Hn) as (b & d1 & Hrev).
  pose proof (revise_shrinks cw x y d) as Hle. rewrite Hrev in Hle.
  simpl in Hle.
  unfold sbind at 1. rewrite Hrev.
  assert (arcs_ok cw rest) as Hrest by (intros ???; apply Hq; by right).
  destruct b.
  - unfold sbind, reading.
    destruct (covers_le _ _ _ Hle Hc x Hx) as [s Hs].
    unfold getitem. rewrite Hs. simpl.
    case_decide; [done|].
    apply IH; [by eapply covers_le|by eapply node_consistent_le|].
    by apply arcs_ok_step.
  - apply IH; [by eapply covers_le|by eapply node_consistent_le|done].
Qed.

Lemma revise_contains x y (d : Domains) s :
  x ∈ variables cw → y ∈ neighbors cw x →
  solution cw s → contains cw d s →
  contains cw (revise cw x y d).2 s.
Proof.
  intros Hx Hy Hsol Hcon.
  destruct (revise cw x y d) as [o d'] eqn:Hrev. simpl.
  destruct o as [b|e|]; cycle 1.
  { apply (revise_not_Ok cw) in Hrev as [-> _]; done. }
  { apply (revise_not_Ok cw) in Hrev as [-> _]; done. }
  apply revise_result in Hrev
    as (overlap & xs & xs' & Hov & Hxs & -> & Hsub & _ & _ & Hall).
  intros v w Hv Hw. destruct (decide (v = x)) as [->|Hne].
  2:{ rewrite lookup_insert_ne by done. by apply Hcon. }
  rewrite lookup_insert_eq. exists xs'. split; [done|].
  destruct (Hcon x w Hx Hw) as (xs0 & Hxs0 & Hwx).
  rewrite Hxs in Hxs0. injection Hxs0 as <-.
  destruct (Hall w Hwx) as (ys & Hys & Hiff). apply Hiff.
  destruct (wf_crossword_arc _ _ _ Hwf Hx Hy) as (Hyv & _).
  destruct (solution_complete _ _ Hsol y Hyv) as [wy Hwy].
  destruct (Hcon y wy Hyv Hwy) as (ys0 & Hys0 & Hwyin).
  rewrite Hys in Hys0. injection Hys0 as <-.
  exists wy. split; [done|].
  destruct (solution_overlaps _ _ Hsol x y w wy Hy Hw Hwy)
    as (ix & iy & c & Hov' & Hc1 & Hc2).
  rewrite Hov in Hov'. injection Hov' as ->.
  apply agree_chars. eauto.
Qed.

Lemma ac3_loop_contains fuel queue (d : Domains) s :
  arcs_ok cw queue → solution cw s → contains cw d s →
  contains cw (ac3_loop cw fuel queue d).2 s.
Proof.
  revert queue d.
  induction fuel as [|fuel IH]; intros [|[x y] rest] d Hq Hsol Hcon; simpl;
    try done.
  destruct (Hq x y) as [Hx Hy]; [left|].
  pose proof (revise_contains x y d s Hx Hy Hsol Hcon) as Hcon1.
  assert (arcs_ok cw rest) as Hrest by (intros ???; apply Hq; by right).
  unfold sbind at 1.
  destruct (revise cw x y d) as [[[|]|e|] d1]; simpl in *; try done.
  - unfold sbind, reading. destruct (getitem d1 x); simpl; try done.
    case_decide; simpl; [done|]. apply IH; [|done..].
    by apply arcs_ok_step.
  - by apply IH.
Qed.

(** The AC-3 phase of [solve] returns. *)
Lemma ac3_returns (d : Domains) :
  covers cw d → keyed cw d → node_consistent d →
  ∃ b d', ac3 cw (ac3_fuel cw d (initial_queue cw None)) None d = (Ok b, d')
    ∧ domains_le d' d.
Proof.
  intros Hc Hk Hn.
  pose proof (ac3_fuel_enough cw None d Hk) as Hfuel.
  pose proof (ac3_loop_no_raise (ac3_fuel cw d (initial_queue cw None))
                (initial_queue cw None) d) as Hraise.
  pose proof (ac3_loop_shrinks cw (ac3_fuel cw d (initial_queue cw None))
                (initial_queue cw None) d) as Hle.
  unfold ac3 in *.
  destruct (ac3_loop cw _ _ d) as [[b|e|] d']; simpl in *.
  - eauto.
  - by destruct (Hraise e Hc Hn arcs_ok_initial).
  - done.
Qed.

End AC3Total.

(** ** Dicts with unique keys *)

Lemma dict_get_None_keys (a : list (variable * string)) var :
  dict_get a var = None ↔ var ∉ a.*1.
Proof.
  rewrite <- dict_in_false. unfold dict_in.
  by rewrite bool_decide_eq_false.
Qed.

Lemma dict_setitem_fresh var value (a : list (variable * string)) :
  dict_get a var = None → dict_setitem var value a = a ++ [(var, value)].
Proof.
  induction a as [|[k w] a IH]; simpl; [done|].
  case_decide; [done|]. intros Hg. by rewrite IH.
Qed.

Lemma dict_get_unique (a : list (variable * string)) k w :
  NoDup a.*1 → (k, w) ∈ a → dict_get a k = Some w.
Proof.
  induction a as [|[k' w'] a IH]; simpl.
  - by intros _ ?%elem_of_nil.
  - intros [Hk' Hnd]%NoDup_cons [[= -> ->]|Hin]%elem_of_cons.
    + by rewrite decide_True.
    + rewrite decide_False; [by apply IH|].
      intros ->. apply Hk'. apply list_elem_of_fmap. by exists (k, w).
Qed.

Lemma NoDup_values (a : list (variable * string)) :
  NoDup a.*1 →
  (∀ v1 v2 w1 w2, v1 ≠ v2 →
     dict_get a v1 = Some w1 → dict_get a v2 = Some w2 → w1 ≠ w2) →
  NoDup a.*2.
Proof.
  induction a as [|[k w] a IH]; simpl; [constructor|].
  intros [Hk Hnd]%NoDup_cons Hdist. constructor.
  - intros Hw. apply list_elem_of_fmap in Hw as ([k' w'] & Heq & Hin).
    simpl in Heq. subst w'.
    assert (k' ≠ k) as Hne.
    { intros ->. apply Hk. apply list_elem_of_fmap. by exists (k, w). }
    apply (Hdist k k' w w); [done|by rewrite decide_True|..|done].
    rewrite decide_False by done. by apply dict_get_unique.
  - apply IH; [done|]. intros v1 v2 w1 w2 Hne H1 H2.
    assert (∀ v w0, dict_get a v = Some w0 → k ≠ v) as Hkv.
    { intros v w0 Hv%dict_get_elem_of ->. apply Hk.
      apply list_elem_of_fmap. by exists (v, w0). }
    apply (Hdist v1 v2); [done|..];
      rewrite decide_False by (by eapply Hkv); done.
Qed.

Lemma length_filter_lt {A} (P Q : A → Prop)
    `{∀ x, Decision (P x)} `{∀ x, Decision (Q x)} (l : list A) x :
  (∀ y, P y → Q y) → x ∈ l → Q x → ¬ P x →
  length (filter P l) < length (filter Q l).
Proof.
  intros HPQ Hx HQ HnP.
  assert (∀ l', length (filter P l') ≤ length (filter Q l')) as Hle.
  { induction l' as [|y l' IH]; [done|]. rewrite !filter_cons.
    destruct (decide (P y)) as [HP|HP].
    - rewrite decide_True by auto. simpl. lia.
    - destruct (decide (Q y)); simpl; lia. }
  induction Hx as [x l|x y l Hx IH]; rewrite !filter_cons.
  - rewrite decide_False, decide_True by done. simpl. specialize (Hle l). lia.
  - try specialize (IH HQ HnP). specialize (Hle l).
    destruct (decide (P y)) as [HP|HP].
    + rewrite decide_True by auto. simpl. lia.
    + destruct (decide (Q y)); simpl; lia.
Qed.

(** ** The search returns, and finds a solution when there is one *)

Section SearchTotal.

Context (cw : Crossword).
Context (Hwf : wf_crossword cw = true).
Context (d : Domains).
Context (Hcov : covers cw d) (Hnode : node_consistent d).

Lemma wf_variable_neighbor x y :
  x ∈ variables cw → y ∈ neighbors cw x →
  y ∈ variables cw
  ∧ ∃ a b, overlaps cw x y = Some (Some (a, b))
         ∧ a < var_length x ∧ b < var_length y.
Proof.
  intros Hx Hy.
  destruct (wf_crossword_arc _ _ _ Hwf Hx Hy)
    as (? & _ & _ & a & b & ? & _ & ? & ?).
  eauto 10.
Qed.

Lemma consistent_links_total (a : list (variable * string)) var wv links :
  (∀ v w, dict_get a v = Some w → String.length w = var_length v) →
  var ∈ variables cw → dict_get a var = Some wv →
  (∀ l, l ∈ links → l ∈ neighbors cw var) →
  ∃ b, consistent_links cw a var links = Ok b.
Proof.
  intros Hlen Hvar Hwv.
  induction links as [|l links IH]; intros Hl; simpl; [eauto|].
  destruct (wf_variable_neighbor var l Hvar) as (_ & ix & iy & Hov & Hix & Hiy).
  { apply Hl. left. }
  destruct IH as [b IH]; [intros; apply Hl; by right|].
  unfold overlaps_get. rewrite Hov. cbn [obind].
  destruct (dict_in l a) eqn:Hin; [|eauto].
  apply dict_in_get in Hin as [wl Hwl].
  unfold dict_getitem. rewrite Hwv, Hwl. cbn [obind].
  destruct (overlap_chars_total ix iy wv wl) as [cs ->].
  { by rewrite (Hlen _ _ Hwv). }
  { by rewrite (Hlen _ _ Hwl). }
  cbn [obind]. case_decide; eauto.
Qed.

Lemma consistent_vars_total (a : list (variable * string)) vars :
  (∀ v w, dict_get a v = Some w →
          v ∈ variables cw ∧ String.length w = var_length v) →
  (∀ v, v ∈ vars → is_Some (dict_get a v)) →
  ∃ b, consistent_vars cw a vars = Ok b.
Proof.
  intros Hlen. induction vars as [|v vars IH]; intros Hk; simpl; [eauto|].
  destruct (Hk v) as [w Hw]; [left|].
  destruct IH as [b IH]; [intros; apply Hk; by right|].
  unfold dict_getitem. rewrite Hw. cbn [obind].
  case_decide; [eauto|].
  destruct (consistent_links_total a v w (neighbors cw v)) as [bl ->];
    [naive_solver|naive_solver|done|done|].
  cbn [obind]. destruct bl; eauto.
Qed.

Lemma consistent_total (a : list (variable * string)) :
  (∀ v w, dict_get a v = Some w →
          v ∈ variables cw ∧ String.length w = var_length v) →
  ∃ b, consistent cw a = Ok b.
Proof.
  intros Hlen. unfold consistent. case_decide; [eauto|].
  apply consistent_vars_total; [done|].
  intros v Hv. apply dict_in_get. unfold dict_in.
  by apply bool_decide_eq_true.
Qed.

Lemma consistent_links_intro (a : list (variable * string)) var links :
  var ∈ variables cw →
  (∀ l, l ∈ links → l ∈ neighbors cw var) →
  (∀ y wx wy, y ∈ neighbors cw var →
     dict_get a var = Some wx → dict_get a y = Some wy →
     ∃ ix iy c, overlaps cw var y = Some (Some (ix, iy))
              ∧ str_index wx ix = Ok c ∧ str_index wy iy = Ok c) →
  is_Some (dict_get a var) →
  consistent_links cw a var links = Ok true.
Proof.
  intros Hvar Hl Hov [wv Hwv].
  induction links as [|l links IH]; simpl; [done|].
  assert (l ∈ neighbors cw var) as Hn by (apply Hl; left).
  destruct (wf_variable_neighbor var l Hvar Hn) as (_ & ix & iy & Ho & _).
  unfold overlaps_get. rewrite Ho. cbn [obind].
  rewrite IH by (intros; apply Hl; by right).
  destruct (dict_in l a) eqn:Hin; [|done].
  apply dict_in_get in Hin as [wl Hwl].
  unfold dict_getitem. rewrite Hwv, Hwl. cbn [obind].
  destruct (Hov l wv wl Hn Hwv Hwl) as (ix' & iy' & c & Ho' & Hc1 & Hc2).
  rewrite Ho in Ho'. injection Ho' as <- <-.
  unfold overlap_chars. rewrite Hc1, Hc2. cbn [obind].
  by rewrite decide_False by (by intros ?).
Qed.

Lemma consistent_intro (a : list (variable * string)) :
  NoDup a.*2 →
  (∀ v w, dict_get a v = Some w →
          v ∈ variables cw ∧ String.length w = var_length v) →
  (∀ x y wx wy, y ∈ neighbors cw x →
     dict_get a x = Some wx → dict_get a y = Some wy →
     ∃ ix iy c, overlaps cw x y = Some (Some (ix, iy))
              ∧ str_index wx ix = Ok c ∧ str_index wy iy = Ok c) →
  consistent cw a = Ok true.
Proof.
  intros Hnd Hlen Hov. unfold consistent.
  rewrite decide_False
    by (intros Hne; apply Hne; by apply length_list_to_set_NoDup).
  assert (∀ vars, (∀ v, v ∈ vars → is_Some (dict_get a v)) →
                  consistent_vars cw a vars = Ok true) as Hvars.
  { induction vars as [|v vars IH]; intros Hk; simpl; [done|].
    destruct (Hk v) as [w Hw]; [left|].
    unfold dict_getitem. rewrite Hw. cbn [obind].
    destruct (Hlen _ _ Hw) as [Hv Hl].
    rewrite decide_False by (by intros ?).
    rewrite consistent_links_intro; [|done|done|by intros; eapply Hov|eauto].
    cbn [obind]. apply IH. intros; apply Hk; by right. }
  apply Hvars. intros v Hv. apply dict_in_get. unfold dict_in.
  by apply bool_decide_eq_true.
Qed.

End SearchTotal.

Section OrderTotal.

Context (cw : Crossword).
Context (Hwf : wf_crossword cw = true).
Context (d : Domains).
Context (Hcov : covers cw d) (Hnode : node_consistent d).

Lemma count_conflicts_total ix iy values link_values removed :
  ix < String.length values →
  (∀ lv, lv ∈ link_values → iy < String.length lv) →
  ∃ n, count_conflicts (Some (ix, iy)) values link_values removed = Ok n.
Proof.
  intros Hix. revert removed.
  induction link_values as [|lv rest IH]; intros removed Hiy;
    cbn [count_conflicts]; [eauto|].
  destruct (overlap_chars_total ix iy values lv) as [cs ->];
    [done|apply Hiy; left|].
  cbn [obind]. apply IH. intros; apply Hiy; by right.
Qed.

Lemma count_removed_total var values links removed :
  var ∈ variables cw → String.length values = var_length var →
  (∀ l, l ∈ links → l ∈ neighbors cw var) →
  ∃ n, count_removed cw d var values links removed = Ok n.
Proof.
  intros Hvar Hlen. revert removed.
  induction links as [|l links IH]; intros removed Hl;
    cbn [count_removed]; [eauto|].
  destruct (wf_variable_neighbor cw Hwf var l Hvar)
    as (Hlv & ix & iy & Hov & Hix & Hiy); [apply Hl; left|].
  destruct (Hcov l Hlv) as [ls Hls].
  unfold overlaps_get, getitem. rewrite Hov, Hls. cbn [obind].
  destruct (count_conflicts_total ix iy values (elements ls) removed)
    as [n ->].
  { by rewrite Hlen. }
  { intros lv Hlv'%elem_of_elements. by rewrite (Hnode _ _ _ Hls Hlv'). }
  cbn [obind]. apply IH. intros; apply Hl; by right.
Qed.

Lemma build_sort_list_total var domain :
  var ∈ variables cw →
  (∀ w, w ∈ domain → String.length w = var_length var) →
  ∃ sort_list, build_sort_list cw d var domain = Ok sort_list.
Proof.
  intros Hvar. induction domain as [|w rest IH]; intros Hlen;
    cbn [build_sort_list]; [eauto|].
  destruct (count_removed_total var w (neighbors cw var) 0) as [n ->];
    [done|apply Hlen; left|done|].
  cbn [obind]. destruct IH as [more ->]; [intros; apply Hlen; by right|].
  cbn [obind]. eauto.
Qed.

Lemma order_domain_values_total var assignment :
  var ∈ variables cw →
  ∃ xs l, d !! var = Some xs
        ∧ order_domain_values cw d var assignment = Ok l
        ∧ l ≡ₚ elements xs.
Proof.
  intros Hvar. destruct (Hcov var Hvar) as [xs Hxs].
  destruct (build_sort_list_total var (elements xs) Hvar) as [sl Hsl].
  { intros w Hw%elem_of_elements. by eapply Hnode. }
  assert (order_domain_values cw d var assignment = Ok (list_sort snd sl).*1)
    as Hrun.
  { unfold order_domain_values, getitem. rewrite Hxs. cbn [obind].
    by rewrite Hsl. }
  exists xs, (list_sort snd sl).*1. split_and!; [done..|].
  destruct (order_domain_values_perm cw d var assignment
              _ Hrun) as (xs' & Hxs' & Hperm).
  rewrite Hxs in Hxs'. by injection Hxs' as <-.
Qed.

End OrderTotal.

Section SearchComplete.

Context (cw : Crossword).
Context (Hwf : wf_crossword cw = true).
Context (d : Domains).
Context (Hcov : covers cw d) (Hnode : node_consistent d).

Lemma domain_valued_lengths a :
  domain_valued cw d a →
  ∀ v w, dict_get a v = Some w →
         v ∈ variables cw ∧ String.length w = var_length v.
Proof.
  intros [_ Ha] v w Hw. destruct (Ha v w Hw) as (Hv & xs & Hxs & Hin).
  split; [done|]. by eapply Hnode.
Qed.

Lemma domain_valued_setitem a var xs c :
  domain_valued cw d a → var ∈ variables cw → dict_get a var = None →
  d !! var = Some xs → c ∈ xs →
  domain_valued cw d (dict_setitem var c a).
Proof.
  intros [Hnd Ha] Hvar Hnone Hxs Hc. split.
  - rewrite dict_setitem_fresh, fmap_app by done. simpl.
    apply NoDup_app. split_and!; [done| |apply NoDup_singleton].
    intros v Hv ->%list_elem_of_singleton.
    by apply dict_get_None_keys in Hnone.
  - intros v w. rewrite dict_get_setitem. case_decide as Hv.
    + intros [= <-]. subst v. eauto.
    + apply Ha.
Qed.

Lemma unassigned_setitem a var c :
  var ∈ variables cw → dict_get a var = None →
  length (unassigned cw (dict_setitem var c a)) < length (unassigned cw a).
Proof.
  intros Hvar Hnone. unfold unassigned.
  apply (length_filter_lt _ _ _ var); [|done|done|].
  - intros y. rewrite dict_get_setitem. by case_decide.
  - rewrite dict_get_setitem, decide_True by done. done.
Qed.

Lemma try_values_pure_total rec a var candidates :
  (∀ c, c ∈ candidates →
        ∃ b, consistent cw (dict_setitem var c a) = Ok b) →
  (∀ c, c ∈ candidates → ∃ r, rec (dict_setitem var c a) = Ok r) →
  ∃ r, try_values_pure cw rec a var candidates = Ok r.
Proof.
  induction candidates as [|c rest IH]; intros Hcons Hrec;
    cbn [try_values_pure]; [eauto|].
  destruct IH as [r IH].
  { intros; apply Hcons; by right. }
  { intros; apply Hrec; by right. }
  destruct (Hcons c) as [b ->]; [left|]. cbn [obind].
  destruct b; [|eauto].
  destruct (Hrec c) as [[r'|] ->]; [left|..]; cbn [obind]; eauto.
Qed.

Lemma candidates_consistent a var xs candidates :
  domain_valued cw d a → var ∈ variables cw → dict_get a var = None →
  d !! var = Some xs → candidates ≡ₚ elements xs →
  ∀ c, c ∈ candidates →
    domain_valued cw d (dict_setitem var c a)
    ∧ ∃ b, consistent cw (dict_setitem var c a) = Ok b.
Proof.
  intros Ha Hvar Hnone Hxs Hperm c Hc.
  rewrite Hperm in Hc. apply elem_of_elements in Hc.
  assert (domain_valued cw d (dict_setitem var c a)) as Hna
    by (by eapply domain_valued_setitem).
  split; [done|].
  apply (consistent_total cw Hwf). by apply domain_valued_lengths.
Qed.

Lemma backtrack_pure_total fuel a :
  domain_valued cw d a → length (unassigned cw a) < fuel →
  ∃ r, backtrack_pure cw fuel d a = Ok r.
Proof.
  revert a. induction fuel as [|fuel IH]; intros a Ha Hfuel; [lia|].
  cbn [backtrack_pure].
  destruct (assignment_complete cw a) eqn:Hc; [eauto|].
  destruct (select_unassigned_variable_total cw d a Hcov Hc) as [var Hsel].
  rewrite Hsel. cbn [obind].
  apply select_unassigned_variable_Ok in Hsel as (Hvar & Hnone & _).
  destruct (order_domain_values_total cw Hwf d Hcov Hnode var a Hvar)
    as (xs & candidates & Hxs & -> & Hperm).
  cbn [obind].
  pose proof (candidates_consistent a var xs candidates Ha Hvar Hnone Hxs
                Hperm) as Hcand.
  apply try_values_pure_total.
  - intros c Hc'. by destruct (Hcand c Hc').
  - intros c Hc'. destruct (Hcand c Hc') as [Hna _]. apply IH; [done|].
    pose proof (unassigned_setitem a var c Hvar Hnone). lia.
Qed.

Lemma try_values_pure_complete rec a var candidates w :
  w ∈ candidates →
  consistent cw (dict_setitem var w a) = Ok true →
  (∃ r, rec (dict_setitem var w a) = Ok (Some r)) →
  (∀ c, c ∈ candidates →
        ∃ b, consistent cw (dict_setitem var c a) = Ok b) →
  (∀ c, c ∈ candidates → ∃ r, rec (dict_setitem var c a) = Ok r) →
  ∃ r, try_values_pure cw rec a var candidates = Ok (Some r).
Proof.
  intros Hw Hok [rw Hrw].
  induction candidates as [|c rest IH]; intros Hcons Hrec;
    cbn [try_values_pure].
  { by apply elem_of_nil in Hw. }
  destruct (decide (c = w)) as [->|Hne].
  { rewrite Hok. cbn [obind]. rewrite Hrw. cbn [obind]. eauto. }
  apply elem_of_cons in Hw as [?|Hw]; [done|].
  destruct IH as [r IH]; [done|..].
  { intros; apply Hcons; by right. }
  { intros; apply Hrec; by right. }
  destruct (Hcons c) as [b ->]; [left|]. cbn [obind].
  destruct b; [|eauto].
  destruct (Hrec c) as [[r'|] ->]; [left|..]; cbn [obind]; eauto.
Qed.

Lemma extends_to_consistent a s :
  solution cw s → domain_valued cw d a → extends_to a s →
  consistent cw a = Ok true.
Proof.
  intros Hsol Ha Hext. apply (consistent_intro cw Hwf).
  - apply NoDup_values; [apply Ha|].
    intros v1 v2 w1 w2 Hne H1%Hext H2%Hext.
    by eapply solution_distinct.
  - by apply domain_valued_lengths.
  - intros x y wx wy Hy Hx%Hext Hwy%Hext. by eapply solution_overlaps.
Qed.

Lemma backtrack_pure_complete fuel a s :
  solution cw s → contains cw d s →
  domain_valued cw d a → extends_to a s →
  length (unassigned cw a) < fuel →
  ∃ r, backtrack_pure cw fuel d a = Ok (Some r).
Proof.
  intros Hsol Hcon. revert a.
  induction fuel as [|fuel IH]; intros a Ha Hext Hfuel; [lia|].
  cbn [backtrack_pure].
  destruct (assignment_complete cw a) eqn:Hc; [eauto|].
  destruct (select_unassigned_variable_total cw d a Hcov Hc) as [var Hsel].
  rewrite Hsel. cbn [obind].
  apply select_unassigned_variable_Ok in Hsel as (Hvar & Hnone & _).
  destruct (order_domain_values_total cw Hwf d Hcov Hnode var a Hvar)
    as (xs & candidates & Hxs & -> & Hperm).
  cbn [obind].
  pose proof (candidates_consistent a var xs candidates Ha Hvar Hnone Hxs
                Hperm) as Hcand.
  destruct (solution_complete _ _ Hsol var Hvar) as [w Hw].
  destruct (Hcon var w Hvar Hw) as (xs' & Hxs' & Hin).
  rewrite Hxs in Hxs'. injection Hxs' as <-.
  assert (w ∈ candidates) as Hwc
    by (rewrite Hperm; by apply elem_of_elements).
  assert (extends_to (dict_setitem var w a) s) as Hext'.
  { intros v w'. rewrite dict_get_setitem. case_decide; [|apply Hext].
    intros [= <-]. by subst. }
  assert (∀ c, c ∈ candidates →
               length (unassigned cw (dict_setitem var c a)) < fuel)
    as Hless.
  { intros c _. pose proof (unassigned_setitem a var c Hvar Hnone). lia. }
  apply (try_values_pure_complete _ _ _ _ w); [done|..].
  - apply (extends_to_consistent _ s); [done| |done].
    by destruct (Hcand w Hwc).
  - apply IH; [by destruct (Hcand w Hwc)|done|by apply Hless].
  - intros c Hc'. by destruct (Hcand c Hc').
  - intros c Hc'. destruct (Hcand c Hc') as [Hna _].
    apply backtrack_pure_total; [done|by apply Hless].
Qed.

End SearchComplete.

Section SearchResult.

Context (cw : Crossword).

Lemma backtrack_pure_domain_valued fuel (d : Domains) a r :
  domain_valued cw d a → backtrack_pure cw fuel d a = Ok (Some r) →
  domain_valued cw d r.
Proof.
  revert a. induction fuel as [|fuel IH]; intros a Ha; simpl; [done|].
  destruct (assignment_complete cw a).
  { by intros [= <-]. }
  intros H. apply obind_Ok in H as (var & Hsel & H).
  apply obind_Ok in H as (candidates & Hord & H).
  apply select_unassigned_variable_Ok in Hsel as (Hvar & Hnone & _).
  apply order_domain_values_perm in Hord as (xs & Hxs & Hperm).
  apply try_values_pure_sound in H as (c & Hc & _ & H).
  apply IH in H; [done|].
  destruct Ha as [Hnd Ha]. split.
  - rewrite dict_setitem_fresh, fmap_app by done. simpl.
    apply NoDup_app. split_and!; [done| |apply NoDup_singleton].
    intros v Hv ->%list_elem_of_singleton.
    by apply dict_get_None_keys in Hnone.
  - intros v w. rewrite dict_get_setitem. case_decide as Hv; [|apply Ha].
    intros [= <-]. subst v. split; [done|]. exists xs. split; [done|].
    apply elem_of_elements. by rewrite <- Hperm.
Qed.

End SearchResult.

(** The words of what [solve] returns come from the word list. *)
Lemma solve_from_word_list (cw : Crossword) a :
  solve cw = Ok (Some a) → from_word_list cw a.
Proof.
  rewrite solve_pure.
  pose proof (enforce_node_consistency_shrinks cw (init_domains cw)) as Hle1.
  destruct (enforce_node_consistency cw (init_domains cw)) as [[?|?|] d1];
    [|done..].
  pose proof (ac3_loop_shrinks cw (ac3_fuel cw d1 (initial_queue cw None))
                (initial_queue cw None) d1) as Hle2.
  unfold ac3.
  destruct (ac3_loop cw _ _ d1) as [[?|?|] d2]; [|done..].
  simpl in Hle1, Hle2. intros Hrun. apply backtrack_pure_domain_valued in Hrun as [_ Hr].
  2:{ split; [constructor|]. done. }
  intros v w Hw. destruct (Hr v w Hw) as (_ & xs & Hxs & Hin).
  destruct (domains_le_lookup _ _ _ _ Hle2 Hxs) as (xs1 & Hxs1 & Hsub1).
  destruct (domains_le_lookup _ _ _ _ Hle1 Hxs1) as (xs0 & Hxs0 & Hsub0).
  rewrite init_domains_lookup in Hxs0. case_decide; [|done].
  injection Hxs0 as <-. by apply Hsub0, Hsub1.
Qed.

Lemma is_solution_sound (cw : Crossword) a :
  is_solution cw a = true → solution cw a ∧ from_word_list cw a.
Proof.
  unfold is_solution. rewrite !andb_true_iff.
  intros [[[Hc Hk%bool_decide_eq_true] Hv%bool_decide_eq_true] He].
  apply Is_true_true in Hc, He.
  rewrite forallb_True, Forall_forall in Hc.
  rewrite forallb_True, Forall_forall in He.
  assert (∀ x wx, dict_get a x = Some wx →
            String.length wx = var_length x ∧ wx ∈ words cw
            ∧ ∀ y wy, y ∈ neighbors cw x → dict_get a y = Some wy →
                ∃ ix iy c, overlaps cw x y = Some (Some (ix, iy))
                  ∧ str_index wx ix = Ok c ∧ str_index wy iy = Ok c)
    as Hentry.
  { intros x wx Hx%dict_get_elem_of. specialize (He _ Hx). simpl in He.
    rewrite !andb_True, !bool_decide_spec, forallb_True, Forall_forall in He.
    destruct He as [[Hlen Hw] Hn]. split_and!; [done..|].
    intros y wy Hy Hwy. specialize (Hn y Hy). rewrite Hwy in Hn.
    destruct (overlaps cw x y) as [[[ix iy]|]|]; [|done..].
    unfold str_index.
    destruct (String.get ix wx) as [c1|] eqn:H1; [|done].
    destruct (String.get iy wy) as [c2|] eqn:H2; [|done].
    apply bool_decide_spec in Hn as ->. exists ix, iy, c2.
    by rewrite H1, H2. }
  split; [split|].
  - intros v Hv'. specialize (Hc v Hv'). by apply bool_decide_spec in Hc.
  - intros ????. by apply NoDup_values_distinct.
  - intros x y wx wy Hy Hx Hwy. by eapply Hentry.
  - intros v w Hw. by eapply Hentry.
  - intros v w Hw. by eapply Hentry.
Qed.

(** C3 — completeness: on a well-formed crossword, when some assignment
    of words of the word list is a solution (every variable has a word,
    different variables have different words, the lengths match and
    neighbours agree at their overlaps), [solve()] returns an assignment,
    not [None], and what it returns is such a solution. *)
Theorem solve_complete (cw : Crossword) (s : list (variable * string)) :
  wf_crossword cw = true →
  solution cw s → from_word_list cw s →
  ∃ a, solve cw = Ok (Some a) ∧ solution cw a ∧ from_word_list cw a.
Proof.
  intros Hwf Hsol Hwords.
  assert (∃ a, solve cw = Ok (Some a)) as [a Ha].
  { rewrite solve_pure.
    destruct (enforce_node_consistency_init cw)
      as (d1 & -> & Hcov1 & Hkey1 & Hnode1 & _ & Hin1).
    destruct (ac3_returns cw Hwf d1 Hcov1 Hkey1 Hnode1)
      as (b & d2 & Hac3 & Hle).
    pose proof (ac3_loop_contains cw Hwf
                  (ac3_fuel cw d1 (initial_queue cw None))
                  (initial_queue cw None) d1 s (arcs_ok_initial cw) Hsol)
      as Hcon.
    unfold ac3 in Hac3. rewrite Hac3 in Hcon. simpl in Hcon.
    unfold ac3. rewrite Hac3.
    apply (backtrack_pure_complete cw Hwf d2) with (s := s).
    - by eapply covers_le.
    - by eapply node_consistent_le.
    - done.
    - apply Hcon. intros v w Hv Hw. apply Hin1; [done|by eapply Hwords|].
      by eapply solution_lengths.
    - split; [constructor|done].
    - done.
    - unfold unassigned. apply Nat.lt_succ_r, length_filter. }
  exists a. split_and!; [done|by apply solve_sound|by apply solve_from_word_list].
Qed.

(** ** [solve] when a domain is empty *)

Section EmptyDomain.

Context (cw : Crossword).

(** With an empty domain, the first activation of [backtrack] selects a
    variable without candidates and returns [None]; it is the only
    activation. *)
Lemma backtrack_empty_domain fuel (d : Domains) x :
  covers cw d → x ∈ variables cw → d !! x = Some ∅ →
  backtrack cw (S fuel) d 0 (mkStore [[]] 0) = (Ok None, mkStore [[]] 1).
Proof.
  intros Hcov Hx Hempty.
  rewrite (backtrack_S cw fuel d 0 (mkStore [[]] 0) [] eq_refl). cbv zeta.
  assert (assignment_complete cw [] = false) as Hc.
  { apply not_true_iff_false. rewrite assignment_complete_true.
    intros Hall. by destruct (Hall x Hx). }
  rewrite Hc.
  destruct (select_unassigned_variable_total cw d [] Hcov Hc) as [var Hsel].
  rewrite Hsel.
  apply select_unassigned_variable_Ok in Hsel as (Hvar & _ & Hmin).
  specialize (Hmin x Hx eq_refl).
  destruct (Hcov var Hvar) as [s Hs].
  rewrite !lookup_total_alt, Hs, Hempty in Hmin.
  cbn [default from_option id] in Hmin. unfold id in Hmin.
  pose proof (size_empty (C := gset string)) as Hz.
  assert (s = ∅) as -> by (apply leibniz_equiv, size_empty_inv; lia).
  unfold order_domain_values, getitem. rewrite Hs. cbn [obind].
  by rewrite elements_empty.
Qed.

Lemma solve_run_empty_domain (d1 d2 : Domains) b x :
  enforce_node_consistency cw (init_domains cw) = (Ok tt, d1) →
  ac3 cw (ac3_fuel cw d1 (initial_queue cw None)) None d1 = (Ok b, d2) →
  covers cw d2 → x ∈ variables cw → d2 !! x = Some ∅ →
  solve cw = Ok None ∧ backtrack_calls cw = 1.
Proof.
  intros Henc Hac3 Hcov Hx Hempty.
  unfold solve, backtrack_calls, solve_run. rewrite Henc, Hac3.
  by rewrite (backtrack_empty_domain _ d2 x).
Qed.

End EmptyDomain.

(** C2, as amended — [solve()] drops what [ac3()] returns and always goes
    on to [backtrack]: when [ac3()] returned [False], [backtrack] is
    activated once, tries no candidate, and [solve()] returns [None]; and
    on a well-formed crossword with a variable whose length no word of the
    list has, [solve()] returns [None], again after one activation of
    [backtrack]. *)
Theorem solve_after_ac3_failure (cw : Crossword) :
  (ac3_phase cw = Ok false →
   solve cw = Ok None ∧ backtrack_calls cw = 1)
  ∧ (∀ v, wf_crossword cw = true → v ∈ variables cw →
          (∀ w, w ∈ words cw → String.length w ≠ var_length v) →
          solve cw = Ok None ∧ backtrack_calls cw = 1).
Proof.
  destruct (enforce_node_consistency_init cw)
    as (d1 & Henc & Hcov1 & Hkey1 & Hnode1 & Hsub1 & _).
  split.
  - unfold ac3_phase. rewrite Henc. intros Hphase.
    destruct (ac3 cw (ac3_fuel cw d1 (initial_queue cw None)) None d1)
      as [o d2] eqn:Hac3.
    simpl in Hphase. subst o.
    pose proof (ac3_loop_shrinks cw (ac3_fuel cw d1 (initial_queue cw None))
                  (initial_queue cw None) d1) as Hle.
    unfold ac3 in Hac3. rewrite Hac3 in Hle. simpl in Hle.
    destruct (ac3_loop_false _ _ _ _ _ Hac3) as (x & xs & Hx & _ & Hempty).
    apply (solve_run_empty_domain cw d1 d2 false x); [done|done|..|done].
    + by eapply covers_le.
    + apply Hkey1. eauto.
  - intros v Hwf Hv Hnone.
    destruct (ac3_returns cw Hwf d1 Hcov1 Hkey1 Hnode1)
      as (b & d2 & Hac3 & Hle).
    destruct (Hcov1 v Hv) as [xs Hxs].
    assert (xs = ∅) as ->.
    { apply leibniz_equiv, elem_of_equiv_empty. intros w Hw.
      apply (Hnone w); [by eapply Hsub1|by eapply Hnode1]. }
    destruct (domains_le_lookup_r _ _ _ _ Hle Hxs) as (xs' & Hxs' & Hsub).
    assert (xs' = ∅) as -> by set_solver.
    apply (solve_run_empty_domain cw d1 d2 b v); [done..| |done|done].
    by eapply covers_le.
Qed.

(** C2, as stated, fails: with the single word [AB], [ac3()] empties the
    domain of the slot of length 2 and returns [False], and [backtrack] is
    activated all the same. *)
Lemma solve_does_not_short_circuit :
  ac3_phase (cross {["AB"]}) = Ok false
  ∧ ¬ (ac3_phase (cross {["AB"]}) = Ok false →
       backtrack_calls (cross {["AB"]}) = 0).
Proof.
  assert (ac3_phase (cross {["AB"]}) = Ok false) as Hphase
    by evaluate.
  split; [done|]. intros Hclaim. specialize (Hclaim Hphase).
  assert (backtrack_calls (cross {["AB"]}) = 1) as Hcalls by evaluate.
  lia.
Qed.

(** ** The fuel of [solve] is enough *)

Lemma obind_fuel {A B} (m : outcome A) (k : A → outcome B) :
  m ≠ OutOfFuel → (∀ a, k a ≠ OutOfFuel) → obind m k ≠ OutOfFuel.
Proof. destruct m; simpl; auto. Qed.

Lemma getitem_fuel {K V} `{Countable K} (d : gmap K V) k :
  getitem d k ≠ OutOfFuel.
Proof. unfold getitem. by destruct (d !! k). Qed.

Section Fuel.

Context (cw : Crossword).

Lemma overlaps_get_fuel x y : overlaps_get cw x y ≠ OutOfFuel.
Proof. unfold overlaps_get. by destruct (overlaps cw x y). Qed.

Lemma dict_getitem_fuel a var : dict_getitem a var ≠ OutOfFuel.
Proof. unfold dict_getitem. by destruct (dict_get a var). Qed.

Lemma consistent_links_fuel a var links :
  consistent_links cw a var links ≠ OutOfFuel.
Proof.
  induction links as [|l links IH]; simpl; [done|].
  apply obind_fuel; [apply overlaps_get_fuel|]. intros overlap.
  destruct (dict_in l a); [|done].
  apply obind_fuel; [apply dict_getitem_fuel|]. intros w1.
  apply obind_fuel; [apply dict_getitem_fuel|]. intros w2.
  apply obind_fuel; [apply overlap_chars_fuel|]. intros cs.
  by case_decide.
Qed.

Lemma consistent_fuel a : consistent cw a ≠ OutOfFuel.
Proof.
  unfold consistent. case_decide; [done|].
  induction (a.*1) as [|v vars IH]; simpl; [done|].
  apply obind_fuel; [apply dict_getitem_fuel|]. intros w.
  case_decide; [done|].
  apply obind_fuel; [apply consistent_links_fuel|]. by intros [|].
Qed.

Lemma select_unassigned_variable_fuel (d : Domains) a :
  select_unassigned_variable cw d a ≠ OutOfFuel.
Proof.
  unfold select_unassigned_variable. apply obind_fuel.
  - induction (variables cw) as [|v vars IH]; simpl; [done|].
    destruct (dict_in v a); [done|].
    apply obind_fuel; [apply getitem_fuel|]. intros s.
    by apply obind_fuel.
  - intros tl. apply obind_fuel; [by destruct tl|done].
Qed.

Lemma count_conflicts_fuel overlap values link_values removed :
  count_conflicts overlap values link_values removed ≠ OutOfFuel.
Proof.
  revert removed. induction link_values as [|lv rest IH]; intros removed;
    simpl; [done|].
  apply obind_fuel; [apply overlap_chars_fuel|]. intros cs. apply IH.
Qed.

Lemma count_removed_fuel (d : Domains) var values links removed :
  count_removed cw d var values links removed ≠ OutOfFuel.
Proof.
  revert removed. induction links as [|l links IH]; intros removed;
    simpl; [done|].
  apply obind_fuel; [apply overlaps_get_fuel|]. intros overlap.
  apply obind_fuel; [apply getitem_fuel|]. intros ls.
  apply obind_fuel; [apply count_conflicts_fuel|]. intros n. apply IH.
Qed.

Lemma order_domain_values_fuel (d : Domains) var a :
  order_domain_values cw d var a ≠ OutOfFuel.
Proof.
  unfold order_domain_values.
  apply obind_fuel; [apply getitem_fuel|]. intros s.
  apply obind_fuel; [|done].
  induction (elements s) as [|w rest IH]; simpl; [done|].
  apply obind_fuel; [apply count_removed_fuel|]. intros n.
  by apply obind_fuel.
Qed.

Lemma try_values_pure_fuel rec a var candidates :
  (∀ c, c ∈ candidates → rec (dict_setitem var c a) ≠ OutOfFuel) →
  try_values_pure cw rec a var candidates ≠ OutOfFuel.
Proof.
  induction candidates as [|c rest IH]; intros Hrec; simpl; [done|].
  assert (try_values_pure cw rec a var rest ≠ OutOfFuel) as Hrest
    by (apply IH; intros; apply Hrec; by right).
  apply obind_fuel; [apply consistent_fuel|]. intros [|]; [|done].
  apply obind_fuel; [apply Hrec; left|]. by intros [r|].
Qed.

Lemma backtrack_pure_fuel fuel (d : Domains) a :
  length (unassigned cw a) < fuel →
  backtrack_pure cw fuel d a ≠ OutOfFuel.
Proof.
  revert a. induction fuel as [|fuel IH]; intros a Hfuel; [lia|].
  cbn [backtrack_pure]. destruct (assignment_complete cw a); [done|].
  destruct (select_unassigned_variable cw d a) as [var|e|] eqn:Hsel;
    cbn [obind]; [|done|by apply select_unassigned_variable_fuel in Hsel].
  apply select_unassigned_variable_Ok in Hsel as (Hvar & Hnone & _).
  apply obind_fuel; [apply order_domain_values_fuel|]. intros candidates.
  apply try_values_pure_fuel. intros c _. apply IH.
  assert (length (unassigned cw (dict_setitem var c a))
          < length (unassigned cw a)); [|lia].
  unfold unassigned.
  apply (length_filter_lt _ _ _ var); [|done|done|].
  - intros y. rewrite dict_get_setitem. by case_decide.
  - rewrite dict_get_setitem, decide_True by done. done.
Qed.

(** [solve] never stops for lack of fuel: the model loses no run of the
    program. *)
Lemma solve_fuel : solve cw ≠ OutOfFuel.
Proof.
  rewrite solve_pure.
  destruct (enforce_node_consistency_init cw)
    as (d1 & -> & _ & Hkey1 & _).
  pose proof (ac3_fuel_enough cw None d1 Hkey1) as Hac3.
  destruct (ac3 cw _ None d1) as [[b|e|] d2]; [|done..].
  apply backtrack_pure_fuel. unfold unassigned.
  apply Nat.lt_succ_r, length_filter.
Qed.

End Fuel.

(** ** The properties at sample crosswords

    Each property is applied to a run of the program on a small
    crossword; its hypotheses hold there by evaluation. *)

(** C1 where a slot of length 2 crosses a slot of length 3. *)
Lemma solve_returns_solution_witness :
  solve (cross {["AB"; "AXE"; "CAT"]}) = Ok (Some [(x2, "AB"); (y3, "AXE")])
  ∧ NoDup [(x2, "AB"); (y3, "AXE")].*2.
Proof.
  assert (solve (cross {["AB"; "AXE"; "CAT"]})
          = Ok (Some [(x2, "AB"); (y3, "AXE")])) as Hrun
    by evaluate.
  split; [exact Hrun|].
  exact (proj1 (proj2 (solve_returns_solution _ _ Hrun))).
Defined.

(** C7 along node consistency followed by one revision. *)
Lemma domains_only_shrink_witness :
  run_calls (cross {["AB"; "AXE"; "CAT"]})
    [CallEnforceNodeConsistency; CallRevise y3 x2]
    (init_domains (cross {["AB"; "AXE"; "CAT"]})) !! y3 = Some {["AXE"]}
  ∧ y3 ∈ variables (cross {["AB"; "AXE"; "CAT"]})
  ∧ ({["AXE"]} : gset string) ⊆ words (cross {["AB"; "AXE"; "CAT"]}).
Proof.
  assert (run_calls (cross {["AB"; "AXE"; "CAT"]})
            [CallEnforceNodeConsistency; CallRevise y3 x2]
            (init_domains (cross {["AB"; "AXE"; "CAT"]})) !! y3
          = Some {["AXE"]}) as Hrun
    by evaluate.
  split; [exact Hrun|].
  exact (proj2 (proj2 (proj2 (domains_only_shrink _))) _ _ _ Hrun).
Defined.

(** C8 for a revision that removes a word. *)
Lemma filtering_idempotent_witness :
  revise (cross {["AB"; "AXE"; "CAT"]}) y3 x2
    {[x2 := {["AB"]}; y3 := {["AXE"; "CAT"]}]}
  = (Ok true, {[x2 := {["AB"]}; y3 := {["AXE"]}]})
  ∧ revise (cross {["AB"; "AXE"; "CAT"]}) y3 x2
      {[x2 := {["AB"]}; y3 := {["AXE"]}]}
    = (Ok false, {[x2 := {["AB"]}; y3 := {["AXE"]}]}).
Proof.
  assert (revise (cross {["AB"; "AXE"; "CAT"]}) y3 x2
            {[x2 := {["AB"]}; y3 := {["AXE"; "CAT"]}]}
          = (Ok true, {[x2 := {["AB"]}; y3 := {["AXE"]}]})) as Hrun
    by evaluate.
  split; [exact Hrun|].
  refine (proj2 (filtering_idempotent _) y3 x2 _ _ _ _ _ Hrun).
  - evaluate.
  - evaluate.
Defined.

(** C4 for a run of AC-3 that removes a word and returns [True]. *)
Lemma ac3_arc_consistent_witness :
  ∃ c, str_index "AXE" 0 = Ok c ∧ str_index "AB" 0 = Ok c.
Proof.
  assert (wf_crossword (cross {["AB"; "AXE"; "CAT"]}) = true) as Hwf
    by evaluate.
  assert (ac3 (cross {["AB"; "AXE"; "CAT"]}) 10 None
            {[x2 := {["AB"]}; y3 := {["AXE"; "CAT"]}]}
          = (Ok true, {[x2 := {["AB"]}; y3 := {["AXE"]}]})) as Hrun
    by evaluate.
  destruct (ac3_arc_consistent _ _ _ _ Hwf Hrun y3 x2 0 0 {["AXE"]} {["AB"]})
    with (w := "AXE") as (w' & c & Hw' & Hc & Hc').
  - evaluate.
  - evaluate.
  - evaluate.
  - evaluate.
  - evaluate.
  - by apply elem_of_singleton.
  - apply elem_of_singleton in Hw'. subst w'. eauto.
Defined.

(** C10 for a run of AC-3 that empties a domain and returns [False]. *)
Lemma ac3_true_with_empty_domain_witness :
  ac3 (cross {["AB"]}) 10 None {[x2 := {["AB"]}; y3 := ∅]}
  = (Ok false, {[x2 := ∅; y3 := ∅]})
  ∧ ∃ x xs, ({[x2 := {["AB"]}; y3 := ∅]} : Domains) !! x = Some xs
          ∧ xs ≠ ∅
          ∧ ({[x2 := ∅; y3 := ∅]} : Domains) !! x = Some ∅.
Proof.
  assert (ac3 (cross {["AB"]}) 10 None {[x2 := {["AB"]}; y3 := ∅]}
          = (Ok false, {[x2 := ∅; y3 := ∅]})) as Hrun
    by evaluate.
  split; [exact Hrun|].
  exact (proj1 ac3_true_with_empty_domain _ _ _ _ _ Hrun).
Defined.

(** C9 for a search started from the empty dict. *)
Lemma backtrack_restores_state_witness :
  result_matches
    (backtrack (cross {["AB"; "AXE"; "CAT"]}) 3
       {[x2 := {["AB"]}; y3 := {["AXE"]}]} 0 (mkStore [[]] 0)).2
    (backtrack (cross {["AB"; "AXE"; "CAT"]}) 3
       {[x2 := {["AB"]}; y3 := {["AXE"]}]} 0 (mkStore [[]] 0)).1
    (backtrack_pure (cross {["AB"; "AXE"; "CAT"]}) 3
       {[x2 := {["AB"]}; y3 := {["AXE"]}]} []).
Proof.
  refine (proj2 (backtrack_restores_state _ 3 _ (mkStore [[]] 0) 0 [] _)).
  reflexivity.
Defined.

(** C3 for a crossword with two solutions. *)
Lemma solve_complete_witness :
  ∃ a, solve (cross {["AB"; "AXE"; "ACE"]}) = Ok (Some a)
     ∧ solution (cross {["AB"; "AXE"; "ACE"]}) a
     ∧ from_word_list (cross {["AB"; "AXE"; "ACE"]}) a.
Proof.
  assert (wf_crossword (cross {["AB"; "AXE"; "ACE"]}) = true) as Hwf
    by evaluate.
  assert (is_solution (cross {["AB"; "AXE"; "ACE"]})
            [(y3, "ACE"); (x2, "AB")] = true) as Hsol
    by evaluate.
  apply is_solution_sound in Hsol as [Hsol Hwords].
  exact (solve_complete _ _ Hwf Hsol Hwords).
Defined.

(** C2, as amended, where AC-3 fails and where no word has the length
    of a slot. *)
Lemma solve_after_ac3_failure_witness :
  (solve (cross {["AB"]}) = Ok None ∧ backtrack_calls (cross {["AB"]}) = 1)
  ∧ (solve (cross {["AXE"]}) = Ok None
     ∧ backtrack_calls (cross {["AXE"]}) = 1).
Proof.
  split.
  - apply (proj1 (solve_after_ac3_failure (cross {["AB"]}))).
    evaluate.
  - apply (proj2 (solve_after_ac3_failure (cross {["AXE"]})) x2).
    + evaluate.
    + evaluate.
    + intros w Hw. change (w ∈ ({["AXE"]} : gset string)) in Hw.
      apply elem_of_singleton in Hw as ->. vm_compute. discriminate.
Defined.

(** C6, as amended, with one neighbour assigned. *)
Lemma order_domain_values_counts_all_neighbors_witness :
  ∃ s, comb_domains !! h5 = Some s
     ∧ ["APAGA"; "APAEA"; "AQAFA"; "AQAGA"] ≡ₚ elements s
     ∧ Sorted (≤)
         (eliminated (comb [u2; h5; u3] comb_words) comb_domains h5
            (neighbors (comb [u2; h5; u3] comb_words) h5)
            <$> ["APAGA"; "APAEA"; "AQAFA"; "AQAGA"]).
Proof.
  apply (order_domain_values_counts_all_neighbors
           (comb [u2; h5; u3] comb_words) comb_domains h5 [(u2, "CP")]).
  evaluate.
Defined.

(** * Further properties of the solving path *)

(** ** Node consistency *)

Lemma for_each_enforce_var_missing vars (d : Domains) v :
  v ∈ vars → d !! v = None →
  (for_each (enforce_var) vars d).1 = Raise KeyError.
Proof.
  revert d. induction vars as [|var vars IH]; intros d Hv Hnone; simpl.
  { by apply elem_of_nil in Hv. }
  unfold sbind. destruct (d !! var) as [s|] eqn:Hs.
  - rewrite (enforce_var_Some _ _ s Hs).
    assert (v ∈ vars) as Hin.
    { apply elem_of_cons in Hv as [->|?]; [congruence|done]. }
    assert (v ≠ var) as Hne by congruence.
    specialize (IH (<[var := filter (λ w, String.length w = var_length var) s]> d) Hin).
    rewrite lookup_insert_ne in IH by done. specialize (IH Hnone).
    destruct (for_each enforce_var vars _) as [[[]|e|] d']; simpl in *;
      by simplify_eq.
  - by rewrite (enforce_var_None _ _ Hs).
Qed.

(** X1 — [enforce_node_consistency()], when every variable has a domain,
    returns normally and leaves under each variable exactly the words of
    its domain that have the variable's length; a key that is not a
    variable keeps its set. *)
Theorem enforce_node_consistency_exact (cw : Crossword) (d : Domains) :
  Forall (λ v, is_Some (d !! v)) (variables cw) →
  ∃ d', enforce_node_consistency cw d = (Ok tt, d')
    ∧ ∀ v, d' !! v
           = if decide (v ∈ variables cw)
             then filter (λ w, String.length w = var_length v) <$> d !! v
             else d !! v.
Proof.
  rewrite Forall_forall. intros Hk.
  by apply for_each_enforce_var_lookup.
Qed.

(** X2 — [enforce_node_consistency()] returns normally exactly when every
    variable is a key of [self.domains], and raises [KeyError] exactly
    when a variable is missing. *)
Theorem enforce_node_consistency_key_error (cw : Crossword) (d : Domains) :
  ((enforce_node_consistency cw d).1 = Ok tt
   ↔ Forall (λ v, is_Some (d !! v)) (variables cw))
  ∧ ((enforce_node_consistency cw d).1 = Raise KeyError
     ↔ Exists (λ v, d !! v = None) (variables cw)).
Proof.
  assert (Exists (λ v, d !! v = None) (variables cw) →
          (enforce_node_consistency cw d).1 = Raise KeyError) as Hmiss.
  { intros (v & Hv & Hnone)%Exists_exists.
    unfold enforce_node_consistency.
    by eapply for_each_enforce_var_missing. }
  assert (Forall (λ v, is_Some (d !! v)) (variables cw) →
          (enforce_node_consistency cw d).1 = Ok tt) as Hall.
  { rewrite Forall_forall. intros Hk. unfold enforce_node_consistency.
    by destruct (for_each_enforce_var_lookup _ d Hk) as (d' & -> & _). }
  destruct (decide (Forall (λ v, is_Some (d !! v)) (variables cw)))
    as [Hf|Hf].
  - split; split; auto.
    intros Hr. rewrite (Hall Hf) in Hr. done.
  - apply not_Forall_Exists in Hf; [|apply _].
    assert (Exists (λ v, d !! v = None) (variables cw)) as He.
    { eapply Exists_impl; [done|]. simpl. intros v Hv.
      by apply eq_None_not_Some. }
    split; split; auto.
    intros Hr. rewrite (Hmiss He) in Hr. done.
Qed.

(** X3 — after [__init__] and [enforce_node_consistency()], which never
    raises there, the keys of [self.domains] are the variables of the
    crossword, and the domain of a variable is the set of the words of
    the word list that have its length. *)
Theorem node_consistency_after_init (cw : Crossword) :
  ∃ d1, enforce_node_consistency cw (init_domains cw) = (Ok tt, d1)
    ∧ ∀ v, d1 !! v
           = if decide (v ∈ variables cw)
             then Some (filter (λ w, String.length w = var_length v)
                               (words cw))
             else None.
Proof.
  destruct (for_each_enforce_var_lookup (variables cw) (init_domains cw))
    as (d1 & Hrun & Hd1).
  { intros v Hv. rewrite init_domains_lookup, decide_True by done. eauto. }
  exists d1. split; [done|].
  intros v. rewrite Hd1, init_domains_lookup. by case_decide.
Qed.

(** ** Revision *)

(** X4 — what [revise(x, y)] leaves when it returns: under [x], exactly
    the words of [x]'s domain for which [y]'s domain has a word with the
    same character at the overlap; every other domain as it was; and the
    value returned is [True] exactly when [x]'s domain lost a word. *)
Theorem revise_exact (cw : Crossword) x y (d d' : Domains) b :
  revise cw x y d = (Ok b, d') →
  ∃ overlap xs xs',
    overlaps cw x y = Some overlap ∧ d !! x = Some xs ∧ d' !! x = Some xs'
    ∧ (∀ v, v ≠ x → d' !! v = d !! v)
    ∧ (∀ w, w ∈ xs' ↔
            w ∈ xs ∧ ∃ ys w', d !! y = Some ys ∧ w' ∈ ys
                              ∧ agree overlap w w')
    ∧ (b = true ↔ xs' ≠ xs) ∧ (b = false ↔ d' = d).
Proof.
  intros H. pose proof (revise_false_id cw x y d d') as Hid.
  apply revise_result in H
    as (overlap & xs & xs' & Hov & Hx & -> & Hsub & Hf & Ht & Hall).
  exists overlap, xs, xs'. rewrite lookup_insert_eq.
  split_and!; [done..| | | |].
  - intros v Hv. by rewrite lookup_insert_ne.
  - intros w. split.
    + intros Hw. split; [by apply Hsub|].
      destruct (Hall w (Hsub _ Hw)) as (ys & Hy & Hiff).
      pose proof (proj1 Hiff Hw) as (w' & Hw' & Hag). eauto.
    + intros [Hw (ys & w' & Hy & Hw' & Hag)].
      destruct (Hall w Hw) as (ys' & Hy' & Hiff). apply Hiff.
      rewrite Hy in Hy'. injection Hy' as <-. eauto.
  - destruct b; split; intros H0; try done;
      first [by apply Ht | exfalso; by apply H0, Hf].
  - destruct b; split; intros H0; try done.
    + exfalso. apply Ht; [done|].
      assert (<[x := xs']> d !! x = d !! x) as Hl by (by rewrite H0).
      rewrite lookup_insert_eq, Hx in Hl. by injection Hl.
    + rewrite Hf by done. by apply insert_id.
Qed.

Lemma revise_scan_y_not_ValueError overlap w l rem :
  revise_scan_y overlap w l rem ≠ Raise ValueError.
Proof.
  revert rem. induction l as [|w' l IH]; intros rem; [done|].
  cbn [revise_scan_y]. unfold overlap_chars, str_index.
  destruct overlap as [[a b]|]; [|done].
  destruct (String.get a w); [|done].
  destruct (String.get b w'); [|done]. cbn [obind]. apply IH.
Qed.

Lemma revise_scan_x_not_ValueError overlap (d : Domains) y l :
  revise_scan_x overlap d y l ≠ Raise ValueError.
Proof.
  induction l as [|w l IH]; [done|].
  cbn [revise_scan_x]. unfold getitem.
  destruct (d !! y) as [ys|]; [|done]. cbn [obind].
  pose proof (revise_scan_y_not_ValueError overlap w (elements ys) true) as Hy.
  destruct (revise_scan_y _ _ _ _) as [r|e|]; cbn [obind]; [|congruence|done].
  destruct (revise_scan_x _ _ _ _) as [m|e|]; cbn [obind]; congruence.
Qed.

(** X5 — a [revise(x, y)] that raises has removed nothing: the domains
    are as they were, and what it raises is a [KeyError] (no overlap
    entry, or no domain), a [TypeError] (the overlap is [None]) or an
    [IndexError] (a word shorter than the overlap index). *)
Theorem revise_raises_unchanged (cw : Crossword) x y (d d' : Domains) e :
  revise cw x y d = (Raise e, d') →
  d' = d ∧ (e = KeyError ∨ e = TypeError ∨ e = IndexError).
Proof.
  intros H. split.
  { by apply (revise_not_Ok cw) in H as [-> _]. }
  assert (e ≠ ValueError) as He; [|destruct e; auto; done].
  intros ->. unfold revise, sbind, reading in H.
  destruct (obind _ _) as [rw|e|] eqn:Hscan; simpl in H.
  - apply obind_Ok in Hscan as (overlap & Hov & Hscan).
    apply obind_Ok in Hscan as (xs & Hx%getitem_Ok & Hscan).
    destruct (revise_scan_x_Ok _ _ _ _ _ Hscan) as [Hsub _].
    rewrite (for_each_domain_remove _ _ _ xs) in H; [done|done|..].
    + apply (sublist_NoDup _ (elements xs)); [apply NoDup_elements|done].
    + intros w Hw. apply elem_of_elements. by eapply elem_of_sublist.
  - injection H as -> _.
    unfold overlaps_get, getitem in Hscan.
    destruct (overlaps cw x y) as [o|]; cbn [obind] in Hscan; [|done].
    destruct (d !! x) as [xs|]; cbn [obind] in Hscan; [|done].
    by apply revise_scan_x_not_ValueError in Hscan.
  - done.
Qed.

(** X6 — [revise] at empty domains.  With the domain of [x] empty it
    returns [False] and changes nothing, whether or not [y] has a domain;
    with the domain of [y] empty it empties the domain of [x], whatever
    the overlap entry holds (no character is read), and returns [True]
    exactly when the domain of [x] was not empty already. *)
Theorem revise_empty_domains (cw : Crossword) x y (d : Domains) overlap :
  overlaps cw x y = Some overlap →
  (d !! x = Some ∅ → revise cw x y d = (Ok false, d))
  ∧ (∀ xs, d !! x = Some xs → d !! y = Some ∅ →
       revise cw x y d = (Ok (bool_decide (xs ≠ ∅)), <[x := ∅]> d)).
Proof.
  intros Hov. split.
  - intros Hx. unfold revise, sbind, reading, overlaps_get, getitem.
    rewrite Hov, Hx. simpl. by rewrite elements_empty.
  - intros xs Hx Hy.
    assert (revise_scan_x overlap d y (elements xs) = Ok (elements xs))
      as Hscan.
    { induction (elements xs) as [|w l IH]; simpl; [done|].
      unfold getitem. rewrite Hy. simpl. rewrite elements_empty. simpl.
      by rewrite IH. }
    unfold revise, sbind, reading, overlaps_get, getitem.
    rewrite Hov, Hx. simpl. rewrite Hscan.
    rewrite (for_each_domain_remove _ _ _ xs);
      [|done|apply NoDup_elements|by intros w ?%elem_of_elements].
    unfold ret. f_equal.
    + f_equal. destruct (elements xs) as [|w l] eqn:Hel.
      * apply elements_empty_inv, leibniz_equiv in Hel. subst.
        by rewrite bool_decide_eq_false_2 by (by intros []).
      * rewrite bool_decide_eq_true_2; [done|]. intros ->.
        by rewrite elements_empty in Hel.
    + f_equal. apply set_eq. intros w.
      rewrite elem_of_difference, elem_of_list_to_set, elem_of_elements.
      set_solver.
Qed.

(** ** The AC-3 loop *)

Lemma arcs_ok_queue cw arcs :
  arcs_ok cw (default [] arcs) → arcs_ok cw (initial_queue cw arcs).
Proof.
  destruct arcs as [l|]; [done|]. intros _. apply arcs_ok_initial.
Qed.

(** X7 — [ac3] ends and raises nothing.  On a well-formed crossword, with
    a domain of words of the right length for every variable and for
    nothing else, and with arcs that join a variable to a neighbour of
    it, the loop over the growing queue returns [True] or [False], and
    any budget of revisions larger than the length of the first queue
    plus the number of words in the domains times the largest number of
    neighbours is enough for it. *)
Theorem ac3_returns_within_bound (cw : Crossword) (d : Domains) arcs fuel :
  wf_crossword cw = true →
  covers cw d → keyed cw d → node_consistent d →
  arcs_ok cw (default [] arcs) →
  length (initial_queue cw arcs) + words_left cw d * max_degree cw < fuel →
  ∃ b d', ac3 cw fuel arcs d = (Ok b, d').
Proof.
  intros Hwf Hc Hk Hn Hq%arcs_ok_queue Hfuel.
  pose proof (ac3_loop_terminates cw fuel _ d Hk Hfuel) as Hterm.
  pose proof (ac3_loop_no_raise cw Hwf fuel (initial_queue cw arcs) d)
    as Hraise.
  unfold ac3. destruct (ac3_loop cw _ _ d) as [[b|e|] d']; simpl in *.
  - eauto.
  - by destruct (Hraise e Hc Hn Hq).
  - done.
Qed.

Lemma ac3_loop_false_variable cw fuel queue (d d' : Domains) :
  wf_crossword cw = true → arcs_ok cw queue →
  ac3_loop cw fuel queue d = (Ok false, d') →
  ∃ x, x ∈ variables cw ∧ d' !! x = Some ∅.
Proof.
  intros Hwf. revert queue d.
  induction fuel as [|fuel IH]; intros [|[x y] rest] d Hq H; simpl in H;
    try done.
  destruct (Hq x y) as [Hx Hy]; [left|].
  assert (arcs_ok cw rest) as Hrest by (intros ???; apply Hq; by right).
  unfold sbind at 1 in H.
  destruct (revise cw x y d) as [[[|]|e|] d1] eqn:Hrev; simpl in *;
    try done.
  - unfold sbind, reading in H.
    destruct (getitem d1 x) as [s| |] eqn:Hs; try done.
    apply getitem_Ok in Hs. case_decide as Hsize.
    + unfold ret in H. injection H as <-.
      apply size_empty_inv, leibniz_equiv in Hsize. subst s. eauto.
    + apply IH in H; [done|]. by apply arcs_ok_step.
  - by apply IH in H.
Qed.

(** X8 — [ac3] removes no word of a solution: on a well-formed crossword,
    when the domains hold the words of a solution, so do the domains it
    leaves, and it does not return [False]. *)
Theorem ac3_keeps_solutions (cw : Crossword) (d : Domains) arcs fuel s :
  wf_crossword cw = true →
  arcs_ok cw (default [] arcs) →
  solution cw s → contains cw d s →
  contains cw (ac3 cw fuel arcs d).2 s
  ∧ (ac3 cw fuel arcs d).1 ≠ Ok false.
Proof.
  intros Hwf Hq%arcs_ok_queue Hsol Hcon. unfold ac3.
  pose proof (ac3_loop_contains cw Hwf fuel _ d s Hq Hsol Hcon) as Hcon'.
  split; [done|]. intros Hfalse.
  destruct (ac3_loop cw fuel _ d) as [o d'] eqn:Hrun. simpl in *. subst o.
  apply ac3_loop_false_variable in Hrun as (x & Hx & Hempty); [|done..].
  destruct (solution_complete _ _ Hsol x Hx) as [w Hw].
  destruct (Hcon' x w Hx Hw) as (xs & Hxs & Hin).
  rewrite Hempty in Hxs. injection Hxs as <-. by apply elem_of_empty in Hin.
Qed.




(** ** The search and what [solve] returns *)

(** X10 — on a well-formed crossword [solve()] raises nothing: node
    consistency finds every domain, AC-3 and the search index no word
    out of range, and the result is an assignment or [None]. *)
Theorem solve_returns (cw : Crossword) :
  wf_crossword cw = true → ∃ r, solve cw = Ok r.
Proof.
  intros Hwf. rewrite solve_pure.
  destruct (enforce_node_consistency_init cw)
    as (d1 & -> & Hcov1 & Hkey1 & Hnode1 & _).
  destruct (ac3_returns cw Hwf d1 Hcov1 Hkey1 Hnode1)
    as (b & d2 & -> & Hle).
  apply (backtrack_pure_total cw Hwf d2).
  - by eapply covers_le.
  - by eapply node_consistent_le.
  - split; [constructor|done].
  - unfold unassigned. apply Nat.lt_succ_r, length_filter.
Qed.

Lemma dict_get_keys (a : list (variable * string)) v :
  v ∈ a.*1 ↔ is_Some (dict_get a v).
Proof.
  rewrite <- not_eq_None_Some, dict_get_None_keys.
  split; [tauto|]. intros H. by destruct (decide (v ∈ a.*1)).
Qed.

(** X11 — the dict that [solve()] returns has the variables of the
    crossword as its keys, each once and nothing else, and its words are
    words of the word list. *)
Theorem solve_assignment_keys (cw : Crossword)
    (a : list (variable * string)) :
  solve cw = Ok (Some a) →
  NoDup a.*1
  ∧ (∀ v, v ∈ a.*1 ↔ v ∈ variables cw)
  ∧ ∀ v w, (v, w) ∈ a → w ∈ words cw.
Proof.
  intros Hrun.
  pose proof (solve_sound cw a Hrun) as [Hsol _].
  pose proof (solve_from_word_list cw a Hrun) as Hwords.
  assert (NoDup a.*1 ∧ ∀ v w, dict_get a v = Some w → v ∈ variables cw)
    as [Hnd Hkeys].
  { rewrite solve_pure in Hrun.
    destruct (enforce_node_consistency cw (init_domains cw))
      as [[?|?|] d1]; [|done..].
    destruct (ac3 cw _ None d1) as [[?|?|] d2]; [|done..].
    apply backtrack_pure_domain_valued in Hrun as [Hnd Hr].
    - split; [done|]. intros v w Hw. by destruct (Hr v w Hw).
    - split; [constructor|done]. }
  split_and!; [done| |].
  - intros v. rewrite dict_get_keys. split.
    + intros [w Hw]. by eapply Hkeys.
    + by apply (solution_complete _ _ Hsol).
  - intros v w Hin. eapply Hwords. by apply dict_get_unique.
Qed.

(** X12 — [backtrack] recurses no deeper than there are variables
    without a word: one activation for the assignment it is given and
    one more for each variable it fills. *)
Theorem backtrack_depth (cw : Crossword) fuel (d : Domains) (σ : Store)
    (a : nat) (A : list (variable * string)) :
  dicts σ !! a = Some A →
  length (unassigned cw A) < fuel →
  (backtrack cw fuel d a σ).1 ≠ OutOfFuel.
Proof.
  intros Ha Hfuel Hout.
  destruct (backtrack_refines cw fuel d σ a A Ha) as (_ & _ & Hres).
  rewrite Hout in Hres.
  pose proof (backtrack_pure_fuel cw fuel d A Hfuel) as Hpure.
  by destruct (backtrack_pure cw fuel d A) as [[?|]|?|].
Qed.

Lemma backtrack_pure_extends cw fuel (d : Domains) a r :
  backtrack_pure cw fuel d a = Ok (Some r) →
  ∃ more, r = a ++ more
    ∧ NoDup more.*1
    ∧ Forall (λ e, e.1 ∈ variables cw ∧ dict_get a e.1 = None
                   ∧ e.2 ∈ d !!! e.1) more.
Proof.
  revert a. induction fuel as [|fuel IH]; intros a; simpl; [done|].
  destruct (assignment_complete cw a).
  { intros [= <-]. exists []. rewrite app_nil_r.
    split_and!; [done|constructor|constructor]. }
  intros H. apply obind_Ok in H as (var & Hsel & H).
  apply obind_Ok in H as (candidates & Hord & H).
  apply select_unassigned_variable_Ok in Hsel as (Hvar & Hnone & _).
  apply order_domain_values_perm in Hord as (xs & Hxs & Hperm).
  apply try_values_pure_sound in H as (c & Hc & _ & H).
  rewrite dict_setitem_fresh in H by done.
  apply IH in H as (more & -> & Hnd & Hall).
  exists ((var, c) :: more). rewrite <- app_assoc. split; [done|].
  assert (∀ e, e ∈ more → e.1 ≠ var ∧ dict_get a e.1 = None) as Hmore.
  { intros e He. rewrite Forall_forall in Hall.
    destruct (Hall e He) as (_ & Hn & _).
    apply dict_get_None_keys in Hn. rewrite fmap_app in Hn.
    rewrite dict_get_None_keys. split; [|set_solver].
    intros Heq. apply Hn, elem_of_app. right. simpl. rewrite Heq. left. }
  split.
  - simpl. constructor; [|done].
    intros (e & Heq & He)%list_elem_of_fmap.
    destruct (Hmore e He) as [Hne _]. by apply Hne.
  - constructor.
    + simpl. split_and!; [done..|].
      rewrite lookup_total_alt, Hxs. simpl.
      apply elem_of_elements. by rewrite <- Hperm.
    + apply Forall_forall. intros e He. rewrite Forall_forall in Hall.
      destruct (Hall e He) as (Hv & _ & Hd).
      by destruct (Hmore e He) as [_ Hn].
Qed.

(** X13 — what [backtrack] returns extends what it was given: the dict
    it returns holds the caller's entries in their order, followed by one
    entry for each variable that had no word, with a word of that
    variable's domain; and every variable of the crossword is a key of
    it. *)
Theorem backtrack_extends_assignment (cw : Crossword) fuel (d : Domains)
    (σ : Store) (a r : nat) (A : list (variable * string)) :
  dicts σ !! a = Some A →
  (backtrack cw fuel d a σ).1 = Ok (Some r) →
  ∃ more, dicts (backtrack cw fuel d a σ).2 !! r = Some (A ++ more)
    ∧ NoDup more.*1
    ∧ Forall (λ e, e.1 ∈ variables cw ∧ dict_get A e.1 = None
                   ∧ e.2 ∈ d !!! e.1) more
    ∧ assignment_complete cw (A ++ more) = true.
Proof.
  intros Ha Hrun.
  destruct (backtrack_refines cw fuel d σ a A Ha) as (_ & _ & Hres).
  rewrite Hrun in Hres.
  destruct (backtrack_pure cw fuel d A) as [[R|]|?|] eqn:Hpure; try done.
  simpl in Hres.
  pose proof (backtrack_pure_sound cw fuel d A R Hpure) as [Hc _].
  apply backtrack_pure_extends in Hpure as (more & -> & Hnd & Hall).
  by exists more.
Qed.

(** X14 — a crossword without variables: [solve()] returns the empty
    dict, whatever the word list. *)
Theorem solve_no_variables (cw : Crossword) :
  variables cw = [] → solve cw = Ok (Some []).
Proof.
  intros Hv. rewrite solve_pure.
  unfold enforce_node_consistency, ac3, initial_queue. rewrite Hv. simpl.
  unfold assignment_complete. by rewrite Hv.
Qed.

(** ** [select_unassigned_variable] *)

Lemma min_from_first {A} (key : A → nat) l best pre mid :
  Forall (λ x, key best < key x) pre →
  Forall (λ x, key best ≤ key x) mid →
  ∃ before after,
    pre ++ best :: mid ++ l = before ++ min_from key best l :: after
    ∧ Forall (λ x, key (min_from key best l) < key x) before
    ∧ Forall (λ x, key (min_from key best l) ≤ key x) after.
Proof.
  revert best pre mid.
  induction l as [|a l IH]; intros best pre mid Hpre Hmid; simpl.
  { exists pre, mid. by rewrite app_nil_r. }
  case_decide as Hlt.
  - destruct (IH a (pre ++ best :: mid) []) as (before & after & Heq & H);
      [|constructor|].
    + apply Forall_app. split; [|constructor].
      * eapply Forall_impl; [exact Hpre|]. simpl. lia.
      * done.
      * eapply Forall_impl; [exact Hmid|]. simpl. lia.
    + exists before, after. split; [|done].
      rewrite <- Heq. simpl. by rewrite <- app_assoc.
  - destruct (IH best pre (mid ++ [a])) as (before & after & Heq & H);
      [done| |].
    + apply Forall_app. split; [done|]. constructor; [lia|constructor].
    + exists before, after. split; [|done].
      rewrite <- Heq. by rewrite <- app_assoc.
Qed.

(** X15 — which variable [select_unassigned_variable] returns: of the
    variables without a word, in the order in which the variables are
    iterated, the first one whose domain is of the least size; the
    variables before it have larger domains, the ones after it domains
    at least as large. *)
Theorem select_unassigned_variable_first (cw : Crossword) (d : Domains)
    (a : list (variable * string)) var :
  select_unassigned_variable cw d a = Ok var →
  ∃ before after,
    unassigned cw a = before ++ var :: after
    ∧ Forall (λ v, size (d !!! var) < size (d !!! v)) before
    ∧ Forall (λ v, size (d !!! var) ≤ size (d !!! v)) after.
Proof.
  unfold select_unassigned_variable. intros H.
  apply obind_Ok in H as (temp_list & Htemp & H).
  apply obind_Ok in H as (best & Hmin & [= <-]).
  apply build_temp_list_Ok in Htemp. fold (unassigned cw a) in Htemp.
  destruct temp_list as [|b0 rest]; [done|]. simpl in Hmin.
  injection Hmin as <-.
  destruct (min_from_first snd rest b0 [] [])
    as (before & after & Heq & Hb & Ha); [constructor..|].
  simpl in Heq. rewrite Heq in Htemp. symmetry in Htemp.
  apply fmap_app_inv in Htemp as (u1 & u2 & Hu1 & Hu2 & Hu).
  symmetry in Hu2.
  apply fmap_cons_inv in Hu2 as (v & u3 & Hv & Hu3 & ->).
  rewrite Hv in *. simpl in *. subst before after.
  exists u1, u3. split; [done|].
  rewrite !Forall_fmap in *. done.
Qed.

Lemma build_temp_list_outcome (d : Domains) a vars :
  build_temp_list d a vars
  = if decide (Forall (λ v, is_Some (d !! v))
                      (filter (λ v, dict_get a v = None) vars))
    then Ok ((λ v, (v, size (d !!! v)))
               <$> filter (λ v, dict_get a v = None) vars)
    else Raise KeyError.
Proof.
  induction vars as [|v vars IH]; [done|]. cbn [build_temp_list].
  destruct (dict_in v a) eqn:Hin.
  - apply dict_in_get in Hin as [w Hw].
    rewrite filter_cons_False by (by rewrite Hw). done.
  - apply dict_in_false in Hin. rewrite filter_cons_True by done.
    unfold getitem. destruct (d !! v) as [s|] eqn:Hs; cbn [obind].
    + rewrite IH. case_decide as Hall.
      * rewrite decide_True by (constructor; [by rewrite Hs|done]).
        cbn [obind]. simpl. by rewrite lookup_total_alt, Hs.
      * rewrite decide_False; [done|]. by intros [_ ?]%Forall_cons.
    + rewrite decide_False; [done|].
      intros [[? Hv] _]%Forall_cons. by rewrite Hs in Hv.
Qed.

(** X16 — when [select_unassigned_variable] raises: a [ValueError]
    ([min] of an empty list) exactly when every variable has a word,
    that is when [assignment_complete] holds; a [KeyError] exactly when
    a variable without a word has no domain; and it returns a variable
    in every other case. *)
Theorem select_unassigned_variable_raises (cw : Crossword) (d : Domains)
    (a : list (variable * string)) :
  (select_unassigned_variable cw d a = Raise ValueError
   ↔ assignment_complete cw a = true)
  ∧ (select_unassigned_variable cw d a = Raise KeyError
     ↔ Exists (λ v, d !! v = None) (unassigned cw a))
  ∧ ((∃ var, select_unassigned_variable cw d a = Ok var)
     ↔ assignment_complete cw a = false
       ∧ Forall (λ v, is_Some (d !! v)) (unassigned cw a)).
Proof.
  assert (assignment_complete cw a = true ↔ unassigned cw a = []) as Hc.
  { rewrite assignment_complete_true. unfold unassigned. split.
    - intros Hall.
      destruct (filter _ (variables cw)) as [|v l] eqn:Hf; [done|].
      assert (v ∈ filter (λ v, dict_get a v = None) (variables cw)) as Hin
        by (rewrite Hf; left).
      apply list_elem_of_filter in Hin as [Hn Hv].
      destruct (Hall v Hv) as [w Hw]. by rewrite Hw in Hn.
    - intros Hnil v Hv. apply not_eq_None_Some. intros Hn.
      assert (v ∈ filter (λ v, dict_get a v = None) (variables cw)) as Hin
        by (by apply list_elem_of_filter).
      rewrite Hnil in Hin. by apply elem_of_nil in Hin. }
  assert (assignment_complete cw a = false ↔ unassigned cw a ≠ []) as Hc'.
  { rewrite <- Hc. by destruct (assignment_complete cw a). }
  rewrite Hc, Hc'. unfold select_unassigned_variable.
  rewrite build_temp_list_outcome. fold (unassigned cw a).
  assert (∀ v, ¬ is_Some (d !! v) ↔ d !! v = None) as Hnone
    by (intros v; by rewrite eq_None_not_Some).
  case_decide as Hall; cbn [obind].
  - destruct (unassigned cw a) as [|v l] eqn:Hu; simpl.
    + split_and!.
      * done.
      * split; [done|]. intros Hex. by apply Exists_nil in Hex.
      * split; [by intros [? ?]|by intros [? _]].
    + split_and!.
      * done.
      * split; [done|]. intros Hex. exfalso.
        apply Exists_exists in Hex as (x & Hx & Hn).
        rewrite Forall_forall in Hall. apply Hnone in Hn. by apply Hn, Hall.
      * split; [done|eauto].
  - split_and!.
    + split; [done|]. intros Heq. rewrite Heq in Hall. by destruct Hall.
    + split; [|done]. intros _. apply not_Forall_Exists in Hall; [|apply _].
      eapply Exists_impl; [exact Hall|]. intros v. apply Hnone.
    + split; [by intros [? ?]|by intros [_ ?]].
Qed.

(** ** [consistent] *)

(** X17 — what [consistent] checks.  On a well-formed crossword, for an
    assignment whose keys are variables of it, [consistent] returns
    [True] exactly when no word occurs twice, every word has the length
    of its variable, and every two neighbours that both have a word
    carry the same character at their overlap. *)
Theorem consistent_iff (cw : Crossword) (a : list (variable * string)) :
  wf_crossword cw = true →
  Forall (λ v, v ∈ variables cw) a.*1 →
  consistent cw a = Ok true
  ↔ NoDup a.*2
    ∧ (∀ v w, dict_get a v = Some w → String.length w = var_length v)
    ∧ (∀ x y wx wy, y ∈ neighbors cw x →
         dict_get a x = Some wx → dict_get a y = Some wy →
         ∃ ix iy c, overlaps cw x y = Some (Some (ix, iy))
                  ∧ str_index wx ix = Ok c ∧ str_index wy iy = Ok c).
Proof.
  intros Hwf Hkeys. split; [apply consistent_true|].
  intros (Hnd & Hlen & Hov). apply consistent_intro; [done..| |done].
  intros v w Hw. split; [|by apply Hlen].
  rewrite Forall_forall in Hkeys. apply Hkeys, dict_get_keys. eauto.
Qed.

(** X18 — a word used twice: [consistent] returns [False] before it
    looks at a length or an overlap, so it raises nothing, whatever the
    crossword and the keys. *)
Theorem consistent_repeated_word (cw : Crossword)
    (a : list (variable * string)) :
  ¬ NoDup a.*2 → consistent cw a = Ok false.
Proof.
  intros Hdup. unfold consistent. rewrite decide_True; [done|].
  by rewrite length_list_to_set_NoDup.
Qed.

(** ** Rendering an assignment *)

Lemma string_get_ge s n : String.length s ≤ n → String.get n s = None.
Proof.
  revert n. induction s as [|c s IH]; intros n; simpl; [done|].
  destruct n as [|n]; [lia|]. intros Hn. apply IH. lia.
Qed.

Lemma entry_letter_index v w i j :
  entry_letter (v, w) i j = index_of v i j ≫= λ k, String.get k w.
Proof.
  unfold entry_letter, index_of. destruct (var_direction v); by case_decide.
Qed.

Lemma cell_of_index v k i j :
  cell_of v k = (i, j) ↔ index_of v i j = Some k.
Proof.
  unfold cell_of, index_of. destruct (var_direction v); simpl.
  - split.
    + intros [= <- <-]. rewrite decide_True by lia. f_equal. lia.
    + case_decide as H; [|done]. intros [= <-]. f_equal; lia.
  - split.
    + intros [= <- <-]. rewrite decide_True by lia. f_equal. lia.
    + case_decide as H; [|done]. intros [= <-]. f_equal; lia.
Qed.

Lemma letters_set_Ok h wd (letters : Letters) i j c :
  dims h wd letters → i < h → j < wd →
  ∃ letters', letters_set i j c letters = Ok letters'
    ∧ dims h wd letters'
    ∧ ∀ i' j', letter_at letters' i' j'
               = if decide (i' = i ∧ j' = j) then Some (Some c)
                 else letter_at letters i' j'.
Proof.
  intros [Hlen Hrows] Hi Hj.
  destruct (lookup_lt_is_Some_2 letters i) as [row Hrow]; [lia|].
  assert (length row = wd) as Hrl
    by (by apply (Forall_lookup_1 _ letters i row Hrows)).
  unfold letters_set, list_index. rewrite Hrow. cbn [obind].
  rewrite decide_True by lia. eexists. split; [done|]. split.
  - split; [by rewrite length_insert|].
    apply Forall_insert; [done|]. by rewrite length_insert.
  - intros i' j'. unfold letter_at. case_decide as Hc.
    + destruct Hc as [-> ->]. rewrite list_lookup_insert_eq by lia. simpl.
      by rewrite list_lookup_insert_eq by lia.
    + destruct (decide (i' = i)) as [->|Hne].
      * rewrite list_lookup_insert_eq by lia. simpl. rewrite Hrow. simpl.
        rewrite list_lookup_insert_ne; [done|]. intros ->. by apply Hc.
      * by rewrite list_lookup_insert_ne.
Qed.

Lemma letters_set_raise h wd (letters : Letters) i j c :
  dims h wd letters → ¬ (i < h ∧ j < wd) →
  letters_set i j c letters = Raise IndexError.
Proof.
  intros [Hlen Hrows] Hout. unfold letters_set, list_index.
  destruct (letters !! i) as [row|] eqn:Hrow; [|done]. cbn [obind].
  rewrite decide_False; [done|]. intros Hj. apply Hout.
  apply lookup_lt_Some in Hrow as Hi.
  eapply (Forall_lookup_1 _ letters i row) in Hrows; [|done].
  simpl in Hrows. lia.
Qed.

Lemma letter_grid_word_spec h wd v w n :
  ∀ s (letters : Letters),
    s + n ≤ String.length w → dims h wd letters →
    if decide (Forall (λ k, (cell_of v k).1 < h ∧ (cell_of v k).2 < wd)
                      (seq s n))
    then ∃ letters',
        letter_grid_word v w (seq s n) letters = Ok letters'
        ∧ dims h wd letters'
        ∧ ∀ i j, letter_at letters' i j
                 = match index_of v i j with
                   | Some k => if decide (s ≤ k < s + n)
                               then Some (String.get k w)
                               else letter_at letters i j
                   | None => letter_at letters i j
                   end
    else letter_grid_word v w (seq s n) letters = Raise IndexError.
Proof.
  induction n as [|n IH]; intros s letters Hle Hd.
  { destruct (decide (Forall _ (seq s 0))) as [_|[]]; [|constructor].
    exists letters. split_and!; [done..|]. intros i j.
    destruct (index_of v i j); [|done]. by rewrite decide_False by lia. }
  cbn [seq letter_grid_word].
  destruct (cell_of v s) as [ci cj] eqn:Hcell.
  destruct (str_index_lt w s) as [c Hc]; [lia|]. rewrite Hc. cbn [obind].
  assert (String.get s w = Some c) as Hget.
  { unfold str_index in Hc. by destruct (String.get s w); [injection Hc as ->|]. }
  destruct (decide (ci < h ∧ cj < wd)) as [[Hi Hj]|Hout].
  2:{ rewrite (letters_set_raise h wd) by done. cbn [obind].
      rewrite decide_False; [done|]. intros [H _]%Forall_cons.
      by rewrite Hcell in H. }
  destruct (letters_set_Ok h wd letters ci cj c Hd Hi Hj)
    as (l1 & -> & Hd1 & Hat1).
  cbn [obind]. specialize (IH (S s) l1 ltac:(lia) Hd1).
  case_decide as Hall.
  2:{ rewrite decide_False; [done|]. by intros [_ ?]%Forall_cons. }
  rewrite decide_True by (constructor; [by rewrite Hcell|done]).
  destruct IH as (l2 & -> & Hd2 & Hat2). exists l2. split_and!; [done..|].
  intros i j. rewrite Hat2, Hat1.
  destruct (index_of v i j) as [k|] eqn:Hidx.
  - destruct (decide (k = s)) as [->|Hks].
    + apply cell_of_index in Hidx. rewrite Hcell in Hidx.
      injection Hidx as <- <-.
      rewrite decide_False by lia. rewrite decide_True by done.
      rewrite decide_True by lia. by rewrite Hget.
    + case_decide as Hk.
      * by rewrite decide_True by lia.
      * rewrite (decide_False (P := s ≤ k < s + S n)) by lia.
        rewrite decide_False; [done|]. intros [-> ->].
        apply cell_of_index in Hcell. rewrite Hcell in Hidx.
        by injection Hidx as ->.
  - rewrite decide_False; [done|]. intros [-> ->].
    apply cell_of_index in Hcell. by rewrite Hcell in Hidx.
Qed.

Lemma fits_cells board v w :
  fits board (v, w)
  ↔ Forall (λ k, (cell_of v k).1 < height board
                 ∧ (cell_of v k).2 < width board)
           (seq 0 (String.length w)).
Proof.
  rewrite Forall_seq. unfold fits, cell_of.
  destruct (var_direction v); simpl; split.
  - intros [->|[H1 H2]] k Hk; simpl in *; lia.
  - intros H. destruct w as [|c w]; [by left|right]. simpl in *.
    specialize (H (String.length w)). lia.
  - intros [->|[H1 H2]] k Hk; simpl in *; lia.
  - intros H. destruct w as [|c w]; [by left|right]. simpl in *.
    specialize (H (String.length w)). lia.
Qed.

Lemma letter_grid_items_spec board items :
  ∀ letters : Letters,
    dims (height board) (width board) letters →
    if decide (Forall (fits board) items)
    then ∃ letters',
        letter_grid_items items letters = Ok letters'
        ∧ dims (height board) (width board) letters'
        ∧ ∀ i j x, letter_at letters i j = Some x →
            letter_at letters' i j
            = Some (foldl (λ acc e, match entry_letter e i j with
                                    | Some c => Some c
                                    | None => acc
                                    end) x items)
    else letter_grid_items items letters = Raise IndexError.
Proof.
  induction items as [|[v w] items IH]; intros letters Hd.
  { destruct (decide (Forall _ [])) as [_|[]]; [|constructor].
    exists letters. by split_and!. }
  cbn [letter_grid_items].
  pose proof (letter_grid_word_spec (height board) (width board) v w
                (String.length w) 0 letters ltac:(simpl; lia) Hd) as Hw.
  case_decide as Hfit.
  2:{ rewrite Hw. cbn [obind]. rewrite decide_False; [done|].
      intros [?%fits_cells _]%Forall_cons. done. }
  destruct Hw as (l1 & -> & Hd1 & Hat1). cbn [obind].
  specialize (IH l1 Hd1). case_decide as Hall.
  2:{ rewrite decide_False; [done|]. by intros [_ ?]%Forall_cons. }
  rewrite decide_True by (constructor; [by apply fits_cells|done]).
  destruct IH as (l2 & -> & Hd2 & Hat2). exists l2. split_and!; [done..|].
  intros i j x Hx. cbn [foldl]. apply Hat2. rewrite Hat1, Hx.
  rewrite entry_letter_index.
  destruct (index_of v i j) as [k|]; simpl; [|done].
  case_decide as Hk.
  - destruct (str_index_lt w k) as [c Hc]; [lia|].
    unfold str_index in Hc. by destruct (String.get k w).
  - by rewrite string_get_ge by lia.
Qed.

Lemma dims_replicate h wd :
  dims h wd (replicate h (replicate wd (None : option ascii))).
Proof.
  split; [by rewrite length_replicate|].
  apply Forall_replicate. by rewrite length_replicate.
Qed.

Lemma letter_at_replicate h wd i j :
  i < h → j < wd →
  letter_at (replicate h (replicate wd None)) i j = Some None.
Proof.
  intros Hi Hj. unfold letter_at.
  rewrite lookup_replicate_2 by done. simpl.
  by rewrite lookup_replicate_2.
Qed.

Lemma letter_grid_spec (board : Board)
    (assignment : list (variable * string)) :
  if decide (Forall (fits board) assignment)
  then ∃ letters,
      letter_grid board assignment = Ok letters
      ∧ dims (height board) (width board) letters
      ∧ ∀ i j, i < height board → j < width board →
               letter_at letters i j = Some (painted assignment i j)
  else letter_grid board assignment = Raise IndexError.
Proof.
  pose proof (letter_grid_items_spec board assignment _
                (dims_replicate (height board) (width board))) as H.
  unfold letter_grid. case_decide as Hfit; [|done].
  destruct H as (letters & -> & Hd & Hat). exists letters.
  split_and!; [done..|]. intros i j Hi Hj.
  by apply Hat, letter_at_replicate.
Qed.

(** X19 — the bounds of [letter_grid]: it returns a grid exactly when
    every word of the assignment lies within the grid from the cell of
    its variable on (an empty word lies within any grid); if one does
    not, the write to [letters[i][j]] raises an [IndexError]. *)
Theorem letter_grid_bounds (board : Board)
    (assignment : list (variable * string)) :
  ((∃ letters, letter_grid board assignment = Ok letters)
   ↔ Forall (fits board) assignment)
  ∧ (letter_grid board assignment = Raise IndexError
     ↔ ¬ Forall (fits board) assignment).
Proof.
  pose proof (letter_grid_spec board assignment) as H.
  case_decide as Hfit.
  - destruct H as (letters & -> & _). split; split; try done; eauto.
  - rewrite H. split; split; try done. by intros [? ?].
Qed.

(** X20 — the grid that [letter_grid] returns: [height] rows of [width]
    cells, and in each cell the letter that the last entry of the
    assignment covering the cell puts there, [None] when no entry
    covers it. *)
Theorem letter_grid_cells (board : Board)
    (assignment : list (variable * string)) (letters : Letters) :
  letter_grid board assignment = Ok letters →
  length letters = height board
  ∧ Forall (λ row, length row = width board) letters
  ∧ ∀ i j, i < height board → j < width board →
           letter_at letters i j = Some (painted assignment i j).
Proof.
  intros Hrun. pose proof (letter_grid_spec board assignment) as H.
  rewrite Hrun in H. case_decide as Hfit; [|done].
  by destruct H as (? & [= <-] & [Hlen Hrows] & Hat).
Qed.

Lemma painted_app a1 a2 i j :
  painted (a1 ++ a2) i j
  = foldl (λ acc e, match entry_letter e i j with
                    | Some c => Some c
                    | None => acc
                    end) (painted a1 i j) a2.
Proof. unfold painted. by rewrite foldl_app. Qed.

(** X21 — reading a word back: in the grid that [letter_grid] returns,
    the cell of the [k]-th letter of an entry holds that letter, as long
    as each later entry of the assignment that covers the cell puts the
    same letter there. *)
Theorem letter_grid_reads_back (board : Board)
    (a1 a2 : list (variable * string)) v w (letters : Letters) k c :
  letter_grid board (a1 ++ (v, w) :: a2) = Ok letters →
  String.get k w = Some c →
  Forall (λ e, entry_letter e (cell_of v k).1 (cell_of v k).2 = None
               ∨ entry_letter e (cell_of v k).1 (cell_of v k).2 = Some c)
         a2 →
  letter_at letters (cell_of v k).1 (cell_of v k).2 = Some (Some c).
Proof.
  intros Hrun Hget Hlater.
  destruct (cell_of v k) as [i j] eqn:Hcell. simpl in *.
  pose proof (letter_grid_spec board (a1 ++ (v, w) :: a2)) as Hspec.
  rewrite Hrun in Hspec. case_decide as Hfit; [|done].
  destruct Hspec as (? & [= <-] & _ & Hat).
  apply Forall_app in Hfit as [_ [Hvw _]%Forall_cons].
  apply fits_cells in Hvw. rewrite Forall_seq in Hvw.
  assert (k < String.length w) as Hk.
  { destruct (decide (k < String.length w)); [done|].
    rewrite string_get_ge in Hget by lia. done. }
  specialize (Hvw k ltac:(lia)). rewrite Hcell in Hvw. simpl in Hvw.
  rewrite Hat by lia. do 2 f_equal.
  rewrite painted_app. cbn [foldl]. rewrite entry_letter_index.
  apply cell_of_index in Hcell. rewrite Hcell. simpl. rewrite Hget.
  clear -Hlater. induction a2 as [|e a2 IH]; [done|].
  apply Forall_cons in Hlater as [He Hlater]. cbn [foldl].
  destruct He as [->| ->]; by apply IH.
Qed.

Lemma for_each_write {A} (body : A → M (list pychar) unit)
    (g : A → list pychar) l :
  (∀ x out, x ∈ l → body x out = (Ok tt, out ++ g x)) →
  ∀ out, for_each body l out = (Ok tt, out ++ (l ≫= g)).
Proof.
  induction l as [|a l IH]; intros Hbody out; simpl.
  { unfold ret. by rewrite app_nil_r. }
  unfold sbind. rewrite Hbody by left.
  rewrite IH by (intros; apply Hbody; by right).
  by rewrite <- app_assoc.
Qed.

(** X22 — what [print] writes.  When a word of the assignment does not
    lie within the grid, [print] raises the [IndexError] of
    [letter_grid] and writes nothing.  Otherwise, the structure having
    a cell for every position, it writes the rows from the top, each
    followed by a newline: a full block for a blocked cell, the letter
    of the grid for an open cell, a space where the grid has none. *)
Theorem print_writes (board : Board)
    (assignment : list (variable * string)) (out : list pychar) :
  well_shaped board →
  print board assignment out
  = if decide (Forall (fits board) assignment)
    then (Ok tt, out ++ rendering board assignment)
    else (Raise IndexError, out).
Proof.
  intros Hshape. unfold print, sbind at 1, reading.
  pose proof (letter_grid_spec board assignment) as Hspec.
  case_decide as Hfit; [|by rewrite Hspec].
  destruct Hspec as (letters & -> & _ & Hat).
  unfold rendering.
  apply (for_each_write (print_row board letters)).
  intros i out' Hi%elem_of_seq. unfold print_row, sbind.
  rewrite (for_each_write (print_cell board letters i)
             (λ j, [glyph board assignment i j])).
  - unfold stdout_write. f_equal. rewrite <- app_assoc. by f_equal.
  - intros j out'' Hj%elem_of_seq.
    unfold well_shaped in Hshape. rewrite Forall_seq in Hshape.
    specialize (Hshape i ltac:(lia)). rewrite Forall_seq in Hshape.
    destruct (Hshape j ltac:(lia)) as [open Hopen].
    unfold print_cell, sbind, reading, list_index, glyph.
    specialize (Hat i j ltac:(lia) ltac:(lia)). unfold letter_at in Hat.
    destruct (structure board !! i) as [row|]; [|done]. simpl in Hopen.
    cbn [obind mbind option_bind]. rewrite Hopen.
    destruct open; [|done].
    destruct (letters !! i) as [lrow|]; [|done]. simpl in Hat.
    cbn [obind]. rewrite Hat. done.
Qed.

Import Boards Runs.

(** ** The further properties at sample runs *)

(** X1 from the domains that [__init__] builds. *)
Lemma enforce_node_consistency_exact_witness :
  ∃ d', enforce_node_consistency cross3 (init_domains cross3) = (Ok tt, d')
    ∧ ∀ v, d' !! v
           = if decide (v ∈ variables cross3)
             then filter (λ w, String.length w = var_length v)
                    <$> init_domains cross3 !! v
             else init_domains cross3 !! v.
Proof. apply enforce_node_consistency_exact. evaluate. Defined.

(** X2 on a store without domains. *)
Lemma enforce_node_consistency_key_error_witness :
  (enforce_node_consistency cross3 ∅).1 = Raise KeyError.
Proof.
  apply (proj2 (proj2 (enforce_node_consistency_key_error cross3 ∅))).
  evaluate.
Defined.

(** X4 for a revision that removes a word. *)
Lemma revise_exact_witness :
  ∃ overlap xs xs',
    overlaps cross3 y3 x2 = Some overlap
    ∧ cross3_domains !! y3 = Some xs ∧ cross3_revised !! y3 = Some xs'
    ∧ (∀ v, v ≠ y3 → cross3_revised !! v = cross3_domains !! v)
    ∧ (∀ w, w ∈ xs' ↔
            w ∈ xs ∧ ∃ ys w', cross3_domains !! x2 = Some ys ∧ w' ∈ ys
                              ∧ agree overlap w w')
    ∧ (true = true ↔ xs' ≠ xs)
    ∧ (true = false ↔ cross3_revised = cross3_domains).
Proof. apply (revise_exact cross3 y3 x2). evaluate. Defined.

(** X5 where a domain holds the empty word. *)
Lemma revise_raises_unchanged_witness :
  ({[x2 := {[""]}; y3 := {["AXE"]}]} : Domains)
  = {[x2 := {[""]}; y3 := {["AXE"]}]}
  ∧ (IndexError = KeyError ∨ IndexError = TypeError
     ∨ IndexError = IndexError).
Proof.
  apply (revise_raises_unchanged cross3 x2 y3
           {[x2 := {[""]}; y3 := {["AXE"]}]}).
  evaluate.
Defined.

(** X6 with the domain of the second variable empty. *)
Lemma revise_empty_domains_witness :
  revise cross3 y3 x2 {[x2 := ∅; y3 := {["AXE"]}]}
  = (Ok (bool_decide (({["AXE"]} : gset string) ≠ ∅)),
     <[y3 := ∅]> {[x2 := ∅; y3 := {["AXE"]}]}).
Proof.
  apply (proj2 (revise_empty_domains cross3 y3 x2
                  {[x2 := ∅; y3 := {["AXE"]}]} (Some (0, 0))
                  ltac:(evaluate))).
  - evaluate.
  - evaluate.
Defined.

(** X7 for a queue of two arcs and three words. *)
Lemma ac3_returns_within_bound_witness :
  ∃ b d', ac3 cross3 10 None cross3_domains = (Ok b, d').
Proof.
  apply ac3_returns_within_bound.
  - evaluate.
  - evaluate.
  - evaluate.
  - evaluate.
  - evaluate.
  - evaluate.
Defined.

(** X8 for the solution of the sample. *)
Lemma ac3_keeps_solutions_witness :
  contains cross3 (ac3 cross3 10 None cross3_domains).2 cross3_solution
  ∧ (ac3 cross3 10 None cross3_domains).1 ≠ Ok false.
Proof.
  assert (is_solution cross3 cross3_solution = true) as Hsol by evaluate.
  apply is_solution_sound in Hsol as [Hsol _].
  apply ac3_keeps_solutions.
  - evaluate.
  - evaluate.
  - exact Hsol.
  - evaluate.
Defined.


(** X10 on the sample. *)
Lemma solve_returns_witness : ∃ r, solve cross3 = Ok r.
Proof. apply solve_returns. evaluate. Defined.

(** X11 on the sample. *)
Lemma solve_assignment_keys_witness :
  NoDup cross3_solution.*1
  ∧ (∀ v, v ∈ cross3_solution.*1 ↔ v ∈ variables cross3)
  ∧ ∀ v w, (v, w) ∈ cross3_solution → w ∈ words cross3.
Proof. apply solve_assignment_keys. evaluate. Defined.

(** X12 for a search from the empty dict. *)
Lemma backtrack_depth_witness :
  (backtrack cross3 3 cross3_revised 0 (mkStore [[]] 0)).1 ≠ OutOfFuel.
Proof.
  apply (backtrack_depth cross3 3 cross3_revised (mkStore [[]] 0) 0 []).
  - reflexivity.
  - evaluate.
Defined.

(** X13 for a search from the empty dict. *)
Lemma backtrack_extends_assignment_witness :
  ∃ more,
    dicts (backtrack cross3 3 cross3_revised 0 (mkStore [[]] 0)).2 !! 2
    = Some ([] ++ more)
    ∧ NoDup more.*1
    ∧ Forall (λ e, e.1 ∈ variables cross3 ∧ dict_get [] e.1 = None
                   ∧ e.2 ∈ cross3_revised !!! e.1) more
    ∧ assignment_complete cross3 ([] ++ more) = true.
Proof.
  apply (backtrack_extends_assignment cross3 3 cross3_revised
           (mkStore [[]] 0) 0 2 []).
  - reflexivity.
  - evaluate.
Defined.

(** X14 on a crossword without slots. *)
Lemma solve_no_variables_witness : solve no_slots = Ok (Some []).
Proof. apply solve_no_variables. reflexivity. Defined.

(** X15 where the three domains have the same size. *)
Lemma select_unassigned_variable_first_witness :
  ∃ before after,
    unassigned (comb [u2; h5; u3] comb_words) [] = before ++ u2 :: after
    ∧ Forall (λ v, size (comb_domains !!! u2) < size (comb_domains !!! v))
             before
    ∧ Forall (λ v, size (comb_domains !!! u2) ≤ size (comb_domains !!! v))
             after.
Proof. apply select_unassigned_variable_first. evaluate. Defined.

(** X16 for a complete assignment. *)
Lemma select_unassigned_variable_raises_witness :
  select_unassigned_variable cross3 ∅ cross3_solution = Raise ValueError.
Proof.
  apply (proj1 (select_unassigned_variable_raises cross3 ∅ cross3_solution)).
  evaluate.
Defined.

(** X17 for the solution of the sample. *)
Lemma consistent_iff_witness :
  consistent cross3 cross3_solution = Ok true
  ↔ NoDup cross3_solution.*2
    ∧ (∀ v w, dict_get cross3_solution v = Some w →
              String.length w = var_length v)
    ∧ (∀ x y wx wy, y ∈ neighbors cross3 x →
         dict_get cross3_solution x = Some wx →
         dict_get cross3_solution y = Some wy →
         ∃ ix iy c, overlaps cross3 x y = Some (Some (ix, iy))
                  ∧ str_index wx ix = Ok c ∧ str_index wy iy = Ok c).
Proof.
  apply consistent_iff.
  - evaluate.
  - evaluate.
Defined.

(** X18 with the same word in both slots. *)
Lemma consistent_repeated_word_witness :
  consistent cross3 [(x2, "AB"); (y3, "AB")] = Ok false.
Proof. apply consistent_repeated_word. evaluate. Defined.

(** X19 for a word longer than its row. *)
Lemma letter_grid_bounds_witness :
  letter_grid cross_board [(x2, "ABC")] = Raise IndexError.
Proof.
  apply (proj2 (letter_grid_bounds cross_board [(x2, "ABC")])).
  evaluate.
Defined.

(** X20 for the solution of the sample. *)
Lemma letter_grid_cells_witness :
  length [[Some "A"%char; Some "B"%char]; [Some "X"%char; None];
          [Some "E"%char; None]] = height cross_board
  ∧ Forall (λ row, length row = width cross_board)
      [[Some "A"%char; Some "B"%char]; [Some "X"%char; None];
       [Some "E"%char; None]]
  ∧ ∀ i j, i < height cross_board → j < width cross_board →
           letter_at [[Some "A"%char; Some "B"%char]; [Some "X"%char; None];
                      [Some "E"%char; None]] i j
           = Some (painted cross3_solution i j).
Proof. apply letter_grid_cells. evaluate. Defined.

(** X21 for the first letter of the slot across, in the cell that the
    slot down covers as well. *)
Lemma letter_grid_reads_back_witness :
  letter_at [[Some "A"%char; Some "B"%char]; [Some "X"%char; None];
             [Some "E"%char; None]] (cell_of x2 0).1 (cell_of x2 0).2
  = Some (Some "A"%char).
Proof.
  apply (letter_grid_reads_back cross_board [] [(y3, "AXE")] x2 "AB").
  - evaluate.
  - reflexivity.
  - evaluate.
Defined.

(** X22 for the solution of the sample. *)
Lemma print_writes_witness :
  print cross_board cross3_solution []
  = if decide (Forall (fits cross_board) cross3_solution)
    then (Ok tt, [] ++ rendering cross_board cross3_solution)
    else (Raise IndexError, []).
Proof. apply print_writes. evaluate. Defined.
